(** * landscape.lib.amp: remote method calls over AMP

    A shallow embedding of [landscape/lib/amp.py]: the server protocol that
    dispatches [MethodCall] commands to an exposed object, the client
    protocol that tracks deferred responses, the client factory with its
    notifiers, the [RemoteObject] proxy with its retry-on-reconnect logic,
    and the [RemoteObjectCreator].  Twisted's [Deferred], [DelayedCall]
    and reactor clock are modelled as explicit stores threaded through a
    state-and-exception monad. *)

From stdpp Require Import base option list gmap strings sorting.

Set Default Proof Using "Type".

(** ** Python values and their types *)

(** The classes that matter to [type(x) in dumps_table].  [TClass] is a
    user-defined class with its (single) base class. *)
Inductive pytype : Type :=
| TObject | TNoneType | TBool | TInt | TLong | TFloat
| TStr | TUnicode | TList | TTuple | TDict
| TClass (name : string) (base : pytype).

Global Instance pytype_eq_dec : EqDecision pytype.
Proof. solve_decision. Defined.

(** [cls.__base__]: [bool] derives from [int], every other builtin from
    [object]. *)
Definition py_base (t : pytype) : option pytype :=
  match t with
  | TObject => None
  | TBool => Some TInt
  | TClass _ b => Some b
  | _ => Some TObject
  end.

(** The proper ancestors of a class, nearest first. *)
Fixpoint ancestors (t : pytype) : list pytype :=
  match t with
  | TObject => []
  | TBool => [TInt; TObject]
  | TClass _ b => b :: ancestors b
  | _ => [TObject]
  end.

(** [issubclass(t, u) and t is not u] *)
Definition strict_subclass (t u : pytype) : Prop := u ∈ ancestors t.
Global Instance strict_subclass_dec (t u : pytype) :
  Decision (strict_subclass t u).
Proof. unfold strict_subclass. apply _. Defined.

#[warnings="-register-all"] Inductive value : Type :=
| VNone
| VBool (b : bool)
| VInt (n : Z)
| VLong (n : Z)
| VFloat (bits : Z)
| VStr (s : string)
| VUnicode (s : string)
| VList (items : list value)
| VTuple (items : list value)
| VDict (items : list (value * value))
| VInstance (name : string) (base : pytype) (state : value).

(** [type(x)]: the exact class of an object. *)
Definition type_of (v : value) : pytype :=
  match v with
  | VNone => TNoneType
  | VBool _ => TBool
  | VInt _ => TInt
  | VLong _ => TLong
  | VFloat _ => TFloat
  | VStr _ => TStr
  | VUnicode _ => TUnicode
  | VList _ => TList
  | VTuple _ => TTuple
  | VDict _ => TDict
  | VInstance name base _ => TClass name base
  end.

(** ** Exceptions and failures *)

Inductive exn_class : Type :=
| MethodCallError
| ConnectionLost
| ConnectionDone
| AlreadyCalled
| AlreadyCancelled
| AlreadyCalledError
| AttributeError
| OtherError (name : string).

Global Instance exn_class_eq_dec : EqDecision exn_class.
Proof. solve_decision. Defined.

(** An exception instance; a [Failure] wraps one, [failure.type] is
    [exn_type] and [str(failure.value)] is [exn_str]. *)
Record exn : Type := Exn { exn_type : exn_class; exn_str : string }.

Global Instance exn_eq_dec : EqDecision exn.
Proof. solve_decision. Defined.

(** ** A state-and-exception monad

    Python statements mutate the heap and may raise; a raise keeps the
    mutations made so far. *)
Definition M (W A : Type) : Type := W → W * (exn + A).

Definition ret {W A} (a : A) : M W A := λ w, (w, inr a).
Definition raise {W A} (e : exn) : M W A := λ w, (w, inl e).
Definition bind {W A B} (m : M W A) (k : A → M W B) : M W B :=
  λ w, match m w with
       | (w', inr a) => k a w'
       | (w', inl e) => (w', inl e)
       end.
Definition gets {W A} (f : W → A) : M W A := λ w, (w, inr (f w)).
Definition modify {W} (f : W → W) : M W unit := λ w, (f w, inr tt).
(** What a [Deferred] does around a callback: an exception raised by the
    callback does not reach the code that fired the [Deferred]. *)
Definition swallow {W A} (m : M W A) : M W unit :=
  λ w, (fst (m w), inr tt).
Definition exec {W A} (m : M W A) (w : W) : W := fst (m w).

Declare Scope py_scope.
Delimit Scope py_scope with py.
Notation "x <- m ;; k" := (bind m (λ x, k))
  (at level 100, m at next level, right associativity) : py_scope.
Notation "m ;;; k" := (bind m (λ _, k))
  (at level 100, right associativity) : py_scope.
Open Scope py_scope.

(** ** Twisted: Deferred results, delayed calls, the reactor clock *)

(** What a fired [Deferred] holds. *)
Inductive dresult : Type :=
| Callback (v : value)
| Errback (f : exn).

(** A heap of caller-facing [Deferred] objects, addressed by allocation
    order; [None] is a [Deferred] that has not fired. *)
Abbreviation dheap := (list (option dresult)).

(** [d.callback(v)] / [d.errback(f)] on heap [h]. *)
Definition fire_deferred (d : nat) (r : dresult) (h : dheap) : exn + dheap :=
  match h !! d with
  | Some None => inr (<[d := Some r]> h)
  | _ => inl (Exn AlreadyCalledError "")
  end.

Record DelayedCall (A : Type) : Type := mkDelayedCall {
  dc_time : nat;
  dc_func : A;
  dc_called : bool;
  dc_cancelled : bool
}.
Arguments mkDelayedCall {A}.
Arguments dc_time {A}.
Arguments dc_func {A}.
Arguments dc_called {A}.
Arguments dc_cancelled {A}.

(** [call.active()] *)
Definition dc_active {A} (c : DelayedCall A) : bool :=
  negb (dc_called c) && negb (dc_cancelled c).

(** The reactor as a deterministic clock ([twisted.internet.task.Clock]):
    the current time and every [DelayedCall] created so far, addressed by
    creation order. *)
Record Clock (A : Type) : Type := mkClock {
  rightNow : nat;
  delayed : list (DelayedCall A)
}.
Arguments mkClock {A}.
Arguments rightNow {A}.
Arguments delayed {A}.

(** [reactor.callLater(delay, func)] *)
Definition callLater {A} (delay : nat) (func : A) (r : Clock A) : nat * Clock A :=
  (length (delayed r),
   mkClock (rightNow r)
           (delayed r ++ [mkDelayedCall (rightNow r + delay) func false false])).

(** [call.cancel()] *)
Definition cancel {A} (c : nat) (r : Clock A) : exn + Clock A :=
  match delayed r !! c with
  | Some dc =>
      if dc_cancelled dc then inl (Exn AlreadyCancelled "")
      else if dc_called dc then inl (Exn AlreadyCalled "")
      else inr (mkClock (rightNow r)
                  (<[c := mkDelayedCall (dc_time dc) (dc_func dc) false true]>
                     (delayed r)))
  | None => inl (Exn AttributeError "cancel")
  end.

(** [call.called] *)
Definition called {A} (c : nat) (r : Clock A) : bool :=
  match delayed r !! c with
  | Some dc => dc_called dc
  | None => false
  end.

Definition active {A} (c : nat) (r : Clock A) : bool :=
  match delayed r !! c with
  | Some dc => dc_active dc
  | None => false
  end.

(** The reactor marks a call as called just before running it. *)
Definition mark_called {A} (c : nat) (r : Clock A) : Clock A :=
  match delayed r !! c with
  | Some dc =>
      mkClock (rightNow r)
        (<[c := mkDelayedCall (dc_time dc) (dc_func dc) true (dc_cancelled dc)]>
           (delayed r))
  | None => r
  end.

Definition tick {A} (dt : nat) (r : Clock A) : Clock A :=
  mkClock (rightNow r + dt) (delayed r).

(** Order in which [Clock.advance] runs calls: by scheduled time. *)
Definition earlier {A} (x y : nat * DelayedCall A) : Prop :=
  dc_time (snd x) ≤ dc_time (snd y).
Global Instance earlier_dec {A} (x y : nat * DelayedCall A) :
  Decision (earlier x y).
Proof. unfold earlier. apply _. Defined.

(** The calls that are due at the current time, in firing order. *)
Definition due {A} (r : Clock A) : list nat :=
  fst <$> merge_sort earlier
    (filter (λ p, dc_active (snd p) = true ∧ dc_time (snd p) ≤ rightNow r)
            (imap (λ i dc, (i, dc)) (delayed r))).

(** The store after [call.cancel()] or [d.callback(...)], whether or not
    the call raised. *)
Definition try_cancel {A} (c : nat) (r : Clock A) : Clock A :=
  match cancel c r with inr r' => r' | inl _ => r end.
Definition cancels {A} (c : nat) (r : Clock A) : bool :=
  match cancel c r with inr _ => true | inl _ => false end.
Definition try_fire (d : nat) (x : dresult) (h : dheap) : dheap :=
  match fire_deferred d x h with inr h' => h' | inl _ => h end.

(** ** The wire vocabulary *)

(** The answer to a [MethodCall]: [result] and the optional [deferred]. *)
Record MethodCallResponse : Type := mkResponse {
  mc_result : value;
  mc_deferred : option string
}.

(** The arguments of a [DeferredResponse] command. *)
Record DeferredResponse : Type := mkDeferredResponse {
  dr_uuid : string;
  dr_result : option value;
  dr_failure : option string
}.

(** ** MethodCallServerProtocol *)

(** What calling a method of the exposed object comes to. *)
Inductive returned : Type :=
| Returns (v : value)
| Raises (e : exn)
| ReturnsDeferred (f : nat).

(** The [Deferred] that [maybeDeferred] hands back: one it made itself
    with [succeed]/[fail], or the one the method returned, which lives in
    the heap and may be shared. *)
Inductive result_deferred : Type :=
| Fresh (r : dresult)
| Held (f : nat).

(** The callbacks this module hangs on a method's [Deferred]. *)
Inductive callback : Type :=
| SendDeferredResponse (uuid : string)
| StopPropagating.

(** A [Deferred] returned by a method of the exposed object:
    [sd_result = None] while [called] is false. *)
Record SDeferred : Type := mkSDeferred {
  sd_result : option dresult;
  sd_callbacks : list callback
}.

Definition unfired : SDeferred := mkSDeferred None [].

Module MethodCallServerProtocol.
Section Exposed.
(** The keys of [landscape.lib.bpickle.dumps_table]. *)
Variable dumps_table : list pytype.
(** [str(uuid4())]: the identifier obtained at the n-th draw. *)
Variable uuid4 : nat → string.
(** The exposed object: its state, and [getattr(object, name)]. *)
Variable O : Type.
Variable getattr :
  string → option (list value → list (string * value) → O → O * returned).

(** One protocol instance, bound to one connection. *)
Record state : Type := mkServer {
  methods : list string;
  factory_object : O;
  heap : gmap nat SDeferred;
  uuids_drawn : nat;
  (** boxes written to this connection by [callRemote] *)
  transport : list DeferredResponse;
  (** the calls made on the exposed object, latest last *)
  invoked : list (string * list value * list (string * value))
}.

Definition set_object (o : O) (w : state) : state :=
  mkServer (methods w) o (heap w) (uuids_drawn w) (transport w) (invoked w).
Definition set_heap (h : gmap nat SDeferred) (w : state) : state :=
  mkServer (methods w) (factory_object w) h (uuids_drawn w) (transport w)
           (invoked w).
Definition set_uuids_drawn (n : nat) (w : state) : state :=
  mkServer (methods w) (factory_object w) (heap w) n (transport w) (invoked w).
Definition set_transport (t : list DeferredResponse) (w : state) : state :=
  mkServer (methods w) (factory_object w) (heap w) (uuids_drawn w) t (invoked w).
Definition set_invoked (l : list (string * list value * list (string * value)))
    (w : state) : state :=
  mkServer (methods w) (factory_object w) (heap w) (uuids_drawn w)
           (transport w) l.

(** [MethodCallArgument.check]: [type(inObject) in dumps_table]. *)
Definition check (inObject : value) : bool :=
  bool_decide (type_of inObject ∈ dumps_table).

Definition _check_result (result : value) : M state value :=
  if negb (check result)
  then raise (Exn MethodCallError "Non-serializable result")
  else ret result.

(** [self.callRemote(DeferredResponse, **kwargs)] *)
Definition callRemote (box : DeferredResponse) : M state unit :=
  modify (λ w, set_transport (transport w ++ [box]) w).

Definition send_deferred_response (result : dresult) (uuid : string)
    : M state value :=
  match result with
  | Errback f =>
      callRemote (mkDeferredResponse uuid None (Some (exn_str f))) ;;;
      ret VNone
  | Callback v =>
      r <- _check_result v ;;
      callRemote (mkDeferredResponse uuid (Some r) None) ;;;
      ret VNone
  end.

(** One step of a [Deferred]'s callback chain: the callback receives the
    current result, what it returns (or raises) is the next result. *)
Definition run_callback (cb : callback) (current : dresult)
    : M state dresult :=
  match cb with
  | SendDeferredResponse uuid =>
      λ w, match send_deferred_response current uuid w with
           | (w', inr v) => (w', inr (Callback v))
           | (w', inl e) => (w', inr (Errback e))
           end
  | StopPropagating =>
      match current with
      | Errback _ => ret (Callback VNone)
      | Callback v => ret (Callback v)
      end
  end.

Fixpoint run_callbacks (cbs : list callback) (current : dresult)
    : M state dresult :=
  match cbs with
  | [] => ret current
  | cb :: rest => r <- run_callback cb current ;; run_callbacks rest r
  end.

Definition lookup_deferred (f : nat) (w : state) : SDeferred :=
  default unfired (heap w !! f).

(** [d.addBoth(cb)] / [d.addErrback(cb)]: run at once when [d] has
    already fired, queued otherwise. *)
Definition add_callback (f : nat) (cb : callback) : M state unit :=
  d <- gets (lookup_deferred f) ;;
  match sd_result d with
  | Some current =>
      r <- run_callback cb current ;;
      modify (λ w, set_heap (<[f := mkSDeferred (Some r) []]> (heap w)) w)
  | None =>
      modify (λ w, set_heap
        (<[f := mkSDeferred None (sd_callbacks d ++ [cb])]> (heap w)) w)
  end.

(** The method's [Deferred] fires: [d.callback(v)] or [d.errback(e)],
    called by the exposed object's own code. *)
Definition fire (f : nat) (outcome : dresult) : M state unit :=
  d <- gets (lookup_deferred f) ;;
  match sd_result d with
  | Some _ => raise (Exn AlreadyCalledError "")
  | None =>
      r <- run_callbacks (sd_callbacks d) outcome ;;
      modify (λ w, set_heap (<[f := mkSDeferred (Some r) []]> (heap w)) w)
  end.

(** [maybeDeferred(method_func, *args, **kwargs)] *)
Definition maybeDeferred (method : string)
    (method_func : list value → list (string * value) → O → O * returned)
    (args : list value) (kwargs : list (string * value))
    : M state result_deferred :=
  o <- gets factory_object ;;
  let '(o', out) := method_func args kwargs o in
  modify (λ w, set_invoked (invoked w ++ [(method, args, kwargs)])
                 (set_object o' w)) ;;;
  ret (match out with
       | Returns v => Fresh (Callback v)
       | Raises e => Fresh (Errback e)
       | ReturnsDeferred f => Held f
       end).

(** [result.called] and [result.result] *)
Definition deferred_result (result : result_deferred)
    : M state (option dresult) :=
  match result with
  | Fresh r => ret (Some r)
  | Held f => gets (λ w, sd_result (lookup_deferred f w))
  end.

Definition addCallbacks (result : result_deferred) (cb : callback)
    : M state unit :=
  match result with
  | Fresh _ => ret tt
  | Held f => add_callback f cb
  end.

Definition receive_method_call (method : string) (args : list value)
    (kwargs : list (string * value)) : M state MethodCallResponse :=
  ms <- gets methods ;;
  if negb (bool_decide (method ∈ ms))
  then raise (Exn MethodCallError ("Forbidden method '" +:+ method +:+ "'"))
  else
    match getattr method with
    | None => raise (Exn AttributeError method)
    | Some method_func =>
        result <- maybeDeferred method method_func args kwargs ;;
        current <- deferred_result result ;;
        match current with
        | Some (Errback f) =>
            addCallbacks result StopPropagating ;;;
            raise (Exn MethodCallError (exn_str f))
        | Some (Callback v) =>
            r <- _check_result v ;;
            ret (mkResponse r None)
        | None =>
            n <- gets uuids_drawn ;;
            modify (set_uuids_drawn (S n)) ;;;
            let uuid := uuid4 n in
            addCallbacks result (SendDeferredResponse uuid) ;;;
            ret (mkResponse VNone (Some uuid))
        end
    end.

(** The method's result is there when [receive_method_call] looks. *)
Definition resolves_to (out : returned) (w : state) (v : value) : Prop :=
  out = Returns v
  ∨ ∃ f, out = ReturnsDeferred f
         ∧ sd_result (lookup_deferred f w) = Some (Callback v).
End Exposed.

Arguments mkServer {O}.
Arguments methods {O}.
Arguments factory_object {O}.
Arguments heap {O}.
Arguments uuids_drawn {O}.
Arguments transport {O}.
Arguments invoked {O}.
Arguments set_object {O}.
Arguments set_heap {O}.
Arguments set_uuids_drawn {O}.
Arguments set_transport {O}.
Arguments set_invoked {O}.
Arguments lookup_deferred {O}.
Arguments _check_result dumps_table {O}.
Arguments callRemote {O}.
Arguments send_deferred_response dumps_table {O}.
Arguments run_callback dumps_table {O}.
Arguments run_callbacks dumps_table {O}.
Arguments add_callback dumps_table {O}.
Arguments fire dumps_table {O}.
Arguments maybeDeferred {O}.
Arguments deferred_result {O}.
Arguments addCallbacks dumps_table {O}.
Arguments receive_method_call dumps_table uuid4 {O}.
Arguments resolves_to {O}.
End MethodCallServerProtocol.

(** ** Lifting the Twisted primitives into the monad *)

Definition lift_either {W S} (get : W → S) (put : S → W → W)
    (f : S → exn + S) : M W unit :=
  λ w, match f (get w) with
       | inl e => (w, inl e)
       | inr s => (put s w, inr tt)
       end.

Definition lift_alloc {W S A} (get : W → S) (put : S → W → W)
    (f : S → A * S) : M W A :=
  λ w, let '(a, s) := f (get w) in (put s w, inr a).

(** [Deferred()] *)
Definition new_deferred (h : dheap) : nat * dheap := (length h, h ++ [None]).

(** ** MethodCallClientProtocol *)
Module MethodCallClientProtocol.

(** [callLater(self.timeout, self.fire_pending_response, uuid, None,
    "timeout")] *)
Inductive timer : Type := FirePendingResponse (uuid : string).

Record state : Type := mkClient {
  timeout : nat;
  _pending_responses : gmap string (nat * nat);
  deferreds : dheap;
  reactor : Clock timer
}.

Definition set_pending (p : gmap string (nat * nat)) (w : state) : state :=
  mkClient (timeout w) p (deferreds w) (reactor w).
Definition set_deferreds (h : dheap) (w : state) : state :=
  mkClient (timeout w) (_pending_responses w) h (reactor w).
Definition set_reactor (r : Clock timer) (w : state) : state :=
  mkClient (timeout w) (_pending_responses w) (deferreds w) r.

(** [__init__], with the class attribute [timeout] (60 by default). *)
Definition init (timeout : nat) : state :=
  mkClient timeout ∅ [] (mkClock 0 []).

Definition fire_pending_response (uuid : string) (result : value)
    (failure : option string) : M state unit :=
  pending <- gets _pending_responses ;;
  match pending !! uuid with
  | None => ret tt
  | Some (deferred, call) =>
      modify (set_pending (delete uuid pending)) ;;;
      was_called <- gets (λ w, called call (reactor w)) ;;
      (if negb was_called
       then lift_either reactor set_reactor (cancel call)
       else ret tt) ;;;
      match failure with
      | None =>
          lift_either deferreds set_deferreds
            (fire_deferred deferred
               (Callback (VDict [(VStr "result", result)])))
      | Some msg =>
          lift_either deferreds set_deferreds
            (fire_deferred deferred (Errback (Exn MethodCallError msg)))
      end
  end.

Definition receive_deferred_response (uuid : string)
    (result : option value) (failure : option string) : M state unit :=
  fire_pending_response uuid (default VNone result) failure.

(** Returns the new [Deferred], or the response itself. *)
Definition handle_response (response : MethodCallResponse)
    : M state (nat + MethodCallResponse) :=
  match mc_deferred response with
  | Some uuid =>
      if bool_decide (uuid = "") then ret (inr response)
      else
        deferred <- lift_alloc deferreds set_deferreds new_deferred ;;
        secs <- gets timeout ;;
        call <- lift_alloc reactor set_reactor
                  (callLater secs (FirePendingResponse uuid)) ;;
        modify (λ w, set_pending
                       (<[uuid := (deferred, call)]> (_pending_responses w)) w) ;;;
        ret (inl deferred)
  | None => ret (inr response)
  end.

(** The reactor runs one delayed call. *)
Definition run_call (c : nat) (w : state) : state :=
  match delayed (reactor w) !! c with
  | Some dc =>
      if dc_active dc then
        match dc_func dc with
        | FirePendingResponse uuid =>
            exec (fire_pending_response uuid VNone (Some "timeout"))
                 (set_reactor (mark_called c (reactor w)) w)
        end
      else w
  | None => w
  end.

(** [Clock.advance(dt)] *)
Definition advance (dt : nat) (w : state) : state :=
  let w1 := set_reactor (tick dt (reactor w)) w in
  foldl (λ w c, run_call c w) w1 (due (reactor w1)).

(** What can happen to a connected protocol. *)
Inductive event : Type :=
| Answer (response : MethodCallResponse)
| Box (box : DeferredResponse)
| Advance (dt : nat).

Definition step (w : state) (ev : event) : state :=
  match ev with
  | Answer response => exec (handle_response response) w
  | Box box =>
      exec (receive_deferred_response (dr_uuid box) (dr_result box)
              (dr_failure box)) w
  | Advance dt => advance dt w
  end.

Definition run (evs : list event) (w : state) : state := foldl step w evs.

(** Seconds that pass during a trace. *)
Definition elapsed (evs : list event) : nat :=
  sum_list ((λ ev, match ev with Advance dt => dt | _ => 0 end) <$> evs).

(** The trace neither answers a call with [uuid] again nor delivers a
    [DeferredResponse] for it. *)
Definition silent_on (uuid : string) (ev : event) : Prop :=
  match ev with
  | Answer response => mc_deferred response ≠ Some uuid
  | Box box => dr_uuid box ≠ uuid
  | Advance _ => True
  end.

(** The entry that ties [uuid] to the caller's [deferred]. *)
Definition has_entry (uuid : string) (deferred : nat) (w : state) : bool :=
  match _pending_responses w !! uuid with
  | Some (d, _) => bool_decide (d = deferred)
  | None => false
  end.

(** How many steps of the trace take that entry out of the table. *)
Fixpoint removals (uuid : string) (deferred : nat) (evs : list event)
    (w : state) : nat :=
  match evs with
  | [] => 0
  | ev :: rest =>
      (if has_entry uuid deferred w && negb (has_entry uuid deferred (step w ev))
       then 1 else 0) + removals uuid deferred rest (step w ev)
  end.

(** *** Predicates on protocol states *)

(** What the caller's [Deferred] is fired with. *)
Definition payload (result : value) (failure : option string) : dresult :=
  match failure with
  | None => Callback (VDict [(VStr "result", result)])
  | Some msg => Errback (Exn MethodCallError msg)
  end.

(** Every entry of the table names a [Deferred] and a delayed call that
    exist. *)
Definition wf (w : state) : Prop :=
  ∀ u d c, _pending_responses w !! u = Some (d, c) →
    d < length (deferreds w) ∧ c < length (delayed (reactor w)).

(** The entry for [u] is in the table, its [Deferred] has not fired and
    its timeout is scheduled for [deadline]; no other entry shares them. *)
Definition live (u : string) (d c deadline : nat) (w : state) : Prop :=
  wf w
  ∧ _pending_responses w !! u = Some (d, c)
  ∧ deferreds w !! d = Some None
  ∧ delayed (reactor w) !! c
    = Some (mkDelayedCall deadline (FirePendingResponse u) false false)
  ∧ (∀ u' d' c', _pending_responses w !! u' = Some (d', c') → u' ≠ u →
       d' ≠ d ∧ c' ≠ c).

(** The [Deferred] has fired with [x] and no entry names it any more. *)
Definition settled (d : nat) (x : dresult) (w : state) : Prop :=
  wf w
  ∧ deferreds w !! d = Some (Some x)
  ∧ (∀ u' d' c', _pending_responses w !! u' = Some (d', c') → d' ≠ d).

Definition timed_out : dresult := Errback (Exn MethodCallError "timeout").

Definition done_with (u : string) (d : nat) (w : state) : Prop :=
  settled d timed_out w ∧ _pending_responses w !! u = None.

(** The reactor advanced its clock at some point of the trace. *)
Definition advances (evs : list event) : Prop :=
  Exists (λ ev, ∃ dt, ev = Advance dt) evs.
End MethodCallClientProtocol.

(** ** RemoteObject *)
Module RemoteObject.

(** What the factory hands to a notifier: a newly connected protocol
    instance, or the connection failure when it gives up. *)
Inductive notification : Type :=
| Protocol (p : nat)
| GaveUp (reason : exn).

(** Why a transport went away. *)
Inductive transport_error : Type := Lost | Done.

Definition transport_failure (e : transport_error) : exn :=
  match e with
  | Lost => Exn ConnectionLost "Connection to the other side was lost in a non-clean fashion."
  | Done => Exn ConnectionDone "Connection was closed cleanly."
  end.

(** A value of [_pending_requests]: [(method, args, kwargs, call)]. *)
Record Request : Type := mkRequest {
  rq_method : string;
  rq_args : list value;
  rq_kwargs : list (string * value);
  rq_call : option nat
}.

(** The pair [addCallback(self._handle_response, deferred, call)],
    [addErrback(self._handle_failure, method, args, kwargs, deferred,
    call)] attached to the [Deferred] of a [MethodCall] in flight. *)
Record Handlers : Type := mkHandlers {
  h_method : string;
  h_args : list value;
  h_kwargs : list (string * value);
  h_deferred : nat;
  h_call : option nat
}.

(** [callLater(self._timeout, self._handle_failure, timeout, method,
    args, kwargs, deferred=deferred)] *)
Inductive timer : Type :=
| HandleFailureTimeout (method : string) (args : list value)
    (kwargs : list (string * value)) (deferred : nat).

Record state : Type := mkRemote {
  _protocol : notification;
  _retry_on_reconnect : bool;
  _timeout : option nat;
  _pending_requests : gmap nat Request;
  (** the [Deferred]s handed to callers *)
  deferreds : dheap;
  reactor : Clock timer;
  (** protocols whose transport is gone, with the reason *)
  lost : gmap nat transport_error;
  (** the [MethodCall]s sent so far, by tag; [Some] while in flight *)
  outstanding : list (option Handlers);
  (** the [MethodCall] boxes written, latest last *)
  sent : list (nat * string * list value * list (string * value))
}.

Definition set_protocol (p : notification) (w : state) : state :=
  mkRemote p (_retry_on_reconnect w) (_timeout w) (_pending_requests w)
    (deferreds w) (reactor w) (lost w) (outstanding w) (sent w).
Definition set_pending (t : gmap nat Request) (w : state) : state :=
  mkRemote (_protocol w) (_retry_on_reconnect w) (_timeout w) t
    (deferreds w) (reactor w) (lost w) (outstanding w) (sent w).
Definition set_deferreds (h : dheap) (w : state) : state :=
  mkRemote (_protocol w) (_retry_on_reconnect w) (_timeout w)
    (_pending_requests w) h (reactor w) (lost w) (outstanding w) (sent w).
Definition set_reactor (r : Clock timer) (w : state) : state :=
  mkRemote (_protocol w) (_retry_on_reconnect w) (_timeout w)
    (_pending_requests w) (deferreds w) r (lost w) (outstanding w) (sent w).
Definition set_lost (l : gmap nat transport_error) (w : state) : state :=
  mkRemote (_protocol w) (_retry_on_reconnect w) (_timeout w)
    (_pending_requests w) (deferreds w) (reactor w) l (outstanding w) (sent w).
Definition set_outstanding (o : list (option Handlers)) (w : state) : state :=
  mkRemote (_protocol w) (_retry_on_reconnect w) (_timeout w)
    (_pending_requests w) (deferreds w) (reactor w) (lost w) o (sent w).
Definition set_sent (s : list (nat * string * list value * list (string * value)))
    (w : state) : state :=
  mkRemote (_protocol w) (_retry_on_reconnect w) (_timeout w)
    (_pending_requests w) (deferreds w) (reactor w) (lost w) (outstanding w) s.

(** [__init__(protocol, retry_on_reconnect, timeout)] *)
Definition init (protocol : nat) (retry_on_reconnect : bool)
    (timeout : option nat) : state :=
  mkRemote (Protocol protocol) retry_on_reconnect timeout ∅ [] (mkClock 0 [])
    ∅ [] [].

Definition cancel_call (call : option nat) : M state unit :=
  match call with
  | Some c => lift_either reactor set_reactor (cancel c)
  | None => ret tt
  end.

Definition _handle_response (response : MethodCallResponse) (deferred : nat)
    (call : option nat) : M state unit :=
  let result := mc_result response in
  cancel_call call ;;;
  lift_either deferreds set_deferreds (fire_deferred deferred (Callback result)).

(** [Failure(MethodCallError("timeout"))] *)
Definition timeout_failure : exn := Exn MethodCallError "timeout".

Definition _handle_failure (failure : exn) (method : string)
    (args : list value) (kwargs : list (string * value)) (deferred : nat)
    (call : option nat) : M state unit :=
  retry <- gets _retry_on_reconnect ;;
  let is_method_call_error := bool_decide (exn_type failure = MethodCallError) in
  let dont_retry := negb retry in
  if is_method_call_error || dont_retry then
    pending <- gets _pending_requests ;;
    (if bool_decide (is_Some (pending !! deferred))
     then modify (set_pending (delete deferred pending))
     else ret tt) ;;;
    cancel_call call ;;;
    lift_either deferreds set_deferreds (fire_deferred deferred (Errback failure))
  else
    secs <- gets _timeout ;;
    call' <- match secs, call with
             | Some (S n), None =>
                 c <- lift_alloc reactor set_reactor
                        (callLater (S n)
                           (HandleFailureTimeout method args kwargs deferred)) ;;
                 ret (Some c)
             | _, _ => ret call
             end ;;
    modify (λ w, set_pending
              (<[deferred := mkRequest method args kwargs call']>
                 (_pending_requests w)) w).

(** What [self._protocol.send_method_call(...)] returns: a [Deferred]
    waiting for the answer to the box just written, or one that has
    already failed because the transport is gone. *)
Inductive send_result : Type :=
| InFlight (tag : nat)
| Failed (f : exn).

Definition send_method_call (method : string) (args : list value)
    (kwargs : list (string * value)) : M state send_result :=
  protocol <- gets _protocol ;;
  match protocol with
  | GaveUp _ => raise (Exn AttributeError "send_method_call")
  | Protocol p =>
      gone <- gets lost ;;
      match gone !! p with
      | Some reason => ret (Failed (transport_failure reason))
      | None =>
          tag <- gets (λ w, length (outstanding w)) ;;
          modify (λ w, set_sent (sent w ++ [(p, method, args, kwargs)])
                         (set_outstanding (outstanding w ++ [None]) w)) ;;;
          ret (InFlight tag)
      end
  end.

(** [result.addCallback(self._handle_response, ...)] followed by
    [result.addErrback(self._handle_failure, ...)]: on a [Deferred] that
    has already failed the errback runs at once. *)
Definition add_handlers (result : send_result) (h : Handlers) : M state unit :=
  match result with
  | InFlight tag =>
      modify (λ w, set_outstanding (<[tag := Some h]> (outstanding w)) w)
  | Failed f =>
      swallow (_handle_failure f (h_method h) (h_args h) (h_kwargs h)
                 (h_deferred h) (h_call h))
  end.

(** The function made by [__getattr__(method)], applied to [args] and
    [kwargs]; returns the caller's [Deferred]. *)
Definition call_method (method : string) (args : list value)
    (kwargs : list (string * value)) : M state nat :=
  result <- send_method_call method args kwargs ;;
  deferred <- lift_alloc deferreds set_deferreds new_deferred ;;
  add_handlers result (mkHandlers method args kwargs deferred None) ;;;
  ret deferred.

(** The [while requests: ... requests.popitem()] loop of [_retry]. *)
Fixpoint retry_loop (requests : list (nat * Request)) : M state unit :=
  match requests with
  | [] => ret tt
  | (deferred, rq) :: rest =>
      result <- send_method_call (rq_method rq) (rq_args rq) (rq_kwargs rq) ;;
      add_handlers result
        (mkHandlers (rq_method rq) (rq_args rq) (rq_kwargs rq) deferred
           (rq_call rq)) ;;;
      retry_loop rest
  end.

Definition _retry : M state unit :=
  requests <- gets _pending_requests ;;
  modify (set_pending ∅) ;;;
  retry_loop (map_to_list requests).

Definition _handle_reconnect (protocol : notification) : M state unit :=
  modify (set_protocol protocol) ;;;
  retry <- gets _retry_on_reconnect ;;
  if retry then _retry else ret tt.

(** The reactor runs one delayed call. *)
Definition run_call (c : nat) (w : state) : state :=
  match delayed (reactor w) !! c with
  | Some dc =>
      if dc_active dc then
        match dc_func dc with
        | HandleFailureTimeout method args kwargs deferred =>
            exec (_handle_failure timeout_failure method args kwargs deferred
                    None)
                 (set_reactor (mark_called c (reactor w)) w)
        end
      else w
  | None => w
  end.

Definition advance (dt : nat) (w : state) : state :=
  let w1 := set_reactor (tick dt (reactor w)) w in
  foldl (λ w c, run_call c w) w1 (due (reactor w1)).

(** The [Deferred] of the [MethodCall] with this tag fires. *)
Definition complete (tag : nat) (k : Handlers → M state unit) (w : state)
    : state :=
  match outstanding w !! tag with
  | Some (Some h) =>
      exec (k h) (set_outstanding (<[tag := None]> (outstanding w)) w)
  | _ => w
  end.

(** The [Deferred] of a [MethodCall] succeeds: [_handle_response] runs,
    and what it raises goes to [_handle_failure], the errback added after
    it on the same [Deferred]. *)
Definition on_answer (response : MethodCallResponse) (h : Handlers)
    : M state unit :=
  λ w, match _handle_response response (h_deferred h) (h_call h) w with
       | (w', inl e) =>
           _handle_failure e (h_method h) (h_args h) (h_kwargs h)
             (h_deferred h) (h_call h) w'
       | (w', inr _) => (w', inr tt)
       end.

Inductive event : Type :=
| Call (method : string) (args : list value) (kwargs : list (string * value))
| Answer (tag : nat) (response : MethodCallResponse)
| Fails (tag : nat) (failure : exn)
| Notify (protocol : notification)
| TransportGone (p : nat) (reason : transport_error)
| Advance (dt : nat).

Definition step (w : state) (ev : event) : state :=
  match ev with
  | Call method args kwargs => exec (call_method method args kwargs) w
  | Answer tag response => complete tag (on_answer response) w
  | Fails tag failure =>
      complete tag
        (λ h, _handle_failure failure (h_method h) (h_args h) (h_kwargs h)
                (h_deferred h) (h_call h)) w
  | Notify protocol => exec (_handle_reconnect protocol) w
  | TransportGone p reason => set_lost (<[p := reason]> (lost w)) w
  | Advance dt => advance dt w
  end.

Definition run (evs : list event) (w : state) : state := foldl step w evs.


(** *** Views and predicates on proxy states *)

(** The handlers [_retry] attaches for an entry of the table, and the
    box it writes. *)
Definition handlers_of (e : nat * Request) : Handlers :=
  mkHandlers (rq_method e.2) (rq_args e.2) (rq_kwargs e.2) e.1 (rq_call e.2).
Definition box_of (p : nat) (e : nat * Request)
    : nat * string * list value * list (string * value) :=
  (p, rq_method e.2, rq_args e.2, rq_kwargs e.2).

(** [self._pending_requests[deferred] = request] *)
Definition put_back (t : gmap nat Request) (e : nat * Request)
    : gmap nat Request := <[e.1 := e.2]> t.

(** Nothing is waiting for a reconnection. *)
Definition quiet (w : state) : Prop :=
  _retry_on_reconnect w = false ∧ _pending_requests w = ∅.


End RemoteObject.

(** ** The codec on the wire *)
Module Wire.
Section Codec.
(** Encoded byte strings, and [MethodCallArgument.toString] /
    [MethodCallArgument.fromString], which are bpickle's [dumps] and
    [loads]; [None] stands for the [ValueError] they raise. *)
Variable bytes : Type.
Variable dumps : value → option bytes.
Variable loads : bytes → option value.

(** The answer box of a [MethodCall] as AMP writes it. *)
Record AnswerBox : Type := mkAnswerBox {
  box_result : bytes;
  box_deferred : option string
}.

Definition serialize (response : MethodCallResponse) : option AnswerBox :=
  b ← dumps (mc_result response); Some (mkAnswerBox b (mc_deferred response)).

Definition parse (box : AnswerBox) : option MethodCallResponse :=
  v ← loads (box_result box); Some (mkResponse v (box_deferred box)).
End Codec.
End Wire.

(** ** A small deployment on which the model can be run *)
Module Demo.
(** The types bpickle registers a dump function for. *)
Definition dumps_table : list pytype :=
  [TBool; TInt; TLong; TFloat; TStr; TUnicode; TList; TTuple; TDict;
   TNoneType].

Fixpoint tally (n : nat) : string :=
  match n with
  | 0 => ""
  | S n => String (Ascii.Ascii true false false true false false true false) (tally n)
  end.

(** A collision-free stand-in for the random source. *)
Definition uuid4 (n : nat) : string := "uuid-" +:+ tally n.

(** An instance of a class bpickle knows nothing about. *)
Definition thing : value := VInstance "Thing" TObject VNone.

(** The exposed object counts the calls made on it; [slow] hands out a
    new [Deferred] on each call. *)
Definition getattr (name : string)
    : option (list value → list (string * value) → nat → nat * returned) :=
  if bool_decide (name = "echo") then
    Some (λ args _ n,
            (S n, match args with
                  | [x] => Returns x
                  | _ => Raises (Exn (OtherError "TypeError")
                                   "echo() takes exactly 1 argument")
                  end))
  else if bool_decide (name = "slow") then
    Some (λ _ _ n, (S n, ReturnsDeferred n))
  else if bool_decide (name = "bad") then
    Some (λ _ _ n, (S n, Returns thing))
  else if bool_decide (name = "secret") then
    Some (λ _ _ n, (S n, Returns (VStr "hidden")))
  else None.

Definition server : MethodCallServerProtocol.state nat :=
  MethodCallServerProtocol.mkServer ["echo"; "slow"; "bad"] 0 ∅ 0 [] [].

Definition receive_method_call :=
  MethodCallServerProtocol.receive_method_call dumps_table uuid4 getattr.
Definition fire := @MethodCallServerProtocol.fire dumps_table nat.

(** A codec that writes a value as itself. *)
Definition dumps (v : value) : option value := Some v.
Definition loads (b : value) : option value := Some b.

(** A proxy with retry and a five-second timeout whose first call found the
    transport gone: the request is stored and its timeout is scheduled. *)
Definition waiting_proxy : RemoteObject.state :=
  RemoteObject.run
    [RemoteObject.TransportGone 0 RemoteObject.Lost;
     RemoteObject.Call "ping" [] []]
    (RemoteObject.init 0 true (Some 5)).

End Demo.

(** ** One connection to the server, over time *)
Module ServerConnection.
Import MethodCallServerProtocol.
Section Exposed.
Variable dumps_table : list pytype.
Variable uuid4 : nat → string.
Variable O : Type.
Variable getattr :
  string → option (list value → list (string * value) → O → O * returned).

(** A protocol instance of a subclass with the given [methods], built by
    [MethodCallServerFactory(object)]: nothing drawn, written or invoked. *)
Definition init (methods : list string) (object : O) : state O :=
  mkServer methods object ∅ 0 [] [].

(** What happens on a connection: a [MethodCall] command arrives, or the
    code of the exposed object fires a [Deferred] of its own. *)
Inductive event : Type :=
| Command (method : string) (args : list value) (kwargs : list (string * value))
| Fires (f : nat) (outcome : dresult).

Definition step (w : state O) (ev : event) : state O :=
  match ev with
  | Command method args kwargs =>
      exec (receive_method_call dumps_table uuid4 getattr method args kwargs) w
  | Fires f outcome => exec (fire dumps_table f outcome) w
  end.

Definition run (evs : list event) (w : state O) : state O := foldl step w evs.

(** The answers to the commands of a trace, in order: the response of
    [receive_method_call], or the exception it raised. *)
Fixpoint answers (evs : list event) (w : state O)
    : list (exn + MethodCallResponse) :=
  match evs with
  | [] => []
  | ev :: rest =>
      match ev with
      | Command method args kwargs =>
          [snd (receive_method_call dumps_table uuid4 getattr method args
                  kwargs w)]
      | Fires _ _ => []
      end ++ answers rest (step w ev)
  end.

(** The correlation identifiers handed out in those answers. *)
Definition deferred_of (a : exn + MethodCallResponse) : option string :=
  match a with
  | inr response => mc_deferred response
  | inl _ => None
  end.

(** The calls a trace is to make on the exposed object: the commands for a
    method that is listed and that the object has. *)
Definition dispatched (methods : list string) (ev : event)
    : option (string * list value * list (string * value)) :=
  match ev with
  | Command method args kwargs =>
      if bool_decide (method ∈ methods) && bool_decide (is_Some (getattr method))
      then Some (method, args, kwargs) else None
  | Fires _ _ => None
  end.

(** The method's failure is there when [receive_method_call] looks: it
    raised, or it returned a [Deferred] that has already failed. *)
Definition fails_with (out : returned) (w : state O) (e : exn) : Prop :=
  out = Raises e
  ∨ ∃ f, out = ReturnsDeferred f
         ∧ sd_result (lookup_deferred f w) = Some (Errback e).

(** A [DeferredResponse] as [send_deferred_response] means to build it:
    a result that [check] accepts and no failure, or a failure and no
    result. *)
Definition well_formed (box : DeferredResponse) : Prop :=
  match dr_result box, dr_failure box with
  | Some v, None => check dumps_table v = true
  | None, Some _ => True
  | _, _ => False
  end.

(** The identifier a queued callback will answer for. *)
Definition callback_uuid (cb : callback) : option string :=
  match cb with
  | SendDeferredResponse uuid => Some uuid
  | StopPropagating => None
  end.

(** The identifiers that the callbacks queued on a [Deferred] will answer
    for, in order. *)
Definition queued (d : SDeferred) : list string :=
  omap callback_uuid (sd_callbacks d).

(** The books of a connection: every identifier queued or written has
    been drawn, no identifier is queued twice, on one [Deferred] or on two,
    none is both queued and written, and none is written twice. *)
Definition accounted (h : gmap nat SDeferred) (n : nat)
    (t : list DeferredResponse) : Prop :=
  (∀ f d u, h !! f = Some d → u ∈ queued d → ∃ i, i < n ∧ u = uuid4 i)
  ∧ (∀ f d, h !! f = Some d → NoDup (queued d))
  ∧ (∀ f1 f2 d1 d2 u, f1 ≠ f2 → h !! f1 = Some d1 → h !! f2 = Some d2 →
       u ∈ queued d1 → u ∉ queued d2)
  ∧ (∀ f d u, h !! f = Some d → u ∈ queued d → u ∉ dr_uuid <$> t)
  ∧ NoDup (dr_uuid <$> t)
  ∧ (∀ box, box ∈ t → ∃ i, i < n ∧ dr_uuid box = uuid4 i).
End Exposed.

Arguments init {O}.
Arguments event : clear implicits.
Arguments step dumps_table uuid4 {O} getattr.
Arguments run dumps_table uuid4 {O} getattr.
Arguments answers dumps_table uuid4 {O} getattr.
Arguments dispatched {O} getattr.
Arguments fails_with {O}.
End ServerConnection.

(** ** The exceptions a client connection lets out *)
Module ClientConnection.
Import MethodCallClientProtocol.

(** The exception a handler raises in a given state, if it raises. *)
Definition raised {A} (m : M state A) (w : state) : option exn :=
  match snd (m w) with
  | inl e => Some e
  | inr _ => None
  end.

(** The same for one delayed call run by the reactor, along [run_call]. *)
Definition run_call_raised (c : nat) (w : state) : option exn :=
  match delayed (reactor w) !! c with
  | Some dc =>
      if dc_active dc then
        match dc_func dc with
        | FirePendingResponse uuid =>
            raised (fire_pending_response uuid VNone (Some "timeout"))
                   (set_reactor (mark_called c (reactor w)) w)
        end
      else None
  | None => None
  end.

Fixpoint run_calls_raised (calls : list nat) (w : state) : list exn :=
  match calls with
  | [] => []
  | c :: rest =>
      option_list (run_call_raised c w) ++ run_calls_raised rest (run_call c w)
  end.

(** The exceptions raised during one step of a trace, along [step]. *)
Definition step_raised (w : state) (ev : event) : list exn :=
  match ev with
  | Answer response => option_list (raised (handle_response response) w)
  | Box box =>
      option_list
        (raised (receive_deferred_response (dr_uuid box) (dr_result box)
                   (dr_failure box)) w)
  | Advance dt =>
      let w1 := set_reactor (tick dt (reactor w)) w in
      run_calls_raised (due (reactor w1)) w1
  end.

(** Every exception raised by a responder or a timeout along a trace. *)
Fixpoint errors (evs : list event) (w : state) : list exn :=
  match evs with
  | [] => []
  | ev :: rest => step_raised w ev ++ errors rest (step w ev)
  end.

(** Every entry of the table has a [Deferred] that has not fired and a
    timeout that is still pending, made for the same uuid and due within
    [timeout] seconds; two entries never share a [Deferred]. *)
Definition sound (w : state) : Prop :=
  wf w
  ∧ (∀ u d c, _pending_responses w !! u = Some (d, c) →
       deferreds w !! d = Some None
       ∧ ∃ t, delayed (reactor w) !! c
              = Some (mkDelayedCall t (FirePendingResponse u) false false)
              ∧ t ≤ rightNow (reactor w) + timeout w)
  ∧ (∀ u u' d d' c c',
       _pending_responses w !! u = Some (d, c) →
       _pending_responses w !! u' = Some (d', c') → u ≠ u' → d ≠ d').

(** What each delayed call of the reactor was made to do. *)
Definition bindings (w : state) : list timer := dc_func <$> delayed (reactor w).

(** [u] has no entry and no delayed call was made for it. *)
Definition unused (u : string) (w : state) : Prop :=
  _pending_responses w !! u = None ∧ FirePendingResponse u ∉ bindings w.

(** The delayed call [c] is the only one made for [u]. *)
Definition sole (u : string) (c : nat) (w : state) : Prop :=
  ∀ c', bindings w !! c' = Some (FirePendingResponse u) → c' = c.
End ClientConnection.

(** ** [DeferredResponse] on the wire *)
Module DeferredWire.
Section Codec.
Variable bytes : Type.
Variable dumps : value → option bytes.
Variable loads : bytes → option value.

(** The box of a [DeferredResponse] command as AMP writes it: [result]
    and [failure] are optional arguments, left out of the box when their
    value is [None]. *)
Record DeferredBox : Type := mkDeferredBox {
  box_uuid : string;
  box_result : option bytes;
  box_failure : option string
}.

Definition serialize (box : DeferredResponse) : option DeferredBox :=
  match dr_result box with
  | None | Some VNone =>
      Some (mkDeferredBox (dr_uuid box) None (dr_failure box))
  | Some v =>
      b ← dumps v; Some (mkDeferredBox (dr_uuid box) (Some b) (dr_failure box))
  end.

Definition parse (box : DeferredBox) : option DeferredResponse :=
  match box_result box with
  | None => Some (mkDeferredResponse (box_uuid box) None (box_failure box))
  | Some b =>
      v ← loads b;
      Some (mkDeferredResponse (box_uuid box) (Some v) (box_failure box))
  end.
End Codec.
End DeferredWire.

(** ** From the client protocol's [Deferred] to the proxy's callbacks *)
Module Chain.

End Chain.

(** ** MethodCallClientFactory *)
Module MethodCallClientFactory.
Import RemoteObject.
Section Notifiers.
(** The callables registered as notifiers; [list.remove] compares them
    with [==]. *)
Context {N : Type} `{EqDecision N}.

Record state : Type := mkFactory {
  _notifiers : list N;
  (** the delayed calls made by [fire_notifiers]: a notifier and what it
      will be passed *)
  reactor : Clock (N * notification);
  (** inherited from [ReconnectingClientFactory] *)
  maxRetries : option nat;
  retries : nat;
  continueTrying : bool;
  (** the protocol instances built so far *)
  built : nat
}.

Definition set_notifiers (l : list N) (w : state) : state :=
  mkFactory l (reactor w) (maxRetries w) (retries w) (continueTrying w) (built w).
Definition set_reactor (r : Clock (N * notification)) (w : state) : state :=
  mkFactory (_notifiers w) r (maxRetries w) (retries w) (continueTrying w)
    (built w).
Definition set_maxRetries (m : option nat) (w : state) : state :=
  mkFactory (_notifiers w) (reactor w) m (retries w) (continueTrying w) (built w).
Definition set_retries (n : nat) (w : state) : state :=
  mkFactory (_notifiers w) (reactor w) (maxRetries w) n (continueTrying w)
    (built w).
Definition set_continueTrying (b : bool) (w : state) : state :=
  mkFactory (_notifiers w) (reactor w) (maxRetries w) (retries w) b (built w).
Definition set_built (n : nat) (w : state) : state :=
  mkFactory (_notifiers w) (reactor w) (maxRetries w) (retries w)
    (continueTrying w) n.

(** [__init__(reactor)], with the class attributes of
    [ReconnectingClientFactory]. *)
Definition init : state := mkFactory [] (mkClock 0 []) None 0 true 0.

Definition add_notifier (notifier : N) : M state unit :=
  modify (λ w, set_notifiers (_notifiers w ++ [notifier]) w).

(** [list.remove(x)]: the list without the first item equal to [x];
    [None] stands for the [ValueError] raised when there is none. *)
Fixpoint list_remove (x : N) (l : list N) : option (list N) :=
  match l with
  | [] => None
  | y :: rest =>
      if decide (y = x) then Some rest else cons y <$> list_remove x rest
  end.

Definition remove_notifier (notifier : N) : M state unit :=
  l <- gets _notifiers ;;
  match list_remove notifier l with
  | Some l' => modify (set_notifiers l')
  | None => raise (Exn (OtherError "ValueError") "list.remove(x): x not in list")
  end.

(** [for notifier in ...: self.reactor.callLater(0, notifier, *args)] *)
Fixpoint call_each_later (l : list N) (arg : notification) : M state unit :=
  match l with
  | [] => ret tt
  | notifier :: rest =>
      lift_alloc reactor set_reactor (callLater 0 (notifier, arg)) ;;;
      call_each_later rest arg
  end.

Definition fire_notifiers (arg : notification) : M state unit :=
  l <- gets _notifiers ;; call_each_later l arg.

(** [ReconnectingClientFactory.clientConnectionFailed]: while the factory
    keeps trying, [retry()] counts the attempt; the reconnection it
    schedules comes back as a later [buildProtocol] or
    [clientConnectionFailed]. *)
Definition retry : M state unit :=
  trying <- gets continueTrying ;;
  if trying then modify (λ w, set_retries (S (retries w)) w) else ret tt.

Definition clientConnectionFailed (reason : exn) : M state unit :=
  retry ;;;
  limit <- gets maxRetries ;;
  count <- gets retries ;;
  match limit with
  | Some m =>
      if bool_decide (m < count) then fire_notifiers (GaveUp reason) else ret tt
  | None => ret tt
  end.

(** [ReconnectingClientFactory.resetDelay] *)
Definition resetDelay : M state unit :=
  modify (λ w, set_continueTrying true (set_retries 0 w)).

(** Returns the new protocol instance. *)
Definition buildProtocol : M state nat :=
  resetDelay ;;;
  protocol <- gets built ;;
  modify (set_built (S protocol)) ;;;
  fire_notifiers (Protocol protocol) ;;;
  ret protocol.
End Notifiers.
Arguments state N : clear implicits.
End MethodCallClientFactory.

(** ** RemoteObjectCreator *)
Module RemoteObjectCreator.
Import RemoteObject.

(** The notifiers this module registers: the creator's [_done] and the
    [_handle_reconnect] of a [RemoteObject]. *)
Inductive notifier : Type :=
| Done
| HandleReconnect (remote : nat).

Global Instance notifier_eq_dec : EqDecision notifier.
Proof. solve_decision. Defined.

(** A [RemoteObject] as [_done] builds it:
    [self.remote(result, *self._args, **self._kwargs)]. *)
Record Remote : Type := mkRemoteObject {
  r_protocol : nat;
  r_retry_on_reconnect : bool;
  r_timeout : option nat
}.

(** Its state when the constructor returns. *)
Definition remote_state (r : Remote) : RemoteObject.state :=
  RemoteObject.init (r_protocol r) (r_retry_on_reconnect r) (r_timeout r).

(** The creator after [connect()], with the factory and the proxies it
    made. *)
Record state : Type := mkCreator {
  _args : bool * option nat;
  _factory : MethodCallClientFactory.state notifier;
  (** the [Deferred] that [connect()] returned: [None] until it fires,
      then the failure or the proxy it fired with *)
  _connected : option (exn + nat);
  _remote : option nat;
  remotes : list Remote;
  (** the calls of [_handle_reconnect] made so far, latest last *)
  notified : list (nat * notification)
}.

Definition set_factory (f : MethodCallClientFactory.state notifier) (w : state)
    : state :=
  mkCreator (_args w) f (_connected w) (_remote w) (remotes w) (notified w).
Definition set_connected (d : option (exn + nat)) (w : state) : state :=
  mkCreator (_args w) (_factory w) d (_remote w) (remotes w) (notified w).
Definition set_remote (r : option nat) (w : state) : state :=
  mkCreator (_args w) (_factory w) (_connected w) r (remotes w) (notified w).
Definition set_remotes (l : list Remote) (w : state) : state :=
  mkCreator (_args w) (_factory w) (_connected w) (_remote w) l (notified w).
Definition set_notified (l : list (nat * notification)) (w : state) : state :=
  mkCreator (_args w) (_factory w) (_connected w) (_remote w) (remotes w) l.

(** A method of the factory, called through [self._factory]. *)
Definition on_factory {A} (m : M (MethodCallClientFactory.state notifier) A)
    : M state A :=
  λ w, let '(f, r) := m (_factory w) in (set_factory f w, r).

(** [connect(max_retries)] on a creator made with
    [RemoteObjectCreator(reactor, socket_path, retry_on_reconnect, timeout)]:
    the state when it returns [self._connected]. *)
Definition connect (retry_on_reconnect : bool) (timeout : option nat)
    (max_retries : option nat) : state :=
  mkCreator (retry_on_reconnect, timeout)
    (exec (MethodCallClientFactory.add_notifier Done)
       (MethodCallClientFactory.set_maxRetries max_retries
          MethodCallClientFactory.init))
    None None [] [].

(** [self._connected.callback(...)] / [self._connected.errback(...)] *)
Definition fire_connected (x : exn + nat) : M state unit :=
  d <- gets _connected ;;
  match d with
  | Some _ => raise (Exn AlreadyCalledError "")
  | None => modify (set_connected (Some x))
  end.

(** [RemoteObject(protocol, *args, **kwargs)]: the constructor registers
    the new proxy's [_handle_reconnect] with the factory of [protocol]. *)
Definition new_remote (protocol : nat) : M state nat :=
  args <- gets _args ;;
  r <- gets (λ w, length (remotes w)) ;;
  modify (λ w, set_remotes (remotes w ++ [mkRemoteObject protocol args.1 args.2]) w) ;;;
  on_factory (MethodCallClientFactory.add_notifier (HandleReconnect r)) ;;;
  ret r.

Definition _done (result : notification) : M state unit :=
  on_factory (MethodCallClientFactory.remove_notifier Done) ;;;
  match result with
  | GaveUp reason => fire_connected (inl reason)
  | Protocol protocol =>
      r <- new_remote protocol ;;
      modify (set_remote (Some r)) ;;;
      fire_connected (inr r)
  end.

(** What a delayed call made by [fire_notifiers] does when it runs. *)
Definition notify (call : notifier * notification) : M state unit :=
  match call.1 with
  | Done => _done call.2
  | HandleReconnect r => modify (λ w, set_notified (notified w ++ [(r, call.2)]) w)
  end.

(** The reactor runs one delayed call; every call here was made with a
    delay of 0, so any pending call may be the next to run. *)
Definition run_call_m (c : nat) : M state unit :=
  calls <- gets (λ w, delayed (MethodCallClientFactory.reactor (_factory w))) ;;
  match calls !! c with
  | Some dc =>
      if dc_active dc then
        on_factory (modify (λ f, MethodCallClientFactory.set_reactor
                              (mark_called c (MethodCallClientFactory.reactor f)) f)) ;;;
        notify (dc_func dc)
      else ret tt
  | None => ret tt
  end.

(** What can happen once [connect()] has returned: the connection is
    made, an attempt fails, the reactor runs a delayed call. *)
Inductive event : Type :=
| Built
| Failed (reason : exn)
| Run (c : nat).

Definition handler (ev : event) : M state unit :=
  match ev with
  | Built => on_factory MethodCallClientFactory.buildProtocol ;;; ret tt
  | Failed reason => on_factory (MethodCallClientFactory.clientConnectionFailed reason)
  | Run c => run_call_m c
  end.

Definition step (w : state) (ev : event) : state := exec (handler ev) w.
Definition run (evs : list event) (w : state) : state := foldl step w evs.

(** The exceptions that the handlers of a trace let out. *)
Fixpoint errors (evs : list event) (w : state) : list exn :=
  match evs with
  | [] => []
  | ev :: rest =>
      match snd (handler ev w) with
      | inl e => [e]
      | inr _ => []
      end ++ errors rest (step w ev)
  end.

(** The three shapes of a creator. *)
Inductive shape : Type :=
| Connecting
| Connected (protocol : nat)
| GivenUp (reason : exn).

Definition has_shape (s : shape) (w : state) : Prop :=
  match s with
  | Connecting =>
      _connected w = None ∧ _remote w = None ∧ remotes w = []
      ∧ MethodCallClientFactory._notifiers (_factory w) = [Done]
      ∧ notified w = []
  | Connected protocol =>
      _connected w = Some (inr 0) ∧ _remote w = Some 0
      ∧ remotes w = [mkRemoteObject protocol (_args w).1 (_args w).2]
      ∧ MethodCallClientFactory._notifiers (_factory w) = [HandleReconnect 0]
  | GivenUp reason =>
      _connected w = Some (inl reason) ∧ _remote w = None ∧ remotes w = []
      ∧ MethodCallClientFactory._notifiers (_factory w) = []
      ∧ notified w = []
  end.


(** The exception of [list.remove]. *)
Definition value_error : exn :=
  Exn (OtherError "ValueError") "list.remove(x): x not in list".
End RemoteObjectCreator.

(** * Verification *)

(** ** Proof automation *)

Ltac unfold_m :=
  unfold bind, ret, raise, gets, modify, swallow, exec, lift_either, lift_alloc in *.

Ltac unfold_server :=
  cbv [bind ret raise gets modify swallow exec lift_either lift_alloc
       MethodCallServerProtocol.set_object MethodCallServerProtocol.set_heap
       MethodCallServerProtocol.set_uuids_drawn
       MethodCallServerProtocol.set_transport
       MethodCallServerProtocol.set_invoked
       MethodCallServerProtocol.methods MethodCallServerProtocol.factory_object
       MethodCallServerProtocol.heap MethodCallServerProtocol.uuids_drawn
       MethodCallServerProtocol.transport MethodCallServerProtocol.invoked
       MethodCallServerProtocol.lookup_deferred
       MethodCallServerProtocol.receive_method_call
       MethodCallServerProtocol.maybeDeferred
       MethodCallServerProtocol.deferred_result
       MethodCallServerProtocol.addCallbacks
       MethodCallServerProtocol.add_callback
       MethodCallServerProtocol.fire
       MethodCallServerProtocol.run_callbacks
       MethodCallServerProtocol.run_callback
       MethodCallServerProtocol.send_deferred_response
       MethodCallServerProtocol._check_result
       MethodCallServerProtocol.callRemote
       fst snd] in *.

(** Symbolic execution of a handler: unfold, rewrite with the equations at
    hand, split on the next test. *)
Ltac break_match :=
  match goal with
  | |- context [match ?x with _ => _ end] =>
      lazymatch x with
      | context [match _ with _ => _ end] => fail
      | _ => destruct x eqn:?
      end
  end.

Ltac rew_hyps :=
  match goal with
  | E : ?x = ?v |- context [?x] =>
      first [ is_var x; fail 1 | rewrite E ]
  end.

Tactic Notation "sym_exec" tactic3(unfolding) :=
  repeat first [ progress unfolding | rew_hyps | break_match ].

(** Reactor primitives *)
(** ** The server protocol *)

Section ServerProofs.
Import MethodCallServerProtocol.
Context (dumps_table : list pytype) (uuid4 : nat → string) (O : Type)
  (getattr : string → option (list value → list (string * value) → O → O * returned)).

Lemma check_spec v : check dumps_table v = true ↔ type_of v ∈ dumps_table.
Proof. unfold check. apply bool_decide_eq_true. Qed.

Lemma send_ok (w : state O) uuid v :
  check dumps_table v = true →
  send_deferred_response dumps_table (Callback v) uuid w
  = (set_transport (transport w ++ [mkDeferredResponse uuid (Some v) None]) w,
     inr VNone).
Proof.
  intros Hc. unfold send_deferred_response, _check_result, callRemote.
  rewrite Hc. reflexivity.
Qed.

Lemma send_failure (w : state O) uuid e :
  send_deferred_response dumps_table (Errback e) uuid w
  = (set_transport
       (transport w ++ [mkDeferredResponse uuid None (Some (exn_str e))]) w,
     inr VNone).
Proof. reflexivity. Qed.

Lemma send_bad (w : state O) uuid v :
  check dumps_table v = false →
  send_deferred_response dumps_table (Callback v) uuid w
  = (w, inl (Exn MethodCallError "Non-serializable result")).
Proof.
  intros Hc. unfold send_deferred_response, _check_result.
  rewrite Hc. reflexivity.
Qed.

(** Firing a [Deferred] whose only callback is [send_deferred_response]. *)
Lemma fire_single (w : state O) f uuid out :
  lookup_deferred f w = mkSDeferred None [SendDeferredResponse uuid] →
  exec (fire dumps_table f out) w
  = let w' := exec (send_deferred_response dumps_table out uuid) w in
    set_heap (<[f := mkSDeferred
                      (Some (match snd (send_deferred_response dumps_table out uuid w) with
                             | inr v => Callback v
                             | inl e => Errback e
                             end)) []]> (heap w')) w'.
Proof.
  intros Hl. unfold fire. unfold_m. rewrite Hl. simpl. unfold_m.
  destruct (send_deferred_response dumps_table out uuid w) as [w' [e|v]]; reflexivity.
Qed.

(** C7.  A [MethodCall] for a method name that is not in [methods] fails
    with [MethodCallError("Forbidden method '<name>'")]; the protocol state
    is left as it was, so nothing is invoked on the exposed object: the log
    of invocations and the object's state are unchanged. *)
Theorem forbidden_method_rejected (w : state O) method args kwargs :
  method ∉ methods w →
  receive_method_call dumps_table uuid4 getattr method args kwargs w
  = (w, inl (Exn MethodCallError ("Forbidden method '" +:+ method +:+ "'")))
  ∧ invoked (exec (receive_method_call dumps_table uuid4 getattr method args kwargs) w) = invoked w
  ∧ factory_object (exec (receive_method_call dumps_table uuid4 getattr method args kwargs) w) = factory_object w.
Proof.
  intros Hm.
  assert (receive_method_call dumps_table uuid4 getattr method args kwargs w
  = (w, inl (Exn MethodCallError ("Forbidden method '" +:+ method +:+ "'")))) as E.
  { unfold receive_method_call. unfold_m.
    rewrite bool_decide_eq_false_2 by done. reflexivity. }
  unfold exec. rewrite E. done.
Qed.

(** What [receive_method_call] does for a method that is listed and that
    the object has, by what the method comes to. *)
Lemma receive_allowed (w : state O) method args kwargs method_func :
  method ∈ methods w → getattr method = Some method_func →
  receive_method_call dumps_table uuid4 getattr method args kwargs w
  = let o' := (method_func args kwargs (factory_object w)).1 in
    let w1 := set_invoked (invoked w ++ [(method, args, kwargs)])
                (set_object o' w) in
    let now v :=
      if check dumps_table v then (w1, inr (mkResponse v None))
      else (w1, inl (Exn MethodCallError "Non-serializable result")) in
    match (method_func args kwargs (factory_object w)).2 with
    | Returns v => now v
    | Raises e => (w1, inl (Exn MethodCallError (exn_str e)))
    | ReturnsDeferred f =>
        match sd_result (lookup_deferred f w) with
        | Some (Callback v) => now v
        | Some (Errback e) =>
            (set_heap (<[f := mkSDeferred (Some (Callback VNone)) []]> (heap w)) w1,
             inl (Exn MethodCallError (exn_str e)))
        | None =>
            (set_heap (<[f := mkSDeferred None
                               (sd_callbacks (lookup_deferred f w)
                                ++ [SendDeferredResponse (uuid4 (uuids_drawn w))])]>
                         (heap w))
               (set_uuids_drawn (S (uuids_drawn w)) w1),
             inr (mkResponse VNone (Some (uuid4 (uuids_drawn w)))))
        end
    end.
Proof.
  intros Hm Hg. destruct w as [ms o h n t i]. cbn in Hm.
  assert (bool_decide (method ∈ ms) = true) as Hb by by apply bool_decide_eq_true_2.
  cbn zeta. cbn [factory_object].
  destruct (method_func args kwargs o) as [o' out] eqn:Hf. cbn [fst snd].
  destruct out as [v|e|f].
  - destruct (check dumps_table v) eqn:Hc;
      repeat first [ rewrite Hb | rewrite Hg | rewrite Hf | rewrite Hc
                   | progress unfold_server | progress cbn [negb] ];
      reflexivity.
  - repeat first [ rewrite Hb | rewrite Hg | rewrite Hf
                 | progress unfold_server | progress cbn [negb] ];
      reflexivity.
  - unfold lookup_deferred. cbn [heap].
    destruct (sd_result (default unfired (h !! f))) as [[v|e]|] eqn:Hr.
    + destruct (check dumps_table v) eqn:Hc;
        repeat first [ rewrite Hb | rewrite Hg | rewrite Hf | rewrite Hc | rewrite Hr
                     | progress unfold_server | progress cbn [negb] ];
        reflexivity.
    + repeat first [ rewrite Hb | rewrite Hg | rewrite Hf | rewrite Hr
                   | progress unfold_server | progress cbn [negb] ];
        reflexivity.
    + repeat first [ rewrite Hb | rewrite Hg | rewrite Hf | rewrite Hr
                   | progress unfold_server | progress cbn [negb] ];
        reflexivity.
Qed.

Lemma receive_forbidden (w : state O) method args kwargs :
  method ∉ methods w →
  receive_method_call dumps_table uuid4 getattr method args kwargs w
  = (w, inl (Exn MethodCallError ("Forbidden method '" +:+ method +:+ "'"))).
Proof.
  intros Hm. unfold receive_method_call. unfold_m.
  by rewrite bool_decide_eq_false_2.
Qed.

Lemma receive_missing (w : state O) method args kwargs :
  method ∈ methods w → getattr method = None →
  receive_method_call dumps_table uuid4 getattr method args kwargs w
  = (w, inl (Exn AttributeError method)).
Proof.
  intros Hm Hg. unfold receive_method_call. unfold_m.
  rewrite bool_decide_eq_true_2 by done. by rewrite Hg.
Qed.







(** C1 (what the code does).  When the [Deferred] of a deferred call fires
    with a value that does not pass [check], [send_deferred_response]
    raises [MethodCallError("Non-serializable result")] before it reaches
    [callRemote]: no [DeferredResponse] is written for the call, neither with
    a result nor with a failure, and the error stays in the [Deferred]. *)
Theorem non_serializable_deferred_result_unreported (w : state O) f uuid v :
  check dumps_table v = false →
  lookup_deferred f w = mkSDeferred None [SendDeferredResponse uuid] →
  send_deferred_response dumps_table (Callback v) uuid w
    = (w, inl (Exn MethodCallError "Non-serializable result"))
  ∧ transport (exec (fire dumps_table f (Callback v)) w) = transport w
  ∧ lookup_deferred f (exec (fire dumps_table f (Callback v)) w)
    = mkSDeferred (Some (Errback (Exn MethodCallError "Non-serializable result"))) [].
Proof.
  intros Hc Hl. split; [by apply send_bad|].
  rewrite (fire_single _ _ uuid) by done. unfold exec.
  rewrite send_bad by done. simpl.
  split; [done|]. unfold lookup_deferred. simpl. by rewrite lookup_insert_eq.
Qed.

(** C9 (as the code has it).  [check] tests membership of the exact type:
    it answers true exactly when [type(v)] is a key of [dumps_table]; in
    particular an instance of a strict subclass of a supported type is
    reported non-serializable unless that subclass is itself a key of the
    table. *)
Theorem check_is_exact_type_membership (v : value) :
  (check dumps_table v = true ↔ type_of v ∈ dumps_table)
  ∧ (∀ t, t ∈ dumps_table → strict_subclass (type_of v) t →
       type_of v ∉ dumps_table → check dumps_table v = false).
Proof.
  split; [apply check_spec|].
  intros t _ _ Hnot. apply not_true_is_false. by rewrite check_spec.
Qed.
Import ServerConnection.

(** X1.  A method that is listed and found, and whose result is there when
    [receive_method_call] looks (it returned a value, or a [Deferred] that
    has already succeeded), is answered with
    [MethodCallError("Non-serializable result")] when that result does not
    pass [check]; the method has run all the same: the call is in the log
    and the object is in its new state, and nothing else has changed. *)
Theorem unserializable_result_rejected (w : state O) method args kwargs
    method_func o' out v :
  method ∈ methods w →
  getattr method = Some method_func →
  method_func args kwargs (factory_object w) = (o', out) →
  resolves_to out w v →
  check dumps_table v = false →
  receive_method_call dumps_table uuid4 getattr method args kwargs w
  = (set_invoked (invoked w ++ [(method, args, kwargs)]) (set_object o' w),
     inl (Exn MethodCallError "Non-serializable result")).
Proof.
  intros Hm Hg Hf Hres Hc. rewrite (receive_allowed w _ _ _ method_func) by done.
  rewrite Hf. cbn [fst snd]. cbn zeta.
  destruct Hres as [->|(f & -> & Hr)]; [|rewrite Hr]; by rewrite Hc.
Qed.

(** X2.  A method that raises, or returns a [Deferred] that has already
    failed, is answered with [MethodCallError(str(error))]: nothing is
    written to the connection, no identifier is drawn, the call is logged;
    a failed [Deferred] is left with the result [None] and no callback (the
    errback that stops the propagation has run), and no other [Deferred]
    is touched. *)
Theorem method_failure_reported (w : state O) method args kwargs
    method_func o' out e :
  method ∈ methods w →
  getattr method = Some method_func →
  method_func args kwargs (factory_object w) = (o', out) →
  fails_with out w e →
  let w' := exec (receive_method_call dumps_table uuid4 getattr method args kwargs) w in
  (receive_method_call dumps_table uuid4 getattr method args kwargs w).2
    = inl (Exn MethodCallError (exn_str e))
  ∧ transport w' = transport w
  ∧ uuids_drawn w' = uuids_drawn w
  ∧ invoked w' = invoked w ++ [(method, args, kwargs)]
  ∧ factory_object w' = o'
  ∧ (∀ f, out = ReturnsDeferred f →
       lookup_deferred f w' = mkSDeferred (Some (Callback VNone)) []
       ∧ ∀ f', f' ≠ f → lookup_deferred f' w' = lookup_deferred f' w)
  ∧ (out = Raises e → heap w' = heap w).
Proof.
  intros Hm Hg Hf Hfail w'. subst w'. unfold exec.
  rewrite (receive_allowed w _ _ _ method_func) by done.
  rewrite Hf. cbn [fst snd]. cbn zeta.
  destruct Hfail as [->|(f & -> & Hr)].
  - split_and!; try done.
  - rewrite Hr. cbn [fst snd]. split_and!; try done.
    intros f0 [= <-]. unfold lookup_deferred. cbn. rewrite lookup_insert_eq.
    split; [done|]. intros f' Hne. by rewrite lookup_insert_ne.
Qed.

(** *** Frames *)

Lemma receive_frame (w : state O) method args kwargs :
  let w' := exec (receive_method_call dumps_table uuid4 getattr method args kwargs) w in
  methods w' = methods w
  ∧ transport w' = transport w
  ∧ invoked w' = invoked w ++ option_list (dispatched getattr (methods w)
                                            (Command method args kwargs)).
Proof.
  cbn zeta. unfold exec, dispatched.
  destruct (decide (method ∈ methods w)) as [Hm|Hm].
  - rewrite (bool_decide_eq_true_2 _ Hm).
    destruct (getattr method) as [method_func|] eqn:Hg.
    + rewrite (receive_allowed w _ _ _ method_func) by done. cbn zeta.
      rewrite bool_decide_eq_true_2 by done. cbn [andb option_list].
      destruct (method_func args kwargs (factory_object w)) as [o' out].
      cbn [fst snd].
      destruct out as [v|e|f]; [destruct (check dumps_table v)| |]; try done.
      destruct (sd_result (lookup_deferred f w)) as [[v|e]|];
        [destruct (check dumps_table v)| |]; done.
    + rewrite receive_missing by done.
      rewrite bool_decide_eq_false_2 by (by intros [? ?]).
      cbn. by rewrite app_nil_r.
  - rewrite receive_forbidden by done. rewrite (bool_decide_eq_false_2 _ Hm).
    cbn. by rewrite app_nil_r.
Qed.

(** Running a callback chain only writes boxes: one for each
    [send_deferred_response] that gets through, in order. *)
Lemma run_callbacks_spec (cbs : list callback) (current : dresult) (w : state O) :
  ∃ boxes r,
    run_callbacks dumps_table cbs current w
    = (set_transport (transport w ++ boxes) w, inr r)
    ∧ sublist (dr_uuid <$> boxes) (omap callback_uuid cbs)
    ∧ Forall (well_formed dumps_table) boxes.
Proof.
  revert current w. induction cbs as [|cb cbs IH]; intros current w.
  - exists [], current. cbn. rewrite app_nil_r. split_and!; [by destruct w|done|done].
  - cbn [run_callbacks]. unfold bind at 1.
    destruct cb as [uuid|].
    + cbn [run_callback omap callback_uuid].
      destruct current as [v|e].
      * destruct (check dumps_table v) eqn:Hc.
        -- rewrite send_ok by done.
           edestruct IH as (boxes & r & -> & Hsub & Hwf).
           exists (mkDeferredResponse uuid (Some v) None :: boxes), r.
           cbn. rewrite <- app_assoc. split_and!; [done| |].
           ++ by apply sublist_skip.
           ++ apply Forall_cons. split; [|done]. unfold well_formed. by cbn.
        -- rewrite send_bad by done.
           edestruct IH as (boxes & r & -> & Hsub & Hwf).
           exists boxes, r. split_and!; [done| |done]. by apply sublist_cons.
      * rewrite send_failure.
        edestruct IH as (boxes & r & -> & Hsub & Hwf).
        exists (mkDeferredResponse uuid None (Some (exn_str e)) :: boxes), r.
        cbn. rewrite <- app_assoc. split_and!; [done| |].
        -- by apply sublist_skip.
        -- apply Forall_cons. split; [|done]. unfold well_formed. by cbn.
    + cbn [run_callback omap callback_uuid].
      destruct current as [v|e]; cbn; apply IH.
Qed.

Lemma fire_spec (f : nat) (outcome : dresult) (w : state O) :
  (is_Some (sd_result (lookup_deferred f w))
   ∧ fire dumps_table f outcome w = (w, inl (Exn AlreadyCalledError "")))
  ∨ (sd_result (lookup_deferred f w) = None
     ∧ ∃ boxes r,
         fire dumps_table f outcome w
         = (set_heap (<[f := mkSDeferred (Some r) []]> (heap w))
              (set_transport (transport w ++ boxes) w), inr tt)
         ∧ sublist (dr_uuid <$> boxes)
             (omap callback_uuid (sd_callbacks (lookup_deferred f w)))
         ∧ Forall (well_formed dumps_table) boxes).
Proof.
  cbv beta iota zeta delta [fire bind gets].
  destruct (sd_result (lookup_deferred f w)) as [x|] eqn:Hr.
  - left. split; [done|]. reflexivity.
  - right. split; [done|].
    destruct (run_callbacks_spec (sd_callbacks (lookup_deferred f w)) outcome w)
      as (boxes & r & E & Hsub & Hwf).
    exists boxes, r. rewrite E. split_and!; done.
Qed.

Lemma fire_frame_server (f : nat) (outcome : dresult) (w : state O) :
  let w' := exec (fire dumps_table f outcome) w in
  methods w' = methods w ∧ invoked w' = invoked w
  ∧ uuids_drawn w' = uuids_drawn w ∧ factory_object w' = factory_object w.
Proof.
  cbn zeta. unfold exec.
  destruct (fire_spec f outcome w) as [[_ ->]|(_ & boxes & r & -> & _)]; done.
Qed.

Lemma methods_run evs (w : state O) :
  methods (run dumps_table uuid4 getattr evs w) = methods w.
Proof.
  revert w. induction evs as [|ev evs IH]; [done|]. intros w.
  unfold run in *. cbn [foldl]. rewrite IH. destruct ev as [m a k|f out]; cbn [step].
  - by destruct (receive_frame w m a k) as (-> & _).
  - by destruct (fire_frame_server f out w) as (-> & _).
Qed.

(** X3.  Over any sequence of commands and firings on a connection, the
    calls made on the exposed object are exactly the commands for a method
    that is in [methods] and that the object has, in the order of their
    arrival, with their arguments. *)
Theorem whitelisted_calls_reach_object (evs : list event) (w : state O) :
  invoked (run dumps_table uuid4 getattr evs w)
  = invoked w ++ omap (dispatched getattr (methods w)) evs.
Proof.
  revert w. induction evs as [|ev evs IH]; intros w.
  - cbn. by rewrite app_nil_r.
  - unfold run in *. cbn [foldl]. rewrite IH.
    destruct ev as [m a k|f out]; cbn [step].
    + destruct (receive_frame w m a k) as (-> & _ & ->).
      rewrite <- app_assoc. f_equal. cbn [omap list_omap].
      by destruct (dispatched getattr (methods w) (Command m a k)).
    + destruct (fire_frame_server f out w) as (-> & -> & _). done.
Qed.

(** *** The books of a connection *)

Lemma accounted_init : accounted uuid4 ∅ 0 [].
Proof.
  split_and!.
  - intros f d u. by rewrite lookup_empty.
  - intros f d. by rewrite lookup_empty.
  - intros f1 f2 d1 d2 u _. by rewrite lookup_empty.
  - intros f d u. by rewrite lookup_empty.
  - constructor.
  - intros box Hin. by apply elem_of_nil in Hin.
Qed.

(** A [Deferred] loses its callbacks. *)
Lemma accounted_clear h n t f r :
  accounted uuid4 h n t → accounted uuid4 (<[f := mkSDeferred r []]> h) n t.
Proof.
  intros (I1 & I2 & I3 & I4 & I5 & I6).
  split_and!; try done.
  - intros f' d u. destruct (decide (f' = f)) as [->|Hne].
    + rewrite lookup_insert_eq. intros [= <-]. by intros ?%elem_of_nil.
    + rewrite lookup_insert_ne by done. apply I1.
  - intros f' d. destruct (decide (f' = f)) as [->|Hne].
    + rewrite lookup_insert_eq. intros [= <-]. constructor.
    + rewrite lookup_insert_ne by done. apply I2.
  - intros f1 f2 d1 d2 u Hne.
    destruct (decide (f1 = f)) as [->|H1].
    { rewrite lookup_insert_eq. intros [= <-] _. by intros ?%elem_of_nil. }
    destruct (decide (f2 = f)) as [->|H2].
    { rewrite lookup_insert_eq. intros _ [= <-] _. by intros ?%elem_of_nil. }
    rewrite !lookup_insert_ne by done. by apply I3.
  - intros f' d u. destruct (decide (f' = f)) as [->|Hne].
    + rewrite lookup_insert_eq. intros [= <-]. by intros ?%elem_of_nil.
    + rewrite lookup_insert_ne by done. apply I4.
Qed.

Lemma queued_app d cb :
  queued (mkSDeferred None (sd_callbacks d ++ [cb]))
  = queued d ++ option_list (callback_uuid cb).
Proof.
  unfold queued. cbn [sd_callbacks]. rewrite omap_app. cbn.
  by destruct (callback_uuid cb).
Qed.

(** A new identifier is drawn and queued. *)
Lemma accounted_draw h n t f :
  Inj (=) (=) uuid4 →
  accounted uuid4 h n t →
  accounted uuid4
    (<[f := mkSDeferred None
              (sd_callbacks (default unfired (h !! f))
               ++ [SendDeferredResponse (uuid4 n)])]> h) (S n) t.
Proof.
  intros Hinj (I1 & I2 & I3 & I4 & I5 & I6).
  set (d0 := default unfired (h !! f)).
  assert (∀ f' d' u, h !! f' = Some d' → u ∈ queued d' → u ≠ uuid4 n) as Hnew.
  { intros f' d' u Hl Hin ->. destruct (I1 f' d' _ Hl Hin) as (i & Hi & Heq).
    apply Hinj in Heq. lia. }
  assert (∀ u, u ∈ queued d0 → h !! f = Some d0) as Hd0.
  { intros u. subst d0. destruct (h !! f) as [d|]; [done|].
    by intros ?%elem_of_nil. }
  split_and!.
  - intros f' d u. destruct (decide (f' = f)) as [->|Hne].
    + rewrite lookup_insert_eq. intros [= <-]. rewrite queued_app.
      intros [Hin|Hin]%elem_of_app.
      * destruct (I1 f d0 u (Hd0 u Hin) Hin) as (i & Hi & ->). exists i. split; [lia|done].
      * apply list_elem_of_singleton in Hin as ->. exists n. split; [lia|done].
    + rewrite lookup_insert_ne by done. intros Hl Hin.
      destruct (I1 f' d u Hl Hin) as (i & Hi & ->). exists i. split; [lia|done].
  - intros f' d. destruct (decide (f' = f)) as [->|Hne].
    + rewrite lookup_insert_eq. intros [= <-]. rewrite queued_app. cbn.
      apply NoDup_app. split_and!.
      * destruct (h !! f) as [d|] eqn:Hl; subst d0; cbn; [by apply (I2 f)|constructor].
      * intros u Hin Hin2. apply list_elem_of_singleton in Hin2 as ->.
        by apply (Hnew f d0 _ (Hd0 _ Hin) Hin).
      * apply NoDup_singleton.
    + rewrite lookup_insert_ne by done. apply I2.
  - intros f1 f2 d1 d2 u Hne.
    destruct (decide (f1 = f)) as [->|H1].
    { rewrite lookup_insert_eq, lookup_insert_ne by done. intros [= <-] Hl2.
      rewrite queued_app. intros [Hin|Hin]%elem_of_app.
      - by apply (I3 f f2 d0 d2 u Hne (Hd0 _ Hin)).
      - apply list_elem_of_singleton in Hin as ->. intros Hin.
        by apply (Hnew f2 d2 _ Hl2 Hin). }
    destruct (decide (f2 = f)) as [->|H2].
    { rewrite lookup_insert_eq, lookup_insert_ne by done. intros Hl1 [= <-] Hin1.
      rewrite queued_app. intros [Hin|Hin]%elem_of_app.
      - by apply (I3 f1 f d1 d0 u Hne Hl1 (Hd0 _ Hin)).
      - apply list_elem_of_singleton in Hin as ->.
        by apply (Hnew f1 d1 _ Hl1 Hin1). }
    rewrite !lookup_insert_ne by done. by apply I3.
  - intros f' d u. destruct (decide (f' = f)) as [->|Hne].
    + rewrite lookup_insert_eq. intros [= <-]. rewrite queued_app.
      intros [Hin|Hin]%elem_of_app.
      * by apply (I4 f d0 u (Hd0 _ Hin)).
      * apply list_elem_of_singleton in Hin as ->.
        intros (box & Heq & Hbox)%list_elem_of_fmap.
        destruct (I6 box Hbox) as (i & Hi & Heq2). rewrite Heq2 in Heq.
        apply Hinj in Heq. lia.
    + rewrite lookup_insert_ne by done. apply I4.
  - done.
  - intros box Hbox. destruct (I6 box Hbox) as (i & Hi & ->). exists i. split; [lia|done].
Qed.

(** A [Deferred] fires: boxes are written for some of its callbacks. *)
Lemma accounted_fire h n t f r boxes :
  accounted uuid4 h n t →
  sublist (dr_uuid <$> boxes) (queued (default unfired (h !! f))) →
  accounted uuid4 (<[f := mkSDeferred r []]> h) n (t ++ boxes).
Proof.
  intros Hacc Hsub.
  pose proof (accounted_clear h n t f r Hacc) as (J1 & J2 & J3 & _ & _ & _).
  destruct Hacc as (I1 & I2 & I3 & I4 & I5 & I6).
  set (d0 := default unfired (h !! f)) in *.
  assert (∀ u, u ∈ dr_uuid <$> boxes → h !! f = Some d0 ∧ u ∈ queued d0) as Hd0.
  { intros u Hin. assert (u ∈ queued d0) as Hq.
    { by apply (elem_of_sublist _ _ _ Hin). }
    split; [|done]. subst d0. destruct (h !! f) as [d|]; [done|].
    by apply elem_of_nil in Hq. }
  split_and!; try done.
  - intros f' d u. destruct (decide (f' = f)) as [->|Hne].
    + rewrite lookup_insert_eq. intros [= <-]. by intros ?%elem_of_nil.
    + rewrite lookup_insert_ne by done. intros Hl Hin.
      rewrite fmap_app. intros [Ht|Hb]%elem_of_app.
      * by apply (I4 f' d u).
      * destruct (Hd0 u Hb) as [Hl0 Hq]. by apply (I3 f' f d d0 u).
  - rewrite fmap_app. apply NoDup_app. split_and!; [done| |].
    + intros u Ht Hb. destruct (Hd0 u Hb) as [Hl0 Hq]. by apply (I4 f d0 u).
    + eapply sublist_NoDup; [|exact Hsub].
      destruct (h !! f) as [d|] eqn:Hl; subst d0; cbn; [by apply (I2 f)|constructor].
  - intros box [Ht|Hb]%elem_of_app; [by apply I6|].
    assert (dr_uuid box ∈ dr_uuid <$> boxes) as Hin by by apply list_elem_of_fmap_2.
    destruct (Hd0 _ Hin) as [Hl0 Hq]. destruct (I1 f d0 _ Hl0 Hq) as (i & Hi & ->).
    eauto.
Qed.

Lemma accounted_step (w : state O) ev :
  Inj (=) (=) uuid4 →
  accounted uuid4 (heap w) (uuids_drawn w) (transport w) →
  accounted uuid4 (heap (step dumps_table uuid4 getattr w ev))
    (uuids_drawn (step dumps_table uuid4 getattr w ev))
    (transport (step dumps_table uuid4 getattr w ev)).
Proof.
  intros Hinj Hacc. destruct ev as [m a k|f out]; cbn [step]; unfold exec.
  - destruct (decide (m ∈ methods w)) as [Hm|Hm];
      [|by rewrite receive_forbidden].
    destruct (getattr m) as [method_func|] eqn:Hg;
      [|by rewrite receive_missing].
    rewrite (receive_allowed w _ _ _ method_func) by done. cbn zeta.
    destruct (method_func a k (factory_object w)) as [o' out]. cbn [fst snd].
    destruct out as [v|e|f]; [by destruct (check dumps_table v)|done|].
    unfold lookup_deferred.
    destruct (sd_result (default unfired (heap w !! f))) as [[v|e]|].
    + by destruct (check dumps_table v).
    + cbn. by apply accounted_clear.
    + cbn. by apply accounted_draw.
  - destruct (fire_spec f out w) as [[_ ->]|(_ & boxes & r & -> & Hsub & _)];
      [done|].
    cbn. by apply accounted_fire.
Qed.

Lemma accounted_run evs (w : state O) :
  Inj (=) (=) uuid4 →
  accounted uuid4 (heap w) (uuids_drawn w) (transport w) →
  accounted uuid4 (heap (run dumps_table uuid4 getattr evs w))
    (uuids_drawn (run dumps_table uuid4 getattr evs w))
    (transport (run dumps_table uuid4 getattr evs w)).
Proof.
  intros Hinj. revert w. induction evs as [|ev evs IH]; [done|]. intros w Hacc.
  unfold run in *. cbn [foldl]. by apply IH, accounted_step.
Qed.

(** Each deferred answer draws one identifier, in the order of the source. *)
Lemma answers_drawn evs (w : state O) :
  uuids_drawn w ≤ uuids_drawn (run dumps_table uuid4 getattr evs w)
  ∧ omap deferred_of (answers dumps_table uuid4 getattr evs w)
    = uuid4 <$> seq (uuids_drawn w)
                  (uuids_drawn (run dumps_table uuid4 getattr evs w)
                   - uuids_drawn w).
Proof.
  revert w. induction evs as [|ev evs IH]; intros w.
  - cbn. by rewrite Nat.sub_diag.
  - unfold run in *. cbn [foldl answers]. rewrite omap_app.
    destruct (IH (step dumps_table uuid4 getattr w ev)) as [Hle ->].
    assert ((uuids_drawn (step dumps_table uuid4 getattr w ev) = uuids_drawn w
             ∧ omap deferred_of
                 match ev with
                 | Command method args kwargs =>
                     [(receive_method_call dumps_table uuid4 getattr method args
                         kwargs w).2]
                 | Fires _ _ => []
                 end = [])
            ∨ (uuids_drawn (step dumps_table uuid4 getattr w ev) = S (uuids_drawn w)
               ∧ omap deferred_of
                   match ev with
                   | Command method args kwargs =>
                       [(receive_method_call dumps_table uuid4 getattr method args
                           kwargs w).2]
                   | Fires _ _ => []
                   end = [uuid4 (uuids_drawn w)])) as Hstep.
    { destruct ev as [m a k|f out]; cbn [step]; unfold exec.
      - destruct (decide (m ∈ methods w)) as [Hm|Hm];
          [|rewrite receive_forbidden by done; by left].
        destruct (getattr m) as [method_func|] eqn:Hg;
          [|rewrite receive_missing by done; by left].
        rewrite (receive_allowed w _ _ _ method_func) by done. cbn zeta.
        destruct (method_func a k (factory_object w)) as [o' out]. cbn [fst snd].
        destruct out as [v|e|f];
          [destruct (check dumps_table v); by left|by left|].
        destruct (sd_result (lookup_deferred f w)) as [[v|e]|].
        + destruct (check dumps_table v); by left.
        + by left.
        + by right.
      - destruct (fire_frame_server f out w) as (_ & _ & Hn & _).
        unfold exec in Hn. left. by rewrite Hn. }
    destruct Hstep as [[Hn ->]|[Hn ->]]; rewrite Hn in *.
    + done.
    + split; [lia|].
      replace (uuids_drawn (foldl (step dumps_table uuid4 getattr)
                              (step dumps_table uuid4 getattr w ev) evs)
               - uuids_drawn w)
        with (S (uuids_drawn (foldl (step dumps_table uuid4 getattr)
                                (step dumps_table uuid4 getattr w ev) evs)
                 - S (uuids_drawn w))) by lia.
      done.
Qed.

(** X4.  On a connection, from the start and over any sequence of
    commands and firings, given a collision-free [uuid4]: the identifiers
    handed out in the answers are pairwise distinct, no two
    [DeferredResponse]s written carry the same uuid, and every uuid written
    was handed out in an answer. *)
Theorem one_deferred_response_per_uuid (methods : list string) (object : O)
    (evs : list event) :
  Inj (=) (=) uuid4 →
  let w := run dumps_table uuid4 getattr evs (init methods object) in
  let handed_out :=
    omap deferred_of (answers dumps_table uuid4 getattr evs (init methods object)) in
  NoDup handed_out
  ∧ NoDup (dr_uuid <$> transport w)
  ∧ (∀ box, box ∈ transport w → dr_uuid box ∈ handed_out).
Proof.
  intros Hinj w handed_out.
  pose proof (accounted_run evs (init methods object) Hinj accounted_init)
    as (_ & _ & _ & _ & Hnd & Hdrawn).
  pose proof (answers_drawn evs (init methods object)) as [_ Hans].
  subst handed_out. rewrite Hans. cbn [init uuids_drawn]. rewrite Nat.sub_0_r.
  fold w. split_and!.
  - apply NoDup_fmap; [done|]. apply NoDup_seq.
  - done.
  - intros box Hbox. destruct (Hdrawn box Hbox) as (i & Hi & ->).
    apply list_elem_of_fmap_2, elem_of_seq. fold w in Hi. lia.
Qed.

Lemma well_formed_step (w : state O) ev :
  Forall (well_formed dumps_table) (transport w) →
  Forall (well_formed dumps_table) (transport (step dumps_table uuid4 getattr w ev)).
Proof.
  intros Hwf. destruct ev as [m a k|f out]; cbn [step].
  - by destruct (receive_frame w m a k) as (_ & -> & _).
  - unfold exec.
    destruct (fire_spec f out w) as [[_ ->]|(_ & boxes & r & -> & _ & Hb)];
      [done|].
    cbn. by apply Forall_app.
Qed.

(** X5.  Every [DeferredResponse] written on a connection carries either
    a result that passes [check] and no failure, or a failure and no
    result. *)
Theorem deferred_responses_well_formed (methods : list string) (object : O)
    (evs : list event) :
  Forall (well_formed dumps_table)
    (transport (run dumps_table uuid4 getattr evs (init methods object))).
Proof.
  assert (∀ w : state O, Forall (well_formed dumps_table) (transport w) →
            Forall (well_formed dumps_table)
              (transport (run dumps_table uuid4 getattr evs w))) as H.
  { induction evs as [|ev evs IH]; [done|]. intros w Hwf.
    unfold run in *. cbn [foldl]. by apply IH, well_formed_step. }
  apply H. constructor.
Qed.
End ServerProofs.

(** ** The Twisted primitives *)

Section ReactorFacts.
Context {A : Type}.
Implicit Types (r : Clock A) (c : nat).

Lemma cancel_inr c r r' :
  cancel c r = inr r' →
  ∃ dc, delayed r !! c = Some dc ∧ dc_called dc = false ∧ dc_cancelled dc = false
    ∧ r' = mkClock (rightNow r)
             (<[c := mkDelayedCall (dc_time dc) (dc_func dc) false true]> (delayed r)).
Proof.
  unfold cancel. destruct (delayed r !! c) as [dc|]; [|done].
  destruct (dc_cancelled dc) eqn:?; [done|]. destruct (dc_called dc) eqn:?; [done|].
  intros [= <-]. eauto.
Qed.

Lemma cancel_active c r dc :
  delayed r !! c = Some dc → dc_active dc = true →
  cancel c r = inr (mkClock (rightNow r)
             (<[c := mkDelayedCall (dc_time dc) (dc_func dc) false true]> (delayed r))).
Proof.
  unfold cancel, dc_active. intros -> H.
  destruct (dc_called dc), (dc_cancelled dc); simpl in *; done.
Qed.

Lemma elem_of_due c r :
  c ∈ due r ↔ ∃ dc, delayed r !! c = Some dc ∧ dc_active dc = true ∧ dc_time dc ≤ rightNow r.
Proof.
  unfold due. rewrite list_elem_of_fmap. split.
  - intros [[i dc] [-> Hin]]. rewrite merge_sort_Permutation in Hin.
    apply list_elem_of_filter in Hin as [[Ha Ht] Hin]. simpl in *.
    apply elem_of_lookup_imap in Hin as (j & y & [= -> ->] & Hl). eauto.
  - intros (dc & Hl & Ha & Ht). exists (c, dc). split; [done|].
    rewrite merge_sort_Permutation. apply list_elem_of_filter. split; [done|].
    apply elem_of_lookup_imap. eauto.
Qed.
End ReactorFacts.

Lemma fire_deferred_inr d x h h' :
  fire_deferred d x h = inr h' → h !! d = Some None ∧ h' = <[d := Some x]> h.
Proof.
  unfold fire_deferred. destruct (h !! d) as [[?|]|]; try done. by intros [= <-].
Qed.

Lemma fire_deferred_unfired d x h :
  h !! d = Some None → fire_deferred d x h = inr (<[d := Some x]> h).
Proof. unfold fire_deferred. by intros ->. Qed.


Section PrimitiveFacts.
Context {A : Type}.
Implicit Types (r : Clock A) (c : nat).

Lemma try_cancel_now c r : rightNow (try_cancel c r) = rightNow r.
Proof.
  unfold try_cancel. destruct (cancel c r) eqn:H; [done|].
  by apply cancel_inr in H as (? & ? & ? & ? & ->).
Qed.

Lemma try_cancel_length c r :
  length (delayed (try_cancel c r)) = length (delayed r).
Proof.
  unfold try_cancel. destruct (cancel c r) eqn:H; [done|].
  apply cancel_inr in H as (? & ? & ? & ? & ->). cbn [delayed]. by rewrite length_insert.
Qed.

Lemma try_cancel_ne c c' r :
  c' ≠ c → delayed (try_cancel c r) !! c' = delayed r !! c'.
Proof.
  intros Hne. unfold try_cancel. destruct (cancel c r) eqn:H; [done|].
  apply cancel_inr in H as (? & ? & ? & ? & ->). cbn [delayed].
  by rewrite list_lookup_insert_ne.
Qed.

Lemma try_cancel_active c r dc :
  delayed r !! c = Some dc → dc_active dc = true →
  delayed (try_cancel c r) !! c
  = Some (mkDelayedCall (dc_time dc) (dc_func dc) false true).
Proof.
  intros Hl Ha. unfold try_cancel. rewrite (cancel_active c r dc) by done.
  cbn [delayed]. apply list_lookup_insert_eq. by apply lookup_lt_Some in Hl.
Qed.

Lemma mark_called_now c r : rightNow (mark_called c r) = rightNow r.
Proof. unfold mark_called. by destruct (delayed r !! c). Qed.

Lemma mark_called_length c r :
  length (delayed (mark_called c r)) = length (delayed r).
Proof.
  unfold mark_called. destruct (delayed r !! c); [|done]. cbn [delayed].
  by rewrite length_insert.
Qed.

Lemma mark_called_ne c c' r :
  c' ≠ c → delayed (mark_called c r) !! c' = delayed r !! c'.
Proof.
  intros Hne. unfold mark_called. destruct (delayed r !! c); [|done]. cbn [delayed].
  by rewrite list_lookup_insert_ne.
Qed.

Lemma mark_called_eq c r dc :
  delayed r !! c = Some dc →
  delayed (mark_called c r) !! c
  = Some (mkDelayedCall (dc_time dc) (dc_func dc) true (dc_cancelled dc)).
Proof.
  intros Hl. unfold mark_called. rewrite Hl. cbn [delayed].
  apply list_lookup_insert_eq. by apply lookup_lt_Some in Hl.
Qed.
End PrimitiveFacts.

Lemma try_fire_length d x h : length (try_fire d x h) = length h.
Proof.
  unfold try_fire. destruct (fire_deferred d x h) eqn:H; [done|].
  apply fire_deferred_inr in H as [_ ->]. by rewrite length_insert.
Qed.

Lemma try_fire_ne d d' x h : d' ≠ d → try_fire d x h !! d' = h !! d'.
Proof.
  intros Hne. unfold try_fire. destruct (fire_deferred d x h) eqn:H; [done|].
  apply fire_deferred_inr in H as [_ ->]. by rewrite list_lookup_insert_ne.
Qed.

Lemma try_fire_unfired d x h :
  h !! d = Some None → try_fire d x h !! d = Some (Some x).
Proof.
  intros H. unfold try_fire. rewrite fire_deferred_unfired by done.
  apply list_lookup_insert_eq. by apply lookup_lt_Some in H.
Qed.

Lemma try_fire_fired d x y h :
  h !! d = Some (Some y) → try_fire d x h = h.
Proof. intros H. unfold try_fire, fire_deferred. by rewrite H. Qed.

(** ** The client protocol *)

Module ClientProofs.
Import MethodCallClientProtocol.

Lemma fire_absent w u r f :
  _pending_responses w !! u = None →
  fire_pending_response u r f w = (w, inr tt).
Proof.
  intros H. unfold fire_pending_response, bind, gets. by rewrite H.
Qed.

Ltac client_red :=
  cbv beta iota zeta delta
    [bind ret raise gets modify swallow exec lift_either lift_alloc fst snd
     fire_pending_response receive_deferred_response handle_response
     set_pending set_deferreds set_reactor
     timeout _pending_responses deferreds reactor
     rightNow delayed dc_time dc_func dc_called dc_cancelled dc_active
     called active cancel try_cancel fire_deferred try_fire new_deferred
     callLater mark_called tick payload cancels negb andb orb].

(** What [fire_pending_response] does to an entry that is there. *)
Lemma fire_present w u r f d c :
  _pending_responses w !! u = Some (d, c) →
  exec (fire_pending_response u r f) w
  = let rc := if called c (reactor w) then reactor w
              else try_cancel c (reactor w) in
    let raised := negb (called c (reactor w)) && negb (cancels c (reactor w)) in
    mkClient (timeout w) (delete u (_pending_responses w))
      (if raised
       then deferreds w else try_fire d (payload r f) (deferreds w)) rc.
Proof.
  intros H. destruct w as [T p h [now ds]]. simpl in H.
  sym_exec client_red; reflexivity.
Qed.

Lemma handle_response_deferred w res u :
  u ≠ "" →
  handle_response (mkResponse res (Some u)) w
  = (mkClient (timeout w)
       (<[u := (length (deferreds w), length (delayed (reactor w)))]>
          (_pending_responses w))
       (deferreds w ++ [None])
       (mkClock (rightNow (reactor w))
          (delayed (reactor w)
           ++ [mkDelayedCall (rightNow (reactor w) + timeout w)
                 (FirePendingResponse u) false false])),
     inr (inl (length (deferreds w)))).
Proof.
  intros Hu. destruct w as [T p h [now ds]].
  unfold handle_response. cbn [mc_deferred].
  rewrite bool_decide_eq_false_2 by done. reflexivity.
Qed.

Lemma handle_response_plain w response :
  mc_deferred response = None ∨ mc_deferred response = Some "" →
  handle_response response w = (w, inr (inr response)).
Proof.
  unfold handle_response. intros [-> | ->]; [done|].
  by rewrite bool_decide_eq_true_2.
Qed.

Lemma run_call_active w c dc u :
  delayed (reactor w) !! c = Some dc → dc_active dc = true →
  dc_func dc = FirePendingResponse u →
  run_call c w
  = exec (fire_pending_response u VNone (Some "timeout"))
      (set_reactor (mark_called c (reactor w)) w).
Proof. intros H1 H2 H3. unfold run_call. by rewrite H1, H2, H3. Qed.

Lemma run_call_inactive w c :
  (∀ dc, delayed (reactor w) !! c = Some dc → dc_active dc = false) →
  run_call c w = w.
Proof.
  intros H. unfold run_call. destruct (delayed (reactor w) !! c) as [dc|]; [|done].
  by rewrite (H dc).
Qed.

(** *** Frame properties of [fire_pending_response] *)

Lemma fire_frame w u r f d c :
  _pending_responses w !! u = Some (d, c) →
  let w' := exec (fire_pending_response u r f) w in
  timeout w' = timeout w
  ∧ _pending_responses w' = delete u (_pending_responses w)
  ∧ rightNow (reactor w') = rightNow (reactor w)
  ∧ length (deferreds w') = length (deferreds w)
  ∧ length (delayed (reactor w')) = length (delayed (reactor w))
  ∧ (∀ d', d' ≠ d → deferreds w' !! d' = deferreds w !! d')
  ∧ (∀ c', c' ≠ c → delayed (reactor w') !! c' = delayed (reactor w) !! c').
Proof.
  intros H w'. subst w'. rewrite (fire_present _ _ _ _ _ _ H). cbn zeta.
  cbn [timeout _pending_responses deferreds reactor].
  split_and!; try done.
  - destruct (called c (reactor w)); [done|]. apply try_cancel_now.
  - destruct (_ && _); [done|]. apply try_fire_length.
  - destruct (called c (reactor w)); [done|]. apply try_cancel_length.
  - intros d' Hne. destruct (_ && _); [done|]. by apply try_fire_ne.
  - intros c' Hne. destruct (called c (reactor w)); [done|]. by apply try_cancel_ne.
Qed.

Lemma fire_fires w u r f d c dc :
  _pending_responses w !! u = Some (d, c) →
  delayed (reactor w) !! c = Some dc → dc_cancelled dc = false →
  deferreds w !! d = Some None →
  deferreds (exec (fire_pending_response u r f) w) !! d
  = Some (Some (payload r f)).
Proof.
  intros H Hc Hnc Hd. rewrite (fire_present _ _ _ _ _ _ H). cbn zeta.
  cbn [deferreds].
  assert (negb (called c (reactor w)) && negb (cancels c (reactor w)) = false) as ->.
  { unfold called, cancels, cancel. rewrite Hc, Hnc.
    by destruct (dc_called dc). }
  by apply try_fire_unfired.
Qed.

Lemma fire_now w u r f :
  rightNow (reactor (exec (fire_pending_response u r f) w))
  = rightNow (reactor w).
Proof.
  destruct (_pending_responses w !! u) as [[d c]|] eqn:H.
  - by apply (fire_frame w u r f) in H as (_ & _ & -> & _).
  - unfold exec. by rewrite fire_absent.
Qed.

(** *** Well-formedness of reachable states *)

Lemma wf_init T : wf (init T).
Proof. intros u d c. unfold init. cbn. by rewrite lookup_empty. Qed.

Lemma wf_fire w u r f : wf w → wf (exec (fire_pending_response u r f) w).
Proof.
  intros Hwf. destruct (_pending_responses w !! u) as [[d c]|] eqn:H.
  - pose proof (fire_frame w u r f d c H) as (_ & Hp & _ & Hl1 & Hl2 & _).
    intros u' d' c'. rewrite Hp, Hl1, Hl2.
    intros Hl%lookup_delete_Some. apply (Hwf u'). by destruct Hl.
  - unfold exec. by rewrite fire_absent.
Qed.

Lemma wf_handle_response w response :
  wf w → wf (exec (handle_response response) w).
Proof.
  intros Hwf. destruct response as [res [u|]].
  - destruct (decide (u = "")) as [->|Hu].
    + unfold exec. by rewrite handle_response_plain by auto.
    + unfold exec. rewrite handle_response_deferred by done. cbn [fst].
      intros u' d' c'. cbn [_pending_responses deferreds reactor delayed].
      rewrite !length_app. cbn [length].
      destruct (decide (u = u')) as [<-|Hne].
      * rewrite lookup_insert_eq. intros [= <- <-]. lia.
      * rewrite lookup_insert_ne by done. intros H%Hwf. lia.
  - unfold exec. by rewrite handle_response_plain by auto.
Qed.

Lemma wf_mark_called w c : wf w → wf (set_reactor (mark_called c (reactor w)) w).
Proof.
  intros Hwf u d c'. cbn [set_reactor _pending_responses deferreds reactor].
  rewrite mark_called_length. apply Hwf.
Qed.

Lemma wf_run_call w c : wf w → wf (run_call c w).
Proof.
  intros Hwf. unfold run_call.
  destruct (delayed (reactor w) !! c) as [dc|]; [|done].
  destruct (dc_active dc); [|done]. destruct (dc_func dc).
  by apply wf_fire, wf_mark_called.
Qed.

Lemma wf_foldl_run_call l w : wf w → wf (foldl (λ w c, run_call c w) w l).
Proof. revert w. induction l; [done|]. intros w Hwf. cbn. by apply IHl, wf_run_call. Qed.

Lemma wf_step w ev : wf w → wf (step w ev).
Proof.
  intros Hwf. destruct ev as [response|box|dt]; cbn [step].
  - by apply wf_handle_response.
  - by apply wf_fire.
  - unfold advance. by apply wf_foldl_run_call.
Qed.

Lemma wf_run evs w : wf w → wf (run evs w).
Proof. revert w. induction evs; [done|]. intros w Hwf. cbn. by apply IHevs, wf_step. Qed.

(** *** The life of one entry *)

Lemma live_has_entry u d c deadline w : live u d c deadline w → has_entry u d w = true.
Proof.
  intros (_ & H & _). unfold has_entry. rewrite H. by apply bool_decide_eq_true_2.
Qed.

Lemma settled_has_entry u d x w : settled d x w → has_entry u d w = false.
Proof.
  intros (_ & _ & H). unfold has_entry.
  destruct (_pending_responses w !! u) as [[d' c']|] eqn:E; [|done].
  apply bool_decide_eq_false_2. by apply (H u d' c').
Qed.

(** Firing the entry itself settles it. *)
Lemma live_fire_self u d c deadline w r f :
  live u d c deadline w →
  settled d (payload r f) (exec (fire_pending_response u r f) w)
  ∧ _pending_responses (exec (fire_pending_response u r f) w) !! u = None.
Proof.
  intros (Hwf & He & Hd & Hc & Honly).
  pose proof (fire_frame w u r f d c He) as (_ & Hp & _ & _ & _ & _ & _).
  split; [split_and!|].
  - by apply wf_fire.
  - by apply (fire_fires w u r f d c _ He Hc).
  - intros u' d' c'. rewrite Hp. intros [Hne Hl]%lookup_delete_Some.
    by apply (Honly u' d' c').
  - rewrite Hp. apply lookup_delete_eq.
Qed.

(** Firing another entry leaves it alone. *)
Lemma live_fire_other u d c deadline w u' r f :
  u' ≠ u → live u d c deadline w →
  live u d c deadline (exec (fire_pending_response u' r f) w).
Proof.
  intros Hne (Hwf & He & Hd & Hc & Honly).
  destruct (_pending_responses w !! u') as [[d' c']|] eqn:H.
  - pose proof (fire_frame w u' r f d' c' H) as (_ & Hp & _ & _ & _ & Hds & Hcs).
    destruct (Honly u' d' c' H Hne) as [Hd' Hc'].
    split_and!.
    + by apply wf_fire.
    + rewrite Hp. by rewrite lookup_delete_ne.
    + by rewrite Hds.
    + by rewrite Hcs.
    + intros u'' d'' c''. rewrite Hp. intros [_ Hl]%lookup_delete_Some.
      by apply Honly.
  - unfold exec. rewrite fire_absent by done. by split_and!.
Qed.

Lemma settled_fire d x w u r f :
  settled d x w → settled d x (exec (fire_pending_response u r f) w).
Proof.
  intros (Hwf & Hd & Hgone).
  destruct (_pending_responses w !! u) as [[d' c']|] eqn:H.
  - pose proof (fire_frame w u r f d' c' H) as (_ & Hp & _ & _ & _ & Hds & _).
    split_and!.
    + by apply wf_fire.
    + rewrite Hds; [done|]. intros ->. by apply (Hgone u d' c').
    + intros u' d'' c''. rewrite Hp. intros [_ Hl]%lookup_delete_Some.
      by apply (Hgone u' d'' c'').
  - unfold exec. rewrite fire_absent by done. by split_and!.
Qed.

Lemma absent_fire u u' w r f :
  _pending_responses w !! u = None →
  _pending_responses (exec (fire_pending_response u' r f) w) !! u = None.
Proof.
  intros Hu. destruct (_pending_responses w !! u') as [[d' c']|] eqn:H.
  - pose proof (fire_frame w u' r f d' c' H) as (_ & -> & _).
    apply lookup_delete_None. auto.
  - unfold exec. by rewrite fire_absent.
Qed.

Lemma live_handle_response u d c deadline w response :
  mc_deferred response ≠ Some u → live u d c deadline w →
  live u d c deadline (exec (handle_response response) w).
Proof.
  intros Hne Hlive. pose proof Hlive as (Hwf & He & Hd & Hc & Honly).
  destruct response as [res [u'|]]; cbn in Hne.
  - destruct (decide (u' = "")) as [->|Hu].
    + unfold exec. by rewrite handle_response_plain by auto.
    + assert (u' ≠ u) by congruence.
      pose proof (wf_handle_response w (mkResponse res (Some u')) Hwf) as Hwf'.
      unfold exec in *. rewrite handle_response_deferred in * by done.
      cbn [fst] in *. split_and!; try done.
      * cbn. by rewrite lookup_insert_ne.
      * cbn. rewrite lookup_app_l; [done|]. by apply lookup_lt_Some in Hd.
      * cbn. rewrite lookup_app_l; [done|]. by apply lookup_lt_Some in Hc.
      * intros u'' d'' c''. cbn [_pending_responses].
        destruct (decide (u' = u'')) as [<-|Hne'].
        -- rewrite lookup_insert_eq. intros [= <- <-] _.
           apply lookup_lt_Some in Hd, Hc. lia.
        -- rewrite lookup_insert_ne by done. apply Honly.
  - unfold exec. by rewrite handle_response_plain by auto.
Qed.

Lemma settled_handle_response d x w response :
  settled d x w → settled d x (exec (handle_response response) w).
Proof.
  intros (Hwf & Hd & Hgone).
  pose proof (wf_handle_response w response Hwf) as Hwf'.
  destruct response as [res [u'|]].
  - destruct (decide (u' = "")) as [->|Hu].
    + unfold exec. by rewrite handle_response_plain by auto.
    + unfold exec in *. rewrite handle_response_deferred in * by done.
      cbn [fst] in *. split_and!; try done.
      * cbn. rewrite lookup_app_l; [done|]. by apply lookup_lt_Some in Hd.
      * intros u'' d'' c''. cbn [_pending_responses].
        destruct (decide (u' = u'')) as [<-|Hne'].
        -- rewrite lookup_insert_eq. intros [= <- <-].
           apply lookup_lt_Some in Hd. lia.
        -- rewrite lookup_insert_ne by done. apply Hgone.
  - unfold exec. by rewrite handle_response_plain by auto.
Qed.

Lemma absent_handle_response u w response :
  mc_deferred response ≠ Some u →
  _pending_responses w !! u = None →
  _pending_responses (exec (handle_response response) w) !! u = None.
Proof.
  intros Hne Hu. destruct response as [res [u'|]]; cbn in Hne.
  - destruct (decide (u' = "")) as [->|Hu'].
    + unfold exec. by rewrite handle_response_plain by auto.
    + unfold exec. rewrite handle_response_deferred by done. cbn.
      rewrite lookup_insert_ne; [done|congruence].
  - unfold exec. by rewrite handle_response_plain by auto.
Qed.

(** *** Timers *)

Lemma live_mark_called u d c deadline w c' :
  c' ≠ c → live u d c deadline w →
  live u d c deadline (set_reactor (mark_called c' (reactor w)) w).
Proof.
  intros Hne (Hwf & He & Hd & Hc & Honly). split_and!; try done.
  - by apply wf_mark_called.
  - cbn. by rewrite mark_called_ne.
Qed.

Lemma settled_mark_called d x w c :
  settled d x w → settled d x (set_reactor (mark_called c (reactor w)) w).
Proof. intros (Hwf & Hd & Hgone). split_and!; try done. by apply wf_mark_called. Qed.

(** The entry's own timer fires. *)
Lemma live_run_call_self u d c deadline w :
  live u d c deadline w → done_with u d (run_call c w).
Proof.
  intros (Hwf & He & Hd & Hc & Honly).
  rewrite (run_call_active w c _ u Hc) by done.
  set (w1 := set_reactor (mark_called c (reactor w)) w).
  assert (_pending_responses w1 !! u = Some (d, c)) as He1 by done.
  pose proof (fire_frame w1 u VNone (Some "timeout") d c He1)
    as (_ & Hp & _ & _ & _ & _ & _).
  split; [split_and!|].
  - by apply wf_fire, wf_mark_called.
  - eapply (fire_fires w1 u VNone (Some "timeout") d c); try done.
    + subst w1. cbn. by apply mark_called_eq.
    + done.
  - intros u' d' c'. rewrite Hp. intros [Hne Hl]%lookup_delete_Some.
    by apply (Honly u' d' c').
  - rewrite Hp. apply lookup_delete_eq.
Qed.

(** Another timer fires. *)
Lemma live_run_call_other u d c deadline w c' :
  c' ≠ c → live u d c deadline w →
  live u d c deadline (run_call c' w) ∨ done_with u d (run_call c' w).
Proof.
  intros Hne Hlive. unfold run_call.
  destruct (delayed (reactor w) !! c') as [dc|] eqn:Hdc; [|by left].
  destruct (dc_active dc); [|by left]. destruct (dc_func dc) as [u'].
  pose proof (live_mark_called u d c deadline w c' Hne Hlive) as Hlive1.
  destruct (decide (u' = u)) as [->|Hu].
  - right. by apply (live_fire_self u d c deadline _ VNone (Some "timeout")).
  - left. by apply live_fire_other.
Qed.

Lemma settled_run_call d x w c : settled d x w → settled d x (run_call c w).
Proof.
  intros Hs. unfold run_call.
  destruct (delayed (reactor w) !! c) as [dc|]; [|done].
  destruct (dc_active dc); [|done]. destruct (dc_func dc).
  by apply settled_fire, settled_mark_called.
Qed.

Lemma settled_run_calls d x l w :
  settled d x w → settled d x (foldl (λ w c, run_call c w) w l).
Proof.
  revert w. induction l as [|c l IH]; [done|]. intros w Hs. cbn.
  by apply IH, settled_run_call.
Qed.

Lemma absent_run_call u w c :
  _pending_responses w !! u = None →
  _pending_responses (run_call c w) !! u = None.
Proof.
  intros Hs. unfold run_call.
  destruct (delayed (reactor w) !! c) as [dc|]; [|done].
  destruct (dc_active dc); [|done]. destruct (dc_func dc).
  by apply absent_fire.
Qed.

Lemma done_with_run_calls u d l w :
  done_with u d w → done_with u d (foldl (λ w c, run_call c w) w l).
Proof.
  revert w. induction l as [|c l IH]; [done|]. intros w [Hs Ha]. cbn.
  apply IH. split; [by apply settled_run_call|by apply absent_run_call].
Qed.

Lemma live_run_calls u d c deadline l w :
  live u d c deadline w →
  let w' := foldl (λ w c, run_call c w) w l in
  (c ∈ l → done_with u d w') ∧ (live u d c deadline w' ∨ done_with u d w').
Proof.
  revert w. induction l as [|c' l IH]; intros w Hlive w'.
  - split; [by intros ?%elem_of_nil|by left].
  - subst w'. cbn [foldl]. destruct (decide (c' = c)) as [->|Hne].
    + pose proof (live_run_call_self u d c deadline w Hlive) as Hdone.
      pose proof (done_with_run_calls u d l _ Hdone). auto.
    + destruct (live_run_call_other u d c deadline w c' Hne Hlive) as [Hl|Hdone].
      * destruct (IH _ Hl) as [IH1 IH2]. split; [|done].
        intros [?|?]%elem_of_cons; [congruence|auto].
      * pose proof (done_with_run_calls u d l _ Hdone). auto.
Qed.

Lemma now_run_call c w : rightNow (reactor (run_call c w)) = rightNow (reactor w).
Proof.
  unfold run_call. destruct (delayed (reactor w) !! c) as [dc|]; [|done].
  destruct (dc_active dc); [|done]. destruct (dc_func dc).
  rewrite fire_now. cbn. apply mark_called_now.
Qed.

Lemma now_run_calls l w :
  rightNow (reactor (foldl (λ w c, run_call c w) w l)) = rightNow (reactor w).
Proof.
  revert w. induction l as [|c l IH]; [done|]. intros w. cbn.
  by rewrite IH, now_run_call.
Qed.

Lemma now_step w ev :
  rightNow (reactor (step w ev))
  = rightNow (reactor w) + match ev with Advance dt => dt | _ => 0 end.
Proof.
  destruct ev as [response|box|dt]; cbn [step].
  - destruct response as [res [u|]].
    + destruct (decide (u = "")) as [->|Hu].
      * unfold exec. rewrite handle_response_plain by auto. cbn. lia.
      * unfold exec. rewrite handle_response_deferred by done. cbn. lia.
    + unfold exec. rewrite handle_response_plain by auto. cbn. lia.
  - unfold receive_deferred_response. rewrite fire_now. lia.
  - unfold advance. by rewrite now_run_calls.
Qed.

Lemma elapsed_pos evs : 0 < elapsed evs → advances evs.
Proof.
  induction evs as [|ev evs IH]; unfold elapsed; cbn; [lia|].
  intros H. destruct ev as [| |dt].
  - apply Exists_cons_tl, IH. exact H.
  - apply Exists_cons_tl, IH. exact H.
  - apply Exists_cons_hd. eauto.
Qed.

Lemma now_run evs w :
  rightNow (reactor (run evs w)) = rightNow (reactor w) + elapsed evs.
Proof.
  revert w. induction evs as [|ev evs IH]; intros w.
  - cbn. lia.
  - unfold run in *. cbn [foldl]. rewrite IH, now_step. unfold elapsed. cbn.
    destruct ev; lia.
Qed.

(** *** One step of a trace *)

Lemma live_step u d c deadline w ev :
  silent_on u ev → live u d c deadline w →
  (∀ dt, ev = Advance dt → deadline ≤ rightNow (reactor w) + dt →
     done_with u d (step w ev))
  ∧ (live u d c deadline (step w ev) ∨ done_with u d (step w ev)).
Proof.
  intros Hsil Hlive.
  destruct ev as [response|box|dt]; cbn [step] in *; cbn in Hsil.
  - split; [done|]. left. by apply live_handle_response.
  - split; [done|]. left. by apply live_fire_other.
  - unfold advance in *.
    set (w1 := set_reactor (tick dt (reactor w)) w) in *.
    assert (live u d c deadline w1) as Hlive1.
    { destruct Hlive as (Hwf & He & Hd & Hc & Honly). by split_and!. }
    destruct (live_run_calls u d c deadline (due (reactor w1)) w1 Hlive1)
      as [H1 H2].
    split; [|done]. intros ? [= <-] Hge. apply H1. apply elem_of_due.
    destruct Hlive1 as (_ & _ & _ & Hc & _). eexists. split; [done|].
    split; [done|]. subst w1. cbn. lia.
Qed.

Lemma done_with_step u d w ev :
  silent_on u ev → done_with u d w → done_with u d (step w ev).
Proof.
  intros Hsil [Hs Ha]. destruct ev as [response|box|dt]; cbn [step]; cbn in Hsil.
  - split; [by apply settled_handle_response|by apply absent_handle_response].
  - split; [by apply settled_fire|by apply absent_fire].
  - unfold advance. apply done_with_run_calls. done.
Qed.

Lemma settled_step d x w ev : settled d x w → settled d x (step w ev).
Proof.
  intros Hs. destruct ev as [response|box|dt]; cbn [step].
  - by apply settled_handle_response.
  - by apply settled_fire.
  - unfold advance.
    assert (settled d x (set_reactor (tick dt (reactor w)) w)) as Hs1.
    { destruct Hs as (Hwf & Hd & Hg). split_and!; [|exact Hd|exact Hg].
      intros u' d' c'. apply Hwf. }
    by apply settled_run_calls.
Qed.

Lemma settled_run d x evs w : settled d x w → settled d x (run evs w).
Proof.
  revert w. induction evs as [|ev evs IH]; [done|]. intros w Hs.
  unfold run in *. cbn. by apply IH, settled_step.
Qed.

Lemma removals_settled u d x evs w :
  settled d x w → removals u d evs w = 0.
Proof.
  revert w. induction evs as [|ev evs IH]; [done|]. intros w Hs. cbn [removals].
  rewrite (settled_has_entry u d x w Hs). cbn.
  apply IH. by apply settled_step.
Qed.

Lemma removals_app u d evs1 evs2 w :
  removals u d (evs1 ++ evs2) w
  = removals u d evs1 w + removals u d evs2 (run evs1 w).
Proof.
  revert w. induction evs1 as [|ev evs1 IH]; [done|]. intros w. cbn [app removals].
  rewrite IH. unfold run. cbn [foldl]. lia.
Qed.

Lemma done_with_run u d evs w :
  Forall (silent_on u) evs → done_with u d w → done_with u d (run evs w).
Proof.
  intros Hsil. revert w. induction Hsil as [|ev evs Hev Hevs IH]; [done|].
  intros w Hd. unfold run in *. cbn [foldl]. by apply IH, done_with_step.
Qed.

(** Along a silent trace the entry is taken out at most once. *)
Lemma live_run u d c deadline evs w :
  Forall (silent_on u) evs →
  live u d c deadline w →
  (live u d c deadline (run evs w) ∧ removals u d evs w = 0)
  ∨ (done_with u d (run evs w) ∧ removals u d evs w = 1).
Proof.
  intros Hsil. revert w. induction Hsil as [|ev evs Hev Hevs IH]; intros w Hw.
  - left. done.
  - unfold run in *. cbn [foldl removals].
    rewrite (live_has_entry u d c deadline w) by done. cbn [andb].
    destruct (live_step u d c deadline w ev Hev Hw) as [_ [Hw'|Hd']].
    + rewrite (live_has_entry u d c deadline (step w ev)) by done. cbn.
      by apply IH.
    + right. pose proof Hd' as [Hs Ha].
      rewrite (settled_has_entry u d _ _ Hs). cbn.
      rewrite (removals_settled u d _ evs _ Hs). split; [|done].
      by apply (done_with_run u d evs).
Qed.

(** A silent trace during which the clock passes the deadline. *)
Lemma live_run_ripe u d c deadline evs w :
  Forall (silent_on u) evs →
  live u d c deadline w →
  deadline ≤ rightNow (reactor w) + elapsed evs →
  advances evs →
  done_with u d (run evs w).
Proof.
  intros Hsil. revert w. induction Hsil as [|ev evs Hev Hevs IH]; intros w Hw Hge Hadv.
  - by apply Exists_nil in Hadv.
  - unfold run in *. cbn [foldl].
    destruct (live_step u d c deadline w ev Hev Hw) as [Hripe Hnext].
    pose proof (now_step w ev) as Hnow.
    assert (elapsed (ev :: evs)
            = match ev with Advance dt => dt | _ => 0 end + elapsed evs) as Hel
      by done.
    destruct Hnext as [Hw'|Hd']; [|by apply (done_with_run u d evs)].
    destruct ev as [response|box|dt].
    + apply IH; [done|lia|]. apply Exists_cons in Hadv as [[dt [=]]|]; done.
    + apply IH; [done|lia|]. apply Exists_cons in Hadv as [[dt [=]]|]; done.
    + destruct (decide (deadline ≤ rightNow (reactor w) + dt)) as [Hr|Hr].
      * apply (done_with_run u d evs); [done|]. by apply (Hripe dt).
      * apply IH; [done|lia|]. apply elapsed_pos. lia.
Qed.

Lemma timeout_fire w u r f :
  timeout (exec (fire_pending_response u r f) w) = timeout w.
Proof.
  destruct (_pending_responses w !! u) as [[d c]|] eqn:H.
  - by apply (fire_frame w u r f) in H as (-> & _).
  - unfold exec. by rewrite fire_absent.
Qed.

Lemma timeout_run_calls l w :
  timeout (foldl (λ w c, run_call c w) w l) = timeout w.
Proof.
  revert w. induction l as [|c l IH]; [done|]. intros w. cbn [foldl].
  rewrite IH. unfold run_call.
  destruct (delayed (reactor w) !! c) as [dc|]; [|done].
  destruct (dc_active dc); [|done]. destruct (dc_func dc) as [u].
  by rewrite timeout_fire.
Qed.

Lemma timeout_step w ev : timeout (step w ev) = timeout w.
Proof.
  destruct ev as [response|box|dt]; cbn [step].
  - destruct response as [r [u|]].
    + destruct (decide (u = "")) as [->|?].
      * unfold exec. by rewrite handle_response_plain by auto.
      * unfold exec. by rewrite handle_response_deferred.
    + unfold exec. by rewrite handle_response_plain by auto.
  - apply timeout_fire.
  - unfold advance. by rewrite timeout_run_calls.
Qed.

Lemma timeout_run evs w : timeout (run evs w) = timeout w.
Proof.
  revert w. induction evs as [|ev evs IH]; [done|]. intros w.
  unfold run in *. cbn [foldl]. by rewrite IH, timeout_step.
Qed.

(** C3.  A deferred call is registered by [handle_response] under [u] with
    a new [Deferred] [d].  If the trace that follows delivers no
    [DeferredResponse] for [u] (and no answer uses [u] again) while the
    reactor's clock advances by the protocol's timeout or more, then [d]
    has failed with [MethodCallError("timeout")] and [u] is gone from
    [_pending_responses]; a [DeferredResponse] for [u] arriving afterwards
    leaves the whole protocol state unchanged; over the whole trace,
    whatever follows, the entry is taken out of the table exactly once and
    [d] keeps its result.  In any state, a second [DeferredResponse] for the
    uuid of one just handled changes nothing. *)
Theorem deferred_response_timeout (T : nat) (pre mid post : list event)
    (u : string) (res : value) :
  u ≠ "" →
  Forall (silent_on u) mid →
  T ≤ elapsed mid →
  advances mid →
  let w0 := run pre (init T) in
  let d := length (deferreds w0) in
  let w1 := exec (handle_response (mkResponse res (Some u))) w0 in
  let w2 := run mid w1 in
  handle_response (mkResponse res (Some u)) w0 = (w1, inr (inl d))
  ∧ has_entry u d w1 = true
  ∧ deferreds w1 !! d = Some None
  ∧ deferreds w2 !! d = Some (Some (Errback (Exn MethodCallError "timeout")))
  ∧ _pending_responses w2 !! u = None
  ∧ (∀ box, dr_uuid box = u → step w2 (Box box) = w2)
  ∧ removals u d (mid ++ post) w1 = 1
  ∧ deferreds (run post w2) !! d
    = Some (Some (Errback (Exn MethodCallError "timeout")))
  ∧ (∀ (w : state) box box', dr_uuid box' = dr_uuid box →
       step (step w (Box box)) (Box box') = step w (Box box)).
Proof.
  intros Hu Hsil HT Hadv w0 d w1 w2.
  assert (wf w0) as Hwf0 by apply wf_run, wf_init.
  assert (handle_response (mkResponse res (Some u)) w0 = (w1, inr (inl d))) as E.
  { subst w1. unfold exec. by rewrite handle_response_deferred. }
  assert (timeout w0 = T) as HT0 by (subst w0; by rewrite timeout_run).
  set (c := length (delayed (reactor w0))).
  set (t := rightNow (reactor w0) + T).
  assert (w1 = mkClient (timeout w0) (<[u := (d, c)]> (_pending_responses w0))
                 (deferreds w0 ++ [None])
                 (mkClock (rightNow (reactor w0))
                    (delayed (reactor w0)
                     ++ [mkDelayedCall t (FirePendingResponse u) false false]))) as E1.
  { subst w1 t. unfold exec. rewrite handle_response_deferred by done.
    by rewrite HT0. }
  assert (live u d c t w1) as Hlive.
  { split_and!.
    - subst w1. by apply wf_handle_response.
    - rewrite E1. cbn. apply lookup_insert_eq.
    - rewrite E1. cbn. by rewrite lookup_app_r, Nat.sub_diag.
    - rewrite E1. cbn. by rewrite lookup_app_r, Nat.sub_diag.
    - intros u' d' c'. rewrite E1. cbn. intros Hl Hne.
      rewrite lookup_insert_ne in Hl by done. apply Hwf0 in Hl. subst d c. lia. }
  assert (done_with u d w2) as [Hs Ha].
  { apply (live_run_ripe u d c t mid w1); try done. rewrite E1. cbn. subst t. lia. }
  split_and!.
  - done.
  - by apply (live_has_entry u d c t).
  - by destruct Hlive as (_ & _ & ? & _).
  - by destruct Hs as (_ & ? & _).
  - done.
  - intros box <-. cbn. unfold exec, receive_deferred_response. by rewrite fire_absent.
  - rewrite removals_app. fold w2.
    rewrite (removals_settled u d _ post _ Hs).
    destruct (live_run u d c t mid w1 Hsil Hlive) as [[Hl _]|[_ ->]]; [|done].
    exfalso. destruct Hl as (_ & Hl & _). fold w2 in Hl. congruence.
  - by destruct (settled_run d _ post w2 Hs) as (_ & ? & _).
  - intros w box box' Heq. cbn. unfold receive_deferred_response. rewrite Heq.
    set (w' := exec _ w).
    assert (_pending_responses w' !! dr_uuid box = None) as Hnone.
    { subst w'. destruct (_pending_responses w !! dr_uuid box) as [[d' c']|] eqn:H.
      - apply (fire_frame w _ (default VNone (dr_result box)) (dr_failure box)) in H as (_ & -> & _).
        apply lookup_delete_eq.
      - unfold exec. by rewrite fire_absent. }
    unfold exec at 1. by rewrite fire_absent.
Qed.
End ClientProofs.

Module ClientTraceProofs.
Import MethodCallClientProtocol ClientConnection ClientProofs.

Lemma fire_returns w u r f d c dc :
  _pending_responses w !! u = Some (d, c) →
  deferreds w !! d = Some None →
  delayed (reactor w) !! c = Some dc → dc_cancelled dc = false →
  snd (fire_pending_response u r f w) = inr tt.
Proof.
  intros Hu Hd Hc Hnc. destruct w as [T p h [now ds]]. destruct dc as [t fn cl cn].
  cbn in Hu, Hd, Hc, Hnc. subst cn.
  destruct cl, f; sym_exec client_red; try reflexivity; try congruence.
Qed.

Lemma raised_fire_absent w u r f :
  _pending_responses w !! u = None → raised (fire_pending_response u r f) w = None.
Proof. intros H. unfold raised. by rewrite fire_absent. Qed.

(** Firing the entry of [u] in a state that is sound but for the timeout
    of [u] itself, which may be the call that is running. *)
Lemma sound_fire_gen w u r f :
  wf w →
  (∀ u' d c, u' ≠ u → _pending_responses w !! u' = Some (d, c) →
     deferreds w !! d = Some None
     ∧ ∃ t, delayed (reactor w) !! c
            = Some (mkDelayedCall t (FirePendingResponse u') false false)
            ∧ t ≤ rightNow (reactor w) + timeout w) →
  (∀ d c, _pending_responses w !! u = Some (d, c) →
     deferreds w !! d = Some None
     ∧ ∃ t cl, delayed (reactor w) !! c
               = Some (mkDelayedCall t (FirePendingResponse u) cl false)) →
  (∀ u1 u2 d1 d2 c1 c2,
     _pending_responses w !! u1 = Some (d1, c1) →
     _pending_responses w !! u2 = Some (d2, c2) → u1 ≠ u2 → d1 ≠ d2) →
  sound (exec (fire_pending_response u r f) w)
  ∧ raised (fire_pending_response u r f) w = None.
Proof.
  intros Hwf Hothers Hself Hdist.
  destruct (_pending_responses w !! u) as [[d c]|] eqn:Hu.
  - destruct (Hself d c eq_refl) as (Hd & t & cl & Hc).
    pose proof (fire_frame w u r f d c Hu) as (HT & Hp & Hnow & _ & _ & Hds & Hcs).
    split.
    + split_and!.
      * by apply wf_fire.
      * intros u' d' c'. rewrite Hp. intros [Hne Hl]%lookup_delete_Some.
        destruct (Hothers u' d' c' (not_eq_sym Hne) Hl) as (Hd' & t' & Hc' & Ht').
        assert (d' ≠ d) as Hdd by by apply (Hdist u' u d' d c' c).
        assert (c' ≠ c) as Hcc.
        { intros ->. rewrite Hc in Hc'. congruence. }
        rewrite Hds, Hcs, Hnow, HT by done. eauto.
      * intros u1 u2 d1 d2 c1 c2. rewrite Hp.
        intros [_ H1]%lookup_delete_Some [_ H2]%lookup_delete_Some.
        by apply (Hdist u1 u2 d1 d2 c1 c2).
    + unfold raised. by rewrite (fire_returns w u r f d c _ Hu Hd Hc).
  - unfold exec. rewrite fire_absent by done. cbn [fst].
    split; [|by apply raised_fire_absent].
    split_and!; [done| |done].
    intros u' d c Hl. apply Hothers; [|done]. intros ->. congruence.
Qed.

Lemma sound_fire w u r f :
  sound w →
  sound (exec (fire_pending_response u r f) w)
  ∧ raised (fire_pending_response u r f) w = None.
Proof.
  intros (Hwf & Hent & Hdist). apply sound_fire_gen; try done.
  - intros u' d c _. apply Hent.
  - intros d c Hl. destruct (Hent u d c Hl) as (Hd & t & Hc & _). eauto.
Qed.

Lemma sound_handle_response w response :
  sound w →
  sound (exec (handle_response response) w)
  ∧ raised (handle_response response) w = None.
Proof.
  intros (Hwf & Hent & Hdist).
  destruct response as [res [u|]].
  2: { unfold exec, raised. by rewrite handle_response_plain by auto. }
  destruct (decide (u = "")) as [->|Hu].
  { unfold exec, raised. by rewrite handle_response_plain by auto. }
  pose proof (wf_handle_response w (mkResponse res (Some u)) Hwf) as Hwf'.
  unfold exec, raised in *. rewrite handle_response_deferred in * by done.
  cbn [fst snd] in *. split; [|done]. split_and!; [done| |].
  - intros u' d c. cbn [_pending_responses deferreds reactor delayed rightNow timeout].
    destruct (decide (u = u')) as [<-|Hne].
    + rewrite lookup_insert_eq. intros [= <- <-].
      rewrite !lookup_app_r, !Nat.sub_diag by done. cbn. eauto.
    + rewrite lookup_insert_ne by done. intros Hl.
      destruct (Hent u' d c Hl) as (Hd & t & Hc & Ht).
      rewrite !lookup_app_l by (by eapply lookup_lt_Some). eauto.
  - intros u1 u2 d1 d2 c1 c2. cbn [_pending_responses].
    destruct (decide (u = u1)) as [<-|H1], (decide (u = u2)) as [<-|H2]; try done.
    + rewrite lookup_insert_eq, lookup_insert_ne by done.
      intros [= <- <-] Hl _. apply Hwf in Hl. lia.
    + rewrite lookup_insert_eq, lookup_insert_ne by done.
      intros Hl [= <- <-] _. apply Hwf in Hl. lia.
    + rewrite !lookup_insert_ne by done. apply Hdist.
Qed.

Lemma sound_tick w dt : sound w → sound (set_reactor (tick dt (reactor w)) w).
Proof.
  intros (Hwf & Hent & Hdist). split_and!; [done| |done].
  intros u d c Hl. destruct (Hent u d c Hl) as (Hd & t & Hc & Ht).
  split; [done|]. exists t. split; [done|]. cbn. lia.
Qed.

Lemma sound_run_call w c :
  sound w → sound (run_call c w) ∧ run_call_raised c w = None.
Proof.
  intros Hs. pose proof Hs as (Hwf & Hent & Hdist).
  unfold run_call, run_call_raised.
  destruct (delayed (reactor w) !! c) as [dc|] eqn:Hc; [|done].
  destruct (dc_active dc) eqn:Ha; [|done].
  destruct (dc_func dc) as [u] eqn:Hf.
  apply sound_fire_gen.
  - by apply wf_mark_called.
  - intros u' d c' Hne Hl. cbn [set_reactor _pending_responses deferreds reactor timeout] in *.
    destruct (Hent u' d c' Hl) as (Hd & t & Hc' & Ht).
    assert (c' ≠ c) as Hcc.
    { intros ->. rewrite Hc in Hc'. injection Hc' as ->. cbn in Hf. congruence. }
    rewrite mark_called_ne, mark_called_now by done. eauto.
  - intros d c' Hl. cbn [set_reactor _pending_responses deferreds reactor] in *.
    destruct (Hent u d c' Hl) as (Hd & t & Hc' & Ht). split; [done|].
    destruct (decide (c' = c)) as [->|Hcc].
    + rewrite (mark_called_eq c _ _ Hc'). cbn. eauto.
    + rewrite mark_called_ne by done. eauto.
  - done.
Qed.

Lemma sound_run_calls l w :
  sound w →
  sound (foldl (λ w c, run_call c w) w l) ∧ run_calls_raised l w = [].
Proof.
  revert w. induction l as [|c l IH]; [done|]. intros w Hs.
  cbn [foldl run_calls_raised].
  destruct (sound_run_call w c Hs) as [Hs' ->].
  destruct (IH _ Hs') as [? ->]. done.
Qed.

Lemma sound_step w ev : sound w → sound (step w ev) ∧ step_raised w ev = [].
Proof.
  intros Hs. destruct ev as [response|box|dt]; cbn [step step_raised].
  - destruct (sound_handle_response w response Hs) as [? ->]. done.
  - unfold receive_deferred_response.
    destruct (sound_fire w (dr_uuid box) (default VNone (dr_result box))
                (dr_failure box) Hs) as [? ->]. done.
  - unfold advance. cbn zeta. by apply sound_run_calls, sound_tick.
Qed.

Lemma sound_init T : sound (init T).
Proof.
  split_and!; [apply wf_init| |]; intros *; unfold init; cbn;
    by rewrite lookup_empty.
Qed.

Lemma sound_run evs w : sound w → sound (run evs w) ∧ errors evs w = [].
Proof.
  revert w. induction evs as [|ev evs IH]; [done|]. intros w Hs.
  unfold run in *. cbn [foldl errors].
  destruct (sound_step w ev Hs) as [Hs' ->]. by apply IH.
Qed.

(** X6.  On a client connection, from [__init__] and over any sequence of
    answers, [DeferredResponse]s and lapses of time, neither
    [handle_response], nor [receive_deferred_response], nor a timeout run by
    the reactor raises: no [Deferred] is fired twice and no delayed call is
    cancelled twice. *)
Theorem client_handlers_never_raise (T : nat) (evs : list event) :
  errors evs (init T) = [].
Proof. apply sound_run, sound_init. Qed.

(** X7.  In every reachable state of a client connection, an entry
    [(deferred, call)] of [_pending_responses] under [uuid] has a [Deferred]
    that has not fired and a delayed call that is still pending, made for
    that uuid and due within [timeout] seconds; two entries share neither
    their [Deferred] nor their delayed call. *)
Theorem pending_responses_are_live (T : nat) (evs : list event)
    (u : string) (d c : nat) :
  let w := run evs (init T) in
  _pending_responses w !! u = Some (d, c) →
  deferreds w !! d = Some None
  ∧ active c (reactor w) = true
  ∧ (∃ dc, delayed (reactor w) !! c = Some dc
           ∧ dc_func dc = FirePendingResponse u
           ∧ dc_time dc ≤ rightNow (reactor w) + T)
  ∧ (∀ u' d' c', _pending_responses w !! u' = Some (d', c') → u' ≠ u →
       d' ≠ d ∧ c' ≠ c).
Proof.
  intros w Hl.
  destruct (sound_run evs (init T) (sound_init T)) as [(Hwf & Hent & Hdist) _].
  fold w in Hwf, Hent, Hdist.
  destruct (Hent u d c Hl) as (Hd & t & Hc & Ht).
  assert (timeout w = T) as HT by apply timeout_run.
  split_and!.
  - done.
  - unfold active. by rewrite Hc.
  - eexists. split; [done|]. cbn. split; [done|lia].
  - intros u' d' c' Hl' Hne. split; [by apply (Hdist u' u d' d c' c)|].
    intros ->. destruct (Hent u' d' c Hl') as (_ & t' & Hc' & _).
    rewrite Hc in Hc'. congruence.
Qed.

(** *** What the delayed calls are bound to *)

Lemma bindings_try_cancel c (r : Clock timer) :
  dc_func <$> delayed (try_cancel c r) = dc_func <$> delayed r.
Proof.
  unfold try_cancel. destruct (cancel c r) as [e|r'] eqn:Hc; [done|].
  apply cancel_inr in Hc as (dc & Hl & _ & _ & ->). cbn [delayed].
  rewrite list_fmap_insert. cbn. apply list_insert_id.
  by rewrite list_lookup_fmap, Hl.
Qed.

Lemma bindings_mark_called c (r : Clock timer) :
  dc_func <$> delayed (mark_called c r) = dc_func <$> delayed r.
Proof.
  unfold mark_called. destruct (delayed r !! c) as [dc|] eqn:Hl; [|done].
  cbn [delayed]. rewrite list_fmap_insert. cbn. apply list_insert_id.
  by rewrite list_lookup_fmap, Hl.
Qed.

Lemma bindings_fire w u r f :
  bindings (exec (fire_pending_response u r f) w) = bindings w.
Proof.
  unfold bindings. destruct (_pending_responses w !! u) as [[d c]|] eqn:H.
  - rewrite (fire_present _ _ _ _ _ _ H). cbn zeta. cbn [reactor].
    destruct (called c (reactor w)); [done|]. apply bindings_try_cancel.
  - unfold exec. by rewrite fire_absent.
Qed.

Lemma bindings_run_call c w : bindings (run_call c w) = bindings w.
Proof.
  unfold run_call. destruct (delayed (reactor w) !! c) as [dc|]; [|done].
  destruct (dc_active dc); [|done]. destruct (dc_func dc) as [u].
  rewrite bindings_fire. unfold bindings. cbn. apply bindings_mark_called.
Qed.

Lemma bindings_run_calls l w :
  bindings (foldl (λ w c, run_call c w) w l) = bindings w.
Proof.
  revert w. induction l as [|c l IH]; [done|]. intros w. cbn [foldl].
  by rewrite IH, bindings_run_call.
Qed.

(** A step makes at most one delayed call, for the uuid it registers. *)
Lemma bindings_step w ev :
  ∃ extra, bindings (step w ev) = bindings w ++ extra
    ∧ ∀ u, silent_on u ev → FirePendingResponse u ∉ extra.
Proof.
  destruct ev as [response|box|dt]; cbn [step].
  - destruct response as [res [u'|]].
    + destruct (decide (u' = "")) as [->|Hu].
      * exists []. unfold exec. rewrite handle_response_plain by auto.
        rewrite app_nil_r. split; [done|]. intros u _. apply not_elem_of_nil.
      * exists [FirePendingResponse u']. unfold exec.
        rewrite handle_response_deferred by done. unfold bindings. cbn.
        rewrite fmap_app. split; [done|]. intros u Hsil.
        cbn in Hsil. intros [= ->]%list_elem_of_singleton. congruence.
    + exists []. unfold exec. rewrite handle_response_plain by auto.
      rewrite app_nil_r. split; [done|]. intros u _. apply not_elem_of_nil.
  - exists []. unfold receive_deferred_response. rewrite bindings_fire, app_nil_r.
    split; [done|]. intros u _. apply not_elem_of_nil.
  - exists []. unfold advance. rewrite bindings_run_calls, app_nil_r.
    split; [done|]. intros u _. apply not_elem_of_nil.
Qed.

Lemma absent_step u w ev :
  silent_on u ev → _pending_responses w !! u = None →
  _pending_responses (step w ev) !! u = None.
Proof.
  intros Hsil Ha. destruct ev as [response|box|dt]; cbn [step]; cbn in Hsil.
  - by apply absent_handle_response.
  - by apply absent_fire.
  - unfold advance.
    assert (∀ l w', _pending_responses w' !! u = None →
              _pending_responses (foldl (λ w c, run_call c w) w' l) !! u = None) as H.
    { induction l as [|c l IH]; [done|]. intros w' Hw'. cbn. by apply IH, absent_run_call. }
    by apply H.
Qed.

Lemma unused_run u evs w :
  Forall (silent_on u) evs → unused u w → unused u (run evs w).
Proof.
  intros Hsil. revert w. induction Hsil as [|ev evs Hev Hevs IH]; [done|].
  intros w [Ha Hb]. unfold run in *. cbn [foldl]. apply IH. split.
  - by apply absent_step.
  - destruct (bindings_step w ev) as (extra & -> & Hex).
    intros [?|?]%elem_of_app; [done|]. by apply (Hex u).
Qed.

Lemma unused_init u T : unused u (init T).
Proof. split; [done|]. unfold bindings, init. cbn. apply not_elem_of_nil. Qed.

Lemma sole_step u c w ev :
  silent_on u ev → c < length (bindings w) → sole u c w → sole u c (step w ev).
Proof.
  intros Hsil Hlt Hsole c'. destruct (bindings_step w ev) as (extra & -> & Hex).
  intros Hl. destruct (decide (c' < length (bindings w))) as [Hc'|Hc'].
  - rewrite lookup_app_l in Hl by done. by apply Hsole.
  - rewrite lookup_app_r in Hl by lia. apply list_elem_of_lookup_2 in Hl.
    by apply Hex in Hl.
Qed.

(** The timeout of the entry is not due: a step leaves the entry alone. *)
Lemma live_sole_step u d c deadline w ev :
  silent_on u ev → live u d c deadline w → sole u c w →
  rightNow (reactor (step w ev)) < deadline →
  live u d c deadline (step w ev) ∧ sole u c (step w ev).
Proof.
  intros Hsil Hlive Hsole Hnow.
  assert (c < length (bindings w)) as Hlt.
  { destruct Hlive as (_ & _ & _ & Hc & _). unfold bindings.
    rewrite length_fmap. by apply lookup_lt_Some in Hc. }
  split; [|by apply sole_step].
  destruct ev as [response|box|dt]; cbn [step] in *; cbn in Hsil.
  - by apply live_handle_response.
  - by apply live_fire_other.
  - unfold advance in *. rewrite now_run_calls in Hnow. cbn in Hnow.
    set (w1 := set_reactor (tick dt (reactor w)) w) in *.
    assert (live u d c deadline w1) as Hlive1.
    { destruct Hlive as (Hwf & He & Hd & Hc & Honly). by split_and!. }
    assert (c ∉ due (reactor w1)) as Hnot.
    { intros (dc & Hl & _ & Ht)%elem_of_due.
      destruct Hlive1 as (_ & _ & _ & Hc & _). rewrite Hc in Hl.
      injection Hl as <-. cbn in Ht. lia. }
    assert (sole u c w1) as Hsole1 by done.
    revert Hnot Hlive1 Hsole1. generalize (due (reactor w1)). clear Hnow.
    generalize w1. clear w1 Hlive Hsole Hlt.
    intros w1 l. revert w1. induction l as [|c' l IH]; [done|].
    intros w1 Hnot Hlive Hsole. cbn [foldl].
    apply not_elem_of_cons in Hnot as [Hne Hnot]. apply IH; [done| |].
    + unfold run_call.
      destruct (delayed (reactor w1) !! c') as [dc|] eqn:Hdc; [|done].
      destruct (dc_active dc); [|done]. destruct (dc_func dc) as [u'] eqn:Hf.
      apply live_fire_other; [|by apply live_mark_called].
      intros ->. apply Hne. symmetry. apply Hsole. unfold bindings.
      by rewrite list_lookup_fmap, Hdc, <- Hf.
    + intros c''. rewrite bindings_run_call. apply Hsole.
Qed.

Lemma live_sole_run u d c deadline evs w :
  Forall (silent_on u) evs → live u d c deadline w → sole u c w →
  rightNow (reactor w) + elapsed evs < deadline →
  live u d c deadline (run evs w) ∧ sole u c (run evs w).
Proof.
  intros Hsil. revert w. induction Hsil as [|ev evs Hev Hevs IH]; [done|].
  intros w Hlive Hsole Hnow. unfold run in *. cbn [foldl].
  assert (elapsed (ev :: evs)
          = match ev with Advance dt => dt | _ => 0 end + elapsed evs) as Hel
    by done.
  pose proof (now_step w ev) as Hstep.
  destruct (live_sole_step u d c deadline w ev) as [Hlive' Hsole']; [done..|lia|].
  apply IH; [done|done|lia].
Qed.

(** The entry that [handle_response] makes for a uuid not used before. *)
Lemma live_registered u res w :
  u ≠ "" → wf w → unused u w →
  let d := length (deferreds w) in
  let c := length (delayed (reactor w)) in
  let w1 := exec (handle_response (mkResponse res (Some u))) w in
  live u d c (rightNow (reactor w) + timeout w) w1 ∧ sole u c w1
  ∧ rightNow (reactor w1) = rightNow (reactor w).
Proof.
  intros Hu Hwf [Ha Hb] d c w1.
  pose proof (wf_handle_response w (mkResponse res (Some u)) Hwf) as Hwf1.
  subst w1. unfold exec in *. rewrite handle_response_deferred in * by done.
  cbn [fst] in *. split_and!; [split_and!| |done].
  - done.
  - cbn. apply lookup_insert_eq.
  - cbn. by rewrite lookup_app_r, Nat.sub_diag.
  - cbn. by rewrite lookup_app_r, Nat.sub_diag.
  - intros u' d' c'. cbn. intros Hl Hne.
    rewrite lookup_insert_ne in Hl by done. apply Hwf in Hl. subst d c. lia.
  - intros c'. unfold bindings in *. cbn. rewrite fmap_app. cbn.
    intros Hl. destruct (decide (c' < length (dc_func <$> delayed (reactor w)))) as [Hlt|Hge].
    + rewrite lookup_app_l in Hl by done. apply list_elem_of_lookup_2 in Hl. done.
    + rewrite lookup_app_r in Hl by lia. rewrite length_fmap in *.
      apply lookup_lt_Some in Hl. cbn in Hl. subst c. lia.
Qed.

(** X8.  A deferred answer whose [DeferredResponse] arrives before
    [timeout] seconds have passed: [handle_response] returns a new
    [Deferred], which stays unfired, with its entry and a pending timeout,
    while nothing for that uuid arrives; the [DeferredResponse] fires it
    with [{"result": result}], or with [MethodCallError(failure)] when a
    failure is given, removes the entry and cancels the timeout, which has
    not run; nothing that happens afterwards changes the result. *)
Theorem deferred_response_before_timeout (T : nat) (pre mid post : list event)
    (u : string) (res : value) (box : DeferredResponse) :
  u ≠ "" →
  Forall (silent_on u) pre →
  Forall (silent_on u) mid →
  elapsed mid < T →
  dr_uuid box = u →
  let w0 := run pre (init T) in
  let d := length (deferreds w0) in
  let c := length (delayed (reactor w0)) in
  let w1 := exec (handle_response (mkResponse res (Some u))) w0 in
  let w2 := run mid w1 in
  let w3 := step w2 (Box box) in
  let x := payload (default VNone (dr_result box)) (dr_failure box) in
  handle_response (mkResponse res (Some u)) w0 = (w1, inr (inl d))
  ∧ deferreds w2 !! d = Some None
  ∧ has_entry u d w2 = true
  ∧ active c (reactor w2) = true
  ∧ deferreds w3 !! d = Some (Some x)
  ∧ _pending_responses w3 !! u = None
  ∧ (∃ dc, delayed (reactor w3) !! c = Some dc
           ∧ dc_cancelled dc = true ∧ dc_called dc = false)
  ∧ deferreds (run post w3) !! d = Some (Some x).
Proof.
  intros Hu Hpre Hmid HT Hbox w0 d c w1 w2 w3 x.
  assert (wf w0) as Hwf0 by apply wf_run, wf_init.
  assert (unused u w0) as Hun by by apply unused_run, unused_init.
  assert (timeout w0 = T) as HT0 by (subst w0; by rewrite timeout_run).
  destruct (live_registered u res w0 Hu Hwf0 Hun) as (Hlive1 & Hsole1 & Hnow1).
  fold d c w1 in Hlive1, Hsole1, Hnow1. rewrite HT0 in Hlive1.
  destruct (live_sole_run u d c _ mid w1 Hmid Hlive1 Hsole1) as [Hlive2 _];
    [lia|]. fold w2 in Hlive2.
  pose proof Hlive2 as (Hwf2 & He2 & Hd2 & Hc2 & _).
  destruct (live_fire_self u d c _ w2 (default VNone (dr_result box))
              (dr_failure box) Hlive2) as [Hs3 Ha3].
  assert (w3 = exec (fire_pending_response u (default VNone (dr_result box))
                       (dr_failure box)) w2) as E3.
  { subst w3. cbn [step]. unfold receive_deferred_response. by rewrite Hbox. }
  rewrite <- E3 in Hs3, Ha3.
  split_and!.
  - subst w1. unfold exec. by rewrite handle_response_deferred.
  - done.
  - by apply (live_has_entry u d c (rightNow (reactor w0) + T)).
  - unfold active. by rewrite Hc2.
  - by destruct Hs3 as (_ & ? & _).
  - done.
  - rewrite E3, (fire_present _ _ _ _ _ _ He2). cbn zeta. cbn [reactor].
    assert (called c (reactor w2) = false) as -> by (unfold called; by rewrite Hc2).
    rewrite (try_cancel_active c _ _ Hc2) by done. eauto.
  - by destruct (settled_run d x post w3 Hs3) as (_ & ? & _).
Qed.
End ClientTraceProofs.

(** ** The proxy *)

Module RemoteProofs.
Import RemoteObject.

Ltac remote_red :=
  cbv beta iota zeta delta
    [bind ret raise gets modify swallow exec lift_either lift_alloc fst snd
     _handle_response _handle_failure send_method_call add_handlers
     call_method _retry _handle_reconnect cancel_call complete on_answer
     set_protocol set_pending set_deferreds set_reactor set_lost
     set_outstanding set_sent
     _protocol _retry_on_reconnect _timeout _pending_requests deferreds
     reactor lost outstanding sent
     h_method h_args h_kwargs h_deferred h_call
     rq_method rq_args rq_kwargs rq_call
     rightNow delayed dc_time dc_func dc_called dc_cancelled dc_active
     called active cancel try_cancel cancels fire_deferred try_fire
     new_deferred callLater mark_called tick negb andb orb
     transport_failure exn_type exn_str timeout_failure].

(** The branch that gives up: pop, cancel, errback. *)
Lemma handle_failure_propagate w failure method args kwargs d call :
  exn_type failure = MethodCallError ∨ _retry_on_reconnect w = false →
  exec (_handle_failure failure method args kwargs d call) w
  = let rc := match call with
              | Some c => try_cancel c (reactor w)
              | None => reactor w
              end in
    let raised := match call with
                  | Some c => negb (cancels c (reactor w))
                  | None => false
                  end in
    mkRemote (_protocol w) (_retry_on_reconnect w) (_timeout w)
      (delete d (_pending_requests w))
      (if raised then deferreds w
       else try_fire d (Errback failure) (deferreds w))
      rc (lost w) (outstanding w) (sent w).
Proof.
  intros Hor. destruct w as [pr retry t p h [now ds] l o s].
  destruct failure as [ty msg]. cbn in Hor.
  assert (bool_decide (ty = MethodCallError) || negb retry = true) as Hb.
  { destruct Hor as [->| ->]; [by rewrite bool_decide_eq_true_2|].
    by rewrite orb_true_r. }
  assert (bool_decide (is_Some (p !! d)) = true ∧ is_Some (p !! d)
          ∨ bool_decide (is_Some (p !! d)) = false ∧ delete d p = p) as Hbd.
  { destruct (p !! d) as [rq|] eqn:Hd.
    - left. split; [by apply bool_decide_eq_true_2|done].
    - right. split; [|by apply delete_id].
      apply bool_decide_eq_false_2. by intros [? ?]. }
  unfold _handle_failure, exec, bind, gets.
  cbn [_retry_on_reconnect _pending_requests exn_type fst].
  rewrite Hb. clear Hb Hor.
  destruct Hbd as [[Hbd _]|[Hbd Hdel]];
    sym_exec remote_red; rewrite ?Hdel; reflexivity.
Qed.

(** The branch that keeps the request for the next connection. *)
Lemma handle_failure_store w failure method args kwargs d call :
  exn_type failure ≠ MethodCallError → _retry_on_reconnect w = true →
  _handle_failure failure method args kwargs d call w
  = match _timeout w, call with
    | Some (S n), None =>
        (mkRemote (_protocol w) (_retry_on_reconnect w) (_timeout w)
           (<[d := mkRequest method args kwargs
                     (Some (length (delayed (reactor w))))]>
              (_pending_requests w))
           (deferreds w)
           (mkClock (rightNow (reactor w))
              (delayed (reactor w)
               ++ [mkDelayedCall (rightNow (reactor w) + S n)
                     (HandleFailureTimeout method args kwargs d) false false]))
           (lost w) (outstanding w) (sent w), inr tt)
    | _, _ =>
        (set_pending (<[d := mkRequest method args kwargs call]>
                        (_pending_requests w)) w, inr tt)
    end.
Proof.
  intros Hty Hretry. destruct w as [pr retry t p h [now ds] l o s].
  destruct failure as [ty msg]. cbn in Hty, Hretry. subst retry.
  unfold _handle_failure, exec, bind, gets. cbn [_retry_on_reconnect exn_type fst].
  rewrite bool_decide_eq_false_2 by done. cbn [negb orb].
  destruct t as [[|n]|], call as [c|]; reflexivity.
Qed.

Lemma handle_response_eq w response d call :
  exec (_handle_response response d call) w
  = let rc := match call with
              | Some c => try_cancel c (reactor w)
              | None => reactor w
              end in
    let raised := match call with
                  | Some c => negb (cancels c (reactor w))
                  | None => false
                  end in
    mkRemote (_protocol w) (_retry_on_reconnect w) (_timeout w)
      (_pending_requests w)
      (if raised then deferreds w
       else try_fire d (Callback (mc_result response)) (deferreds w))
      rc (lost w) (outstanding w) (sent w).
Proof.
  destruct w as [pr retry t p h [now ds] l o s].
  sym_exec remote_red; reflexivity.
Qed.

(** [_handle_response] raises nothing for a request that is still live. *)
Lemma handle_response_returns w response d call :
  deferreds w !! d = Some None →
  (∀ c, call = Some c → active c (reactor w) = true) →
  snd (_handle_response response d call w) = inr tt.
Proof.
  intros Hd Hc. unfold _handle_response, cancel_call, bind, lift_either.
  destruct call as [c|].
  - specialize (Hc c eq_refl). unfold active in Hc.
    destruct (delayed (reactor w) !! c) as [dc|] eqn:Hl; [|done].
    rewrite (cancel_active c _ dc) by done.
    cbn [deferreds set_reactor]. by rewrite fire_deferred_unfired.
  - unfold ret. by rewrite fire_deferred_unfired.
Qed.

Lemma on_answer_exec w response h :
  exec (on_answer response h) w
  = match snd (_handle_response response (h_deferred h) (h_call h) w) with
    | inl e =>
        exec (_handle_failure e (h_method h) (h_args h) (h_kwargs h)
                (h_deferred h) (h_call h))
          (exec (_handle_response response (h_deferred h) (h_call h)) w)
    | inr _ => exec (_handle_response response (h_deferred h) (h_call h)) w
    end.
Proof.
  unfold on_answer, exec.
  by destruct (_handle_response response (h_deferred h) (h_call h) w)
    as [w' [e|[]]].
Qed.

(** For a request that is still live the errback stays out of it. *)
Lemma on_answer_live w response h :
  deferreds w !! h_deferred h = Some None →
  (∀ c, h_call h = Some c → active c (reactor w) = true) →
  exec (on_answer response h) w
  = exec (_handle_response response (h_deferred h) (h_call h)) w.
Proof.
  intros Hd Hc. rewrite on_answer_exec.
  by rewrite handle_response_returns.
Qed.

Lemma call_method_gave_up w reason method args kwargs :
  _protocol w = GaveUp reason →
  call_method method args kwargs w
  = (w, inl (Exn AttributeError "send_method_call")).
Proof.
  intros H. unfold call_method, send_method_call, bind, gets. by rewrite H.
Qed.

Lemma call_method_connected w p method args kwargs :
  _protocol w = Protocol p → lost w !! p = None →
  call_method method args kwargs w
  = (mkRemote (_protocol w) (_retry_on_reconnect w) (_timeout w)
       (_pending_requests w) (deferreds w ++ [None]) (reactor w) (lost w)
       (outstanding w
        ++ [Some (mkHandlers method args kwargs (length (deferreds w)) None)])
       (sent w ++ [(p, method, args, kwargs)]),
     inr (length (deferreds w))).
Proof.
  intros Hp Hl. destruct w as [pr retry t pd h rc l o s]. cbn in Hp, Hl. subst pr.
  unfold call_method, send_method_call, bind, gets, modify, ret, lift_alloc,
    add_handlers. cbn [_protocol lost]. rewrite Hl.
  cbn -[insert]. rewrite insert_app_r_alt by done.
  by rewrite Nat.sub_diag.
Qed.

Lemma call_method_disconnected w p reason method args kwargs :
  _protocol w = Protocol p → lost w !! p = Some reason →
  call_method method args kwargs w
  = (exec (_handle_failure (transport_failure reason) method args kwargs
             (length (deferreds w)) None)
          (set_deferreds (deferreds w ++ [None]) w),
     inr (length (deferreds w))).
Proof.
  intros Hp Hl. destruct w as [pr retry t pd h rc l o s]. cbn in Hp, Hl. subst pr.
  unfold call_method, send_method_call, bind, gets, modify, ret, lift_alloc,
    add_handlers, swallow. cbn [_protocol lost]. rewrite Hl. reflexivity.
Qed.

Lemma run_timeout_call_active w c dc method args kwargs d :
  delayed (reactor w) !! c = Some dc → dc_active dc = true →
  dc_func dc = HandleFailureTimeout method args kwargs d →
  run_call c w
  = exec (_handle_failure timeout_failure method args kwargs d None)
      (set_reactor (mark_called c (reactor w)) w).
Proof. intros H1 H2 H3. unfold run_call. by rewrite H1, H2, H3. Qed.

Lemma try_cancel_inactive {A} c (r : Clock A) : active c (try_cancel c r) = false.
Proof.
  unfold active, try_cancel. destruct (cancel c r) as [e|r'] eqn:Hc.
  - unfold cancel in Hc. destruct (delayed r !! c) as [dc|]; [|done].
    unfold dc_active. destruct (dc_cancelled dc); [by rewrite andb_false_r|].
    by destruct (dc_called dc).
  - apply cancel_inr in Hc as (dc & Hl & _ & _ & ->). cbn [delayed].
    rewrite list_lookup_insert_eq by (by apply lookup_lt_Some in Hl). done.
Qed.

Lemma cancels_active {A} c (r : Clock A) : active c r = true → cancels c r = true.
Proof.
  unfold active, cancels. destruct (delayed r !! c) as [dc|] eqn:Hl; [|done].
  intros Ha. by rewrite (cancel_active c r dc).
Qed.

(** C4.  [_handle_failure], for any failure of a [MethodCall].  If the
    failure is a [MethodCallError] or retry-on-reconnect is off: the entry
    of [d] is removed from [_pending_requests], the timeout call passed in
    is no longer pending afterwards (it is cancelled if it was active), no
    delayed call is added, and the failure is passed to [d] (given that [d]
    has not fired and that call, if any, is still active).  Otherwise the
    request [(method, args, kwargs, call)] is stored under [d], other
    entries and all [Deferred]s untouched; a delayed call is added exactly
    when a timeout is set (non-zero) and no call was passed in, it is due
    after the timeout, its handle is what gets stored, and when it runs it
    re-enters [_handle_failure] with [MethodCallError("timeout")]. *)
Theorem handle_failure_spec (w : state) (failure : exn) (method : string)
    (args : list value) (kwargs : list (string * value)) (d : nat)
    (call : option nat) :
  let w' := exec (_handle_failure failure method args kwargs d call) w in
  (exn_type failure = MethodCallError ∨ _retry_on_reconnect w = false →
     _pending_requests w' = delete d (_pending_requests w)
     ∧ (∀ c, call = Some c →
          active c (reactor w') = false
          ∧ (active c (reactor w) = true →
             ∃ dc, delayed (reactor w') !! c = Some dc
                   ∧ dc_cancelled dc = true))
     ∧ length (delayed (reactor w')) = length (delayed (reactor w))
     ∧ ((call = None ∨ ∃ c, call = Some c ∧ active c (reactor w) = true) →
        deferreds w !! d = Some None →
        deferreds w' !! d = Some (Some (Errback failure))))
  ∧ (exn_type failure ≠ MethodCallError → _retry_on_reconnect w = true →
     deferreds w' = deferreds w
     ∧ (∀ d', d' ≠ d → _pending_requests w' !! d' = _pending_requests w !! d')
     ∧ (∀ secs, _timeout w = Some (S secs) → call = None →
          _pending_requests w' !! d
          = Some (mkRequest method args kwargs
                    (Some (length (delayed (reactor w)))))
          ∧ delayed (reactor w')
            = delayed (reactor w)
              ++ [mkDelayedCall (rightNow (reactor w) + S secs)
                    (HandleFailureTimeout method args kwargs d) false false])
     ∧ (_timeout w = None ∨ _timeout w = Some 0 ∨ call ≠ None →
          _pending_requests w' !! d = Some (mkRequest method args kwargs call)
          ∧ reactor w' = reactor w))
  ∧ (∀ w1 c dc,
       delayed (reactor w1) !! c = Some dc → dc_active dc = true →
       dc_func dc = HandleFailureTimeout method args kwargs d →
       run_call c w1
       = exec (_handle_failure (Exn MethodCallError "timeout") method args
                 kwargs d None)
           (set_reactor (mark_called c (reactor w1)) w1)).
Proof.
  intros w'. split_and!.
  - intros Hor. subst w'. rewrite handle_failure_propagate by done.
    cbn zeta. cbn [_pending_requests reactor deferreds]. split_and!.
    + done.
    + intros c ->. split; [apply try_cancel_inactive|].
      unfold active. destruct (delayed (reactor w) !! c) as [dc|] eqn:Hl; [|done].
      intros Ha. rewrite (try_cancel_active c _ dc) by done. eauto.
    + destruct call as [c|]; [apply try_cancel_length|done].
    + intros Hcall Hd.
      assert (match call with
              | Some c => negb (cancels c (reactor w))
              | None => false
              end = false) as ->.
      { destruct Hcall as [->|(c & -> & Ha)]; [done|].
        by rewrite cancels_active. }
      by apply try_fire_unfired.
  - intros Hty Hretry. subst w'. unfold exec.
    rewrite handle_failure_store by done. split_and!.
    + by destruct (_timeout w) as [[|n]|], call.
    + intros d' Hne.
      destruct (_timeout w) as [[|n]|], call; cbn; by rewrite lookup_insert_ne.
    + intros secs -> ->. cbn. by rewrite lookup_insert_eq.
    + intros Hc.
      assert (match _timeout w, call with
              | Some (S _), None => False
              | _, _ => True
              end) as Hm.
      { destruct Hc as [->|[->|Hc]]; [done|done|].
        destruct (_timeout w) as [[|n]|], call; done. }
      destruct (_timeout w) as [[|n]|], call; try done;
        cbn; by rewrite lookup_insert_eq.
  - intros w1 c dc. apply run_timeout_call_active.
Qed.

(** *** Retrying *)

Lemma retry_loop_connected reqs w p :
  _protocol w = Protocol p → lost w !! p = None →
  retry_loop reqs w
  = (set_sent (sent w ++ (box_of p <$> reqs))
       (set_outstanding (outstanding w ++ (Some ∘ handlers_of <$> reqs)) w),
     inr tt).
Proof.
  revert w. induction reqs as [|[d rq] reqs IH]; intros w Hp Hl.
  - destruct w. cbn. by rewrite !app_nil_r.
  - cbn [retry_loop].
    unfold bind at 1. unfold send_method_call at 1. unfold bind at 1, gets at 1.
    rewrite Hp. unfold bind at 1, gets at 1. rewrite Hl.
    unfold bind at 1, gets at 1. unfold bind at 1, modify at 1, ret at 1.
    unfold bind at 1. unfold add_handlers at 1, modify at 1.
    rewrite IH by done.
    destruct w as [pr retry t pd h rc l o s].
    cbn -[insert]. rewrite insert_app_r_alt by done. rewrite Nat.sub_diag.
    cbn. by rewrite <- !app_assoc.
Qed.

Lemma handle_failure_store_plain w failure method args kwargs d call :
  exn_type failure ≠ MethodCallError → _retry_on_reconnect w = true →
  call ≠ None ∨ _timeout w = None ∨ _timeout w = Some 0 →
  _handle_failure failure method args kwargs d call w
  = (set_pending (<[d := mkRequest method args kwargs call]>
                    (_pending_requests w)) w, inr tt).
Proof.
  intros Hty Hr Hc. rewrite handle_failure_store by done.
  destruct Hc as [Hc|[->| ->]]; [|done|done].
  destruct (_timeout w) as [[|n]|], call; done.
Qed.

Lemma retry_loop_disconnected reqs w p reason :
  _protocol w = Protocol p → lost w !! p = Some reason →
  _retry_on_reconnect w = true →
  (∀ e, e ∈ reqs →
     rq_call e.2 ≠ None ∨ _timeout w = None ∨ _timeout w = Some 0) →
  retry_loop reqs w
  = (set_pending (foldl put_back (_pending_requests w) reqs) w, inr tt).
Proof.
  revert w. induction reqs as [|[d rq] reqs IH]; intros w Hp Hl Hr Ht.
  - by destruct w.
  - cbn [retry_loop].
    unfold bind at 1. unfold send_method_call at 1. unfold bind at 1, gets at 1.
    rewrite Hp. unfold bind at 1, gets at 1. rewrite Hl. unfold ret at 1.
    unfold bind at 1. unfold add_handlers at 1, swallow.
    cbn [h_method h_args h_kwargs h_deferred h_call].
    rewrite handle_failure_store_plain;
      [|by destruct reason|done|apply (Ht (d, rq)); by left].
    assert (mkRequest (rq_method rq) (rq_args rq) (rq_kwargs rq) (rq_call rq) = rq)
      as -> by by destruct rq.
    cbn [fst]. rewrite IH; [by destruct w|done|done|done|].
    intros e He. apply Ht. by right.
Qed.

Lemma foldl_put_back_lookup reqs t d :
  NoDup reqs.*1 →
  foldl put_back t reqs !! d
  = match (list_to_map reqs : gmap nat Request) !! d with
    | Some rq => Some rq
    | None => t !! d
    end.
Proof.
  revert t. induction reqs as [|[d0 rq0] reqs IH]; intros t Hnd.
  - cbn. by rewrite lookup_empty.
  - cbn [foldl fmap list_fmap fst] in *. apply NoDup_cons in Hnd as [Hnin Hnd].
    rewrite IH by done. unfold put_back. cbn [fst snd list_to_map foldr uncurry].
    destruct (decide (d = d0)) as [->|Hne].
    + rewrite lookup_insert_eq.
      by rewrite (not_elem_of_list_to_map_1 _ _ Hnin), lookup_insert_eq.
    + by rewrite !lookup_insert_ne.
Qed.

Lemma put_back_all (t : gmap nat Request) :
  foldl put_back ∅ (map_to_list t) = t.
Proof.
  apply map_eq. intros d.
  rewrite foldl_put_back_lookup by apply NoDup_fst_map_to_list.
  rewrite list_to_map_to_list, lookup_empty. by destruct (t !! d).
Qed.

Lemma handle_reconnect_no_retry w protocol :
  _retry_on_reconnect w = false →
  _handle_reconnect protocol w = (set_protocol protocol w, inr tt).
Proof.
  intros H. destruct w. cbn in H. subst. reflexivity.
Qed.

Lemma handle_reconnect_retry w protocol :
  _retry_on_reconnect w = true →
  _handle_reconnect protocol w
  = retry_loop (map_to_list (_pending_requests w))
      (set_pending ∅ (set_protocol protocol w)).
Proof.
  intros H. destruct w. cbn in H. subst. reflexivity.
Qed.

Lemma handle_failure_frame w failure method args kwargs d call :
  let w' := exec (_handle_failure failure method args kwargs d call) w in
  _protocol w' = _protocol w
  ∧ _retry_on_reconnect w' = _retry_on_reconnect w
  ∧ _timeout w' = _timeout w
  ∧ lost w' = lost w
  ∧ outstanding w' = outstanding w
  ∧ sent w' = sent w.
Proof.
  intros w'. subst w'.
  destruct (decide (exn_type failure = MethodCallError)) as [Hty|Hty].
  { rewrite handle_failure_propagate by auto. done. }
  destruct (_retry_on_reconnect w) eqn:Hr.
  - unfold exec. rewrite handle_failure_store by done.
    destruct (_timeout w) as [[|n]|] eqn:Ht, call; cbn; by rewrite ?Hr, ?Ht.
  - rewrite handle_failure_propagate by auto. cbn. by rewrite Hr.
Qed.

Lemma retry_loop_cons d rq reqs w :
  retry_loop ((d, rq) :: reqs) w
  = match _protocol w with
    | GaveUp _ => (w, inl (Exn AttributeError "send_method_call"))
    | Protocol p =>
        match lost w !! p with
        | Some reason =>
            retry_loop reqs
              (exec (_handle_failure (transport_failure reason) (rq_method rq)
                       (rq_args rq) (rq_kwargs rq) d (rq_call rq)) w)
        | None =>
            retry_loop reqs
              (set_sent (sent w ++ [box_of p (d, rq)])
                 (set_outstanding
                    (outstanding w ++ [Some (handlers_of (d, rq))]) w))
        end
    end.
Proof.
  destruct w as [pr retry t pd h rc l o s].
  cbn [retry_loop _protocol lost].
  unfold bind at 1. unfold send_method_call at 1. unfold bind at 1, gets at 1.
  cbn [_protocol]. destruct pr as [p|reason]; [|done].
  unfold bind at 1, gets at 1. cbn [lost].
  destruct (l !! p) as [reason|] eqn:Hl.
  - reflexivity.
  - unfold bind at 1, gets at 1. unfold bind at 1, modify at 1, ret at 1.
    unfold bind at 1. unfold add_handlers at 1, modify at 1.
    cbn -[insert retry_loop]. rewrite insert_app_r_alt by done.
    by rewrite Nat.sub_diag.
Qed.

Lemma retry_loop_frame reqs w :
  let w' := exec (retry_loop reqs) w in
  _protocol w' = _protocol w
  ∧ _retry_on_reconnect w' = _retry_on_reconnect w
  ∧ _timeout w' = _timeout w
  ∧ lost w' = lost w.
Proof.
  revert w. induction reqs as [|[d rq] reqs IH]; intros w; [done|].
  cbn zeta. unfold exec. rewrite retry_loop_cons.
  destruct (_protocol w) as [p|reason] eqn:Hp; [|cbn [fst]; by rewrite Hp].
  destruct (lost w !! p) as [reason|] eqn:Hl.
  - pose proof (handle_failure_frame w (transport_failure reason) (rq_method rq)
      (rq_args rq) (rq_kwargs rq) d (rq_call rq)) as (H1 & H2 & H3 & H4 & _).
    match goal with |- context [retry_loop reqs ?w1] =>
      specialize (IH w1); cbn zeta in IH; destruct IH as (I1 & I2 & I3 & I4) end.
    unfold exec in *. rewrite I1, I2, I3, I4, H1, H2, H3, H4. by rewrite Hp.
  - match goal with |- context [retry_loop reqs ?w1] =>
      specialize (IH w1); cbn zeta in IH; destruct IH as (I1 & I2 & I3 & I4) end.
    unfold exec in *. rewrite I1, I2, I3, I4. cbn. by rewrite Hp.
Qed.

(** C5.  [_handle_reconnect] with a newly connected protocol [p] makes [p]
    the current protocol.  Without retry-on-reconnect nothing else changes.
    With it, and [p] connected, the table is emptied and for each of its
    entries [(d, (method, args, kwargs, call))] one [MethodCall] with the
    same method, args and kwargs is written to [p], in flight with handlers
    that carry the same [d] and the same [call]; the reactor and its delayed
    calls are untouched, so a timeout already scheduled keeps running.  If
    [p] has already lost its transport, each request fails at once and is
    put back under the same [d] with the same [call]. *)
Theorem handle_reconnect_spec (w : state) (p : nat) :
  let w' := exec (_handle_reconnect (Protocol p)) w in
  let requests := map_to_list (_pending_requests w) in
  _protocol w' = Protocol p
  ∧ (_retry_on_reconnect w = false → w' = set_protocol (Protocol p) w)
  ∧ (_retry_on_reconnect w = true → lost w !! p = None →
       _pending_requests w' = ∅
       ∧ outstanding w' = outstanding w ++ (Some ∘ handlers_of <$> requests)
       ∧ sent w' = sent w ++ (box_of p <$> requests)
       ∧ reactor w' = reactor w
       ∧ deferreds w' = deferreds w
       ∧ (∀ d rq, _pending_requests w !! d = Some rq →
            ∃ tag, length (outstanding w) ≤ tag
              ∧ outstanding w' !! tag
                = Some (Some (mkHandlers (rq_method rq) (rq_args rq)
                                (rq_kwargs rq) d (rq_call rq)))))
  ∧ (_retry_on_reconnect w = true →
     ∀ reason, lost w !! p = Some reason →
       (∀ d rq, _pending_requests w !! d = Some rq →
          rq_call rq ≠ None ∨ _timeout w = None ∨ _timeout w = Some 0) →
       w' = set_protocol (Protocol p) w).
Proof.
  intros w' requests. split_and!.
  - subst w'. unfold exec. destruct (_retry_on_reconnect w) eqn:Hr.
    + rewrite handle_reconnect_retry by done.
      pose proof (retry_loop_frame (map_to_list (_pending_requests w))
                (set_pending ∅ (set_protocol (Protocol p) w))) as (H & _).
      exact H.
    + by rewrite handle_reconnect_no_retry.
  - intros Hr. subst w'. unfold exec. by rewrite handle_reconnect_no_retry.
  - intros Hr Hl. subst w'. unfold exec. rewrite handle_reconnect_retry by done.
    rewrite (retry_loop_connected _ _ p) by done.
    cbn. split_and!; try done.
    intros d rq Hd. apply elem_of_map_to_list in Hd.
    apply list_elem_of_lookup in Hd as [i Hi]. exists (length (outstanding w) + i).
    split; [lia|]. rewrite lookup_app_r by lia.
    replace (length (outstanding w) + i - length (outstanding w)) with i by lia.
    rewrite list_lookup_fmap. by rewrite Hi.
  - intros Hr reason Hl Ht. subst w'. unfold exec.
    rewrite handle_reconnect_retry by done.
    rewrite (retry_loop_disconnected _ _ p reason); try done.
    + cbn [fst set_pending set_protocol _pending_requests].
      rewrite put_back_all. by destruct w.
    + intros [d rq] He%elem_of_map_to_list. apply (Ht d rq He).
Qed.

(** *** Without retry-on-reconnect *)

Lemma quiet_handle_failure w failure method args kwargs d call :
  quiet w → quiet (exec (_handle_failure failure method args kwargs d call) w).
Proof.
  intros [Hr Hp]. rewrite handle_failure_propagate by auto. split; [done|].
  cbn. rewrite Hp. apply delete_empty.
Qed.

Lemma quiet_handle_response w response d call :
  quiet w → quiet (exec (_handle_response response d call) w).
Proof. intros [Hr Hp]. by rewrite handle_response_eq. Qed.

Lemma quiet_call_method w method args kwargs :
  quiet w → quiet (exec (call_method method args kwargs) w).
Proof.
  intros Hq. unfold exec. destruct (_protocol w) as [p|reason] eqn:Hpr.
  - destruct (lost w !! p) as [reason|] eqn:Hl.
    + rewrite (call_method_disconnected w p reason) by done. cbn [fst].
      apply quiet_handle_failure. by destruct Hq.
    + rewrite (call_method_connected w p) by done. by destruct Hq.
  - by rewrite (call_method_gave_up w reason).
Qed.

Lemma quiet_complete w tag k :
  (∀ h w1, quiet w1 → quiet (exec (k h) w1)) →
  quiet w → quiet (complete tag k w).
Proof.
  intros Hk Hq. unfold complete.
  destruct (outstanding w !! tag) as [[h|]|]; try done.
  apply Hk. by destruct Hq.
Qed.

Lemma quiet_run_call w c : quiet w → quiet (run_call c w).
Proof.
  intros Hq. unfold run_call.
  destruct (delayed (reactor w) !! c) as [dc|]; [|done].
  destruct (dc_active dc); [|done]. destruct (dc_func dc).
  apply quiet_handle_failure. by destruct Hq.
Qed.

Lemma quiet_run_calls l w : quiet w → quiet (foldl (λ w c, run_call c w) w l).
Proof.
  revert w. induction l as [|c l IH]; [done|]. intros w Hq. cbn.
  by apply IH, quiet_run_call.
Qed.

Lemma quiet_step w ev : quiet w → quiet (step w ev).
Proof.
  intros Hq. destruct ev as [m a k|tag response|tag failure|pr|p reason|dt];
    cbn [step].
  - by apply quiet_call_method.
  - apply quiet_complete; [|done]. intros h w1 Hq1. rewrite on_answer_exec.
    destruct (snd _) as [e|?]; [apply quiet_handle_failure|];
      by apply quiet_handle_response.
  - apply quiet_complete; [|done]. intros. by apply quiet_handle_failure.
  - unfold exec. rewrite handle_reconnect_no_retry by apply Hq. by destruct Hq.
  - by destruct Hq.
  - unfold advance. apply quiet_run_calls. by destruct Hq.
Qed.

Lemma quiet_run evs w : quiet w → quiet (run evs w).
Proof.
  revert w. induction evs as [|ev evs IH]; [done|]. intros w Hq.
  unfold run in *. cbn. by apply IH, quiet_step.
Qed.

(** C6.  For a [RemoteObject] built with [retry_on_reconnect=False],
    [_pending_requests] is empty after any sequence of operations, hence
    before and after each one, and [_handle_failure] itself leaves it empty
    whatever it is called with. *)
Theorem no_retry_no_pending_requests (protocol : nat) (timeout : option nat)
    (evs : list event) :
  _pending_requests (run evs (init protocol false timeout)) = ∅
  ∧ (∀ ev, _pending_requests
             (step (run evs (init protocol false timeout)) ev) = ∅)
  ∧ (∀ failure method args kwargs d call,
       _pending_requests
         (exec (_handle_failure failure method args kwargs d call)
            (run evs (init protocol false timeout))) = ∅).
Proof.
  assert (quiet (run evs (init protocol false timeout))) as Hq.
  { apply quiet_run. done. }
  split_and!.
  - apply Hq.
  - intros ev. by apply quiet_step.
  - intros. by apply quiet_handle_failure.
Qed.

(** *** Retry-on-reconnect without an overall timeout *)

Lemma try_fire_eq d x (h : dheap) :
  h !! d = Some None → try_fire d x h = <[d := Some x]> h.
Proof. intros H. unfold try_fire. by rewrite fire_deferred_unfired. Qed.

















End RemoteProofs.

Module RemoteTraceProofs.
Import RemoteObject RemoteProofs.

(** The reactor runs a timeout call: the request is given up. *)
Lemma run_call_eq w c dc method args kwargs d :
  delayed (reactor w) !! c = Some dc → dc_active dc = true →
  dc_func dc = HandleFailureTimeout method args kwargs d →
  run_call c w
  = mkRemote (_protocol w) (_retry_on_reconnect w) (_timeout w)
      (delete d (_pending_requests w))
      (try_fire d (Errback timeout_failure) (deferreds w))
      (mark_called c (reactor w)) (lost w) (outstanding w) (sent w).
Proof.
  intros Hc Ha Hf. rewrite (run_timeout_call_active w c dc method args kwargs d) by done.
  rewrite handle_failure_propagate by (by left). reflexivity.
Qed.

Lemma run_call_skip w c :
  active c (reactor w) = false → run_call c w = w.
Proof.
  unfold active, run_call. destruct (delayed (reactor w) !! c) as [dc|]; [|done].
  by intros ->.
Qed.

(** What a delayed call was made for never changes, and a call stays
    pending until it is run. *)
Lemma run_call_delayed w c c' :
  delayed (reactor (run_call c w)) !! c'
  = if decide (c' = c)
    then (λ dc, if dc_active dc
                then mkDelayedCall (dc_time dc) (dc_func dc) true (dc_cancelled dc)
                else dc) <$> delayed (reactor w) !! c'
    else delayed (reactor w) !! c'.
Proof.
  unfold run_call. destruct (delayed (reactor w) !! c) as [dc|] eqn:Hc.
  - destruct (dc_active dc) eqn:Ha.
    + destruct (dc_func dc) as [m a k d] eqn:Hf.
      rewrite handle_failure_propagate by (by left). cbn.
      destruct (decide (c' = c)) as [->|Hne].
      * rewrite (mark_called_eq c _ dc Hc), Hc. cbn. by rewrite Ha.
      * by rewrite mark_called_ne.
    + destruct (decide (c' = c)) as [->|Hne]; [|done].
      rewrite Hc. cbn. by rewrite Ha.
  - destruct (decide (c' = c)) as [->|Hne]; [|done]. by rewrite Hc.
Qed.

Lemma run_call_deferreds w c d x :
  deferreds w !! d = Some (Some x) → deferreds (run_call c w) !! d = Some (Some x).
Proof.
  intros Hd. unfold run_call. destruct (delayed (reactor w) !! c) as [dc|] eqn:Hc; [|done].
  destruct (dc_active dc) eqn:Ha; [|done].
  destruct (dc_func dc) as [m a k d'] eqn:Hf.
  rewrite handle_failure_propagate by (by left). cbn.
  destruct (decide (d' = d)) as [->|Hne].
  - by rewrite (try_fire_fired d _ x).
  - by rewrite try_fire_ne.
Qed.

Lemma run_call_pending_none w c d :
  _pending_requests w !! d = None → _pending_requests (run_call c w) !! d = None.
Proof.
  intros Hd. unfold run_call. destruct (delayed (reactor w) !! c) as [dc|] eqn:Hc; [|done].
  destruct (dc_active dc) eqn:Ha; [|done].
  destruct (dc_func dc) as [m a k d'] eqn:Hf.
  rewrite handle_failure_propagate by (by left). cbn.
  apply lookup_delete_None. auto.
Qed.

(** X9.  When the timeout scheduled by [_handle_failure] for a request
    comes due while the caller's [Deferred] has not fired, the reactor runs
    it: the [Deferred] fails with [MethodCallError("timeout")] and the
    request is no longer in [_pending_requests]. *)
Theorem stored_request_times_out (w : state) (c d dt t : nat)
    (method : string) (args : list value) (kwargs : list (string * value)) :
  delayed (reactor w) !! c
    = Some (mkDelayedCall t (HandleFailureTimeout method args kwargs d) false false) →
  t ≤ rightNow (reactor w) + dt →
  deferreds w !! d = Some None →
  let w' := step w (Advance dt) in
  deferreds w' !! d = Some (Some (Errback (Exn MethodCallError "timeout")))
  ∧ _pending_requests w' !! d = None
  ∧ called c (reactor w') = true
  ∧ rightNow (reactor w') = rightNow (reactor w) + dt.
Proof.
  intros Hc Ht Hd w'. subst w'. cbn [step]. unfold advance.
  set (w1 := set_reactor (tick dt (reactor w)) w).
  assert (c ∈ due (reactor w1)) as Hin.
  { apply elem_of_due. eexists. split; [exact Hc|]. split; [done|]. cbn. lia. }
  assert (∀ l w2,
            deferreds w2 !! d = Some (Some (Errback timeout_failure)) →
            _pending_requests w2 !! d = None →
            called c (reactor w2) = true →
            rightNow (reactor w2) = rightNow (reactor w) + dt →
            let w3 := foldl (λ w c, run_call c w) w2 l in
            deferreds w3 !! d = Some (Some (Errback timeout_failure))
            ∧ _pending_requests w3 !! d = None
            ∧ called c (reactor w3) = true
            ∧ rightNow (reactor w3) = rightNow (reactor w) + dt) as Hpost.
  { induction l as [|c' l IH]; [done|]. intros w2 H1 H2 H3 H4. cbn [foldl].
    apply IH.
    - by apply run_call_deferreds.
    - by apply run_call_pending_none.
    - unfold called in *. rewrite run_call_delayed.
      destruct (decide (c = c')) as [<-|Hne].
      + destruct (delayed (reactor w2) !! c) as [dc|]; [|done]. cbn.
        destruct (dc_active dc) eqn:Ha; [done|done].
      + done.
    - unfold run_call. destruct (delayed (reactor w2) !! c') as [dc|]; [|done].
      destruct (dc_active dc); [|done]. destruct (dc_func dc).
      rewrite handle_failure_propagate by (by left). cbn.
      by rewrite mark_called_now. }
  assert (∀ l w2,
            c ∈ l →
            delayed (reactor w2) !! c
            = Some (mkDelayedCall t (HandleFailureTimeout method args kwargs d)
                      false false) →
            deferreds w2 !! d = Some None
            ∨ deferreds w2 !! d = Some (Some (Errback timeout_failure)) →
            rightNow (reactor w2) = rightNow (reactor w) + dt →
            let w3 := foldl (λ w c, run_call c w) w2 l in
            deferreds w3 !! d = Some (Some (Errback timeout_failure))
            ∧ _pending_requests w3 !! d = None
            ∧ called c (reactor w3) = true
            ∧ rightNow (reactor w3) = rightNow (reactor w) + dt) as Hpre.
  { induction l as [|c' l IH]; intros w2 Hin2 Hc2 Hd2 Hnow.
    { by apply elem_of_nil in Hin2. }
    cbn [foldl]. destruct (decide (c' = c)) as [->|Hne].
    - apply Hpost.
      + rewrite (run_call_eq w2 c _ method args kwargs d Hc2) by done. cbn.
        destruct Hd2 as [Hd2|Hd2].
        * by apply try_fire_unfired.
        * by rewrite (try_fire_fired d _ _ _ Hd2).
      + rewrite (run_call_eq w2 c _ method args kwargs d Hc2) by done. cbn.
        apply lookup_delete_eq.
      + unfold called. rewrite run_call_delayed, decide_True by done.
        by rewrite Hc2.
      + rewrite (run_call_eq w2 c _ method args kwargs d Hc2) by done. cbn.
        by rewrite mark_called_now.
    - apply IH.
      + by apply elem_of_cons in Hin2 as [?|?].
      + rewrite run_call_delayed. by rewrite decide_False by done.
      + unfold run_call.
        destruct (delayed (reactor w2) !! c') as [dc|] eqn:Hc'; [|done].
        destruct (dc_active dc); [|done]. destruct (dc_func dc) as [m a k d'].
        rewrite handle_failure_propagate by (by left). cbn.
        destruct (decide (d' = d)) as [->|Hnd].
        * destruct Hd2 as [Hd2|Hd2].
          -- right. by apply try_fire_unfired.
          -- right. by rewrite (try_fire_fired d _ _ _ Hd2).
        * by rewrite try_fire_ne.
      + unfold run_call. destruct (delayed (reactor w2) !! c') as [dc|]; [|done].
        destruct (dc_active dc); [|done]. destruct (dc_func dc).
        rewrite handle_failure_propagate by (by left). cbn.
        by rewrite mark_called_now. }
  apply Hpre; [done|done|by left|done].
Qed.

(** X10.  While every pending timeout made for a [Deferred] is due later
    than the time reached, letting time pass changes neither that
    [Deferred] nor its entry in [_pending_requests]. *)
Theorem timeout_not_before_deadline (w : state) (d dt : nat) :
  (∀ c dc method args kwargs,
     delayed (reactor w) !! c = Some dc → dc_active dc = true →
     dc_func dc = HandleFailureTimeout method args kwargs d →
     rightNow (reactor w) + dt < dc_time dc) →
  let w' := step w (Advance dt) in
  deferreds w' !! d = deferreds w !! d
  ∧ _pending_requests w' !! d = _pending_requests w !! d.
Proof.
  intros Hlate w'. subst w'. cbn [step]. unfold advance.
  set (w1 := set_reactor (tick dt (reactor w)) w).
  assert (∀ c, c ∈ due (reactor w1) →
            ∀ dc method args kwargs,
              delayed (reactor w1) !! c = Some dc → dc_active dc = true →
              dc_func dc ≠ HandleFailureTimeout method args kwargs d) as Hdue.
  { intros c (dc & Hl & Ha & Ht)%elem_of_due dc' m a k Hl' Ha' Hf.
    rewrite Hl in Hl'. injection Hl' as <-.
    pose proof (Hlate c dc m a k Hl Ha Hf). cbn in Ht. lia. }
  change (deferreds w !! d) with (deferreds w1 !! d).
  change (_pending_requests w !! d) with (_pending_requests w1 !! d).
  revert Hdue. generalize (due (reactor w1)). generalize w1. clear w1 Hlate.
  intros w1 l. revert w1. induction l as [|c l IH]; [done|]. intros w1 Hdue.
  cbn [foldl].
  assert (deferreds (run_call c w1) !! d = deferreds w1 !! d
          ∧ _pending_requests (run_call c w1) !! d = _pending_requests w1 !! d)
    as [<- <-].
  { unfold run_call. destruct (delayed (reactor w1) !! c) as [dc|] eqn:Hc; [|done].
    destruct (dc_active dc) eqn:Ha; [|done].
    destruct (dc_func dc) as [m a k d'] eqn:Hf.
    rewrite handle_failure_propagate by (by left). cbn.
    assert (d' ≠ d) as Hne.
    { intros ->. eapply (Hdue c); [apply elem_of_cons; by left|done|done|done]. }
    by rewrite try_fire_ne, lookup_delete_ne. }
  apply IH. intros c' Hin dc m a k. rewrite run_call_delayed.
  destruct (decide (c' = c)) as [->|Hne].
  - destruct (delayed (reactor w1) !! c) as [dc0|] eqn:Hc; [|done]. cbn.
    destruct (dc_active dc0) eqn:Ha0.
    + intros [= <-]. unfold dc_active. done.
    + intros [= <-] ?. congruence.
  - apply Hdue. apply elem_of_cons. by right.
Qed.

(** X11.  A stored request whose timeout, if any, is still pending is
    sent again on the new protocol when the factory reconnects, with the
    caller's [Deferred] and the timeout attached to the new [MethodCall],
    and the table is emptied; when that [MethodCall] is answered the
    caller's [Deferred] fires with the result, and the timeout is
    cancelled without having run. *)
Theorem retried_request_delivers (w : state) (p d : nat) (rq : Request) :
  _retry_on_reconnect w = true →
  lost w !! p = None →
  _pending_requests w !! d = Some rq →
  deferreds w !! d = Some None →
  (∀ c, rq_call rq = Some c → active c (reactor w) = true) →
  let w1 := step w (Notify (Protocol p)) in
  ∃ tag,
    length (outstanding w) ≤ tag
    ∧ outstanding w1 !! tag
      = Some (Some (mkHandlers (rq_method rq) (rq_args rq) (rq_kwargs rq) d
                      (rq_call rq)))
    ∧ (p, rq_method rq, rq_args rq, rq_kwargs rq) ∈ sent w1
    ∧ _pending_requests w1 = ∅
    ∧ ∀ response,
        let w2 := step w1 (Answer tag response) in
        deferreds w2 !! d = Some (Some (Callback (mc_result response)))
        ∧ _pending_requests w2 = ∅
        ∧ outstanding w2 !! tag = Some None
        ∧ (∀ c, rq_call rq = Some c →
             active c (reactor w2) = false ∧ called c (reactor w2) = false).
Proof.
  intros Hr Hl Hd Hunf Hact w1.
  assert (w1 = set_sent (sent w ++ (box_of p <$> map_to_list (_pending_requests w)))
                 (set_outstanding
                    (outstanding w
                     ++ (Some ∘ handlers_of <$> map_to_list (_pending_requests w)))
                    (set_pending ∅ (set_protocol (Protocol p) w)))) as E1.
  { subst w1. cbn [step]. unfold exec. rewrite handle_reconnect_retry by done.
    by rewrite (retry_loop_connected _ _ p). }
  apply elem_of_map_to_list in Hd.
  apply list_elem_of_lookup in Hd as [i Hi].
  exists (length (outstanding w) + i).
  assert (outstanding w1 !! (length (outstanding w) + i)
          = Some (Some (mkHandlers (rq_method rq) (rq_args rq) (rq_kwargs rq) d
                          (rq_call rq)))) as Htag.
  { rewrite E1. cbn. rewrite lookup_app_r by lia.
    replace (length (outstanding w) + i - length (outstanding w)) with i by lia.
    by rewrite list_lookup_fmap, Hi. }
  split_and!.
  - lia.
  - done.
  - rewrite E1. cbn. apply elem_of_app. right.
    apply list_elem_of_fmap. exists (d, rq). split; [done|].
    by apply list_elem_of_lookup_2 in Hi.
  - by rewrite E1.
  - intros response w2. subst w2. cbn [step]. unfold complete. rewrite Htag.
    rewrite on_answer_live;
      [|by rewrite E1|intros c Hc; rewrite E1; by apply Hact].
    rewrite handle_response_eq. cbn zeta.
    cbn [h_deferred h_call _pending_requests deferreds reactor outstanding
         set_outstanding].
    assert (reactor w1 = reactor w) as -> by by rewrite E1.
    assert (deferreds w1 = deferreds w) as -> by by rewrite E1.
    assert (_pending_requests w1 = ∅) as -> by by rewrite E1.
    assert (match rq_call rq with
            | Some c => negb (cancels c (reactor w))
            | None => false
            end = false) as ->.
    { destruct (rq_call rq) as [c|]; [|done]. by rewrite cancels_active by auto. }
    split_and!.
    + by apply try_fire_unfired.
    + done.
    + apply list_lookup_insert_eq. by apply lookup_lt_Some in Htag.
    + intros c Hcall. rewrite Hcall. split; [apply try_cancel_inactive|].
      specialize (Hact c Hcall). unfold active, called in *.
      destruct (delayed (reactor w) !! c) as [dc|] eqn:Hc; [|done].
      by rewrite (try_cancel_active c _ dc).
Qed.

(** X12.  A method called on a proxy whose protocol has lost its
    transport sends nothing and returns a new [Deferred].  Without
    [retry_on_reconnect] that [Deferred] fails at once with the connection
    error.  With it the [Deferred] stays unfired and the request is stored:
    without a timeout handle when [timeout] is [None] or [0], and with a
    new delayed call due in [timeout] seconds otherwise. *)
Theorem call_on_lost_transport (w : state) (p : nat) (reason : transport_error)
    (method : string) (args : list value) (kwargs : list (string * value)) :
  _protocol w = Protocol p →
  lost w !! p = Some reason →
  let d := length (deferreds w) in
  let w' := exec (call_method method args kwargs) w in
  call_method method args kwargs w = (w', inr d)
  ∧ sent w' = sent w
  ∧ outstanding w' = outstanding w
  ∧ (_retry_on_reconnect w = false →
       deferreds w' = deferreds w ++ [Some (Errback (transport_failure reason))]
       ∧ _pending_requests w' = delete d (_pending_requests w)
       ∧ reactor w' = reactor w)
  ∧ (_retry_on_reconnect w = true →
       deferreds w' = deferreds w ++ [None]
       ∧ (_timeout w = None ∨ _timeout w = Some 0 →
            _pending_requests w'
            = <[d := mkRequest method args kwargs None]> (_pending_requests w)
            ∧ reactor w' = reactor w)
       ∧ (∀ secs, _timeout w = Some (S secs) →
            _pending_requests w'
            = <[d := mkRequest method args kwargs
                       (Some (length (delayed (reactor w))))]>
                (_pending_requests w)
            ∧ reactor w'
              = mkClock (rightNow (reactor w))
                  (delayed (reactor w)
                   ++ [mkDelayedCall (rightNow (reactor w) + S secs)
                         (HandleFailureTimeout method args kwargs d)
                         false false]))).
Proof.
  intros Hp Hl d w'. subst w'. unfold exec.
  rewrite (call_method_disconnected w p reason) by done. cbn [fst]. fold d.
  set (w0 := set_deferreds (deferreds w ++ [None]) w).
  split; [done|].
  pose proof (handle_failure_frame w0 (transport_failure reason) method args kwargs
                d None) as (_ & _ & _ & _ & Ho & Hs).
  split; [exact Hs|]. split; [exact Ho|]. split.
  - intros Hr. rewrite handle_failure_propagate by (by right). cbn.
    split_and!; [|done|done].
    rewrite try_fire_eq by (by rewrite lookup_app_r, Nat.sub_diag).
    rewrite insert_app_r_alt by done. by rewrite Nat.sub_diag.
  - intros Hr. unfold exec.
    rewrite handle_failure_store; [|by destruct reason|done].
    cbn [_timeout w0 set_deferreds].
    destruct (_timeout w) as [[|secs]|] eqn:Ht; cbn.
    + split_and!; [done|done|]. intros secs [=].
    + split_and!; [done| |].
      * intros [?|?]; simplify_eq.
      * by intros secs' [= <-].
    + split_and!; [done|done|]. intros secs [=].
Qed.
End RemoteTraceProofs.

(** ** From the server's answer to the caller's [Deferred] *)

Section RoundTrip.
Import MethodCallServerProtocol.
Context (dumps_table : list pytype) (uuid4 : nat → string) (O : Type)
  (getattr : string → option (list value → list (string * value) → O → O * returned))
  (bytes : Type) (dumps : value → option bytes) (loads : bytes → option value).

Lemma receive_method_call_sync (w : state O) method args kwargs method_func o' out v :
  method ∈ methods w →
  getattr method = Some method_func →
  method_func args kwargs (factory_object w) = (o', out) →
  resolves_to out w v →
  check dumps_table v = true →
  receive_method_call dumps_table uuid4 getattr method args kwargs w
  = (set_invoked (invoked w ++ [(method, args, kwargs)]) (set_object o' w),
     inr (mkResponse v None)).
Proof.
  intros Hm Hg Hf Hres Hc. destruct w as [ms o h n t i].
  unfold resolves_to, lookup_deferred in Hres. cbn in Hm, Hf, Hres.
  assert (bool_decide (method ∈ ms) = true) as Hb by by apply bool_decide_eq_true_2.
  destruct Hres as [->|(f & -> & Hr)].
  - repeat first [ rewrite Hb | rewrite Hg | rewrite Hf | rewrite Hc
                 | progress unfold_server | progress cbn [negb] ].
    reflexivity.
  - repeat first [ rewrite Hb | rewrite Hg | rewrite Hf | rewrite Hc | rewrite Hr
                 | progress unfold_server | progress cbn [negb] ].
    reflexivity.
Qed.

(** C8.  A whitelisted method whose result [v] is there at once (a plain
    return value, or a [Deferred] that has already fired with [v]) and passes
    [check]: the server answers [{result: v}] with no [deferred] field and
    writes no [DeferredResponse]; the answer survives the codec; the client
    protocol's [handle_response] returns it as it is, leaving its state
    alone; and the [Deferred] that [RemoteObject] handed to the caller of
    the method fires with [v]. *)
Theorem synchronous_round_trip
    (ws : state O) (wc : MethodCallClientProtocol.state)
    (wr : RemoteObject.state) (p : nat)
    method args kwargs method_func o' out v :
  (∀ x, check dumps_table x = true → is_Some (dumps x)) →
  (∀ x b, dumps x = Some b → loads b = Some x) →
  method ∈ methods ws →
  getattr method = Some method_func →
  method_func args kwargs (factory_object ws) = (o', out) →
  resolves_to out ws v →
  check dumps_table v = true →
  RemoteObject._protocol wr = RemoteObject.Protocol p →
  RemoteObject.lost wr !! p = None →
  let reply := mkResponse v None in
  let d := length (RemoteObject.deferreds wr) in
  let tag := length (RemoteObject.outstanding wr) in
  let wr1 := exec (RemoteObject.call_method method args kwargs) wr in
  (receive_method_call dumps_table uuid4 getattr method args kwargs ws).2
    = inr reply
  ∧ transport (exec (receive_method_call dumps_table uuid4 getattr method
                       args kwargs) ws) = transport ws
  ∧ (∃ box, Wire.serialize bytes dumps reply = Some box
            ∧ Wire.box_deferred bytes box = None
            ∧ Wire.parse bytes loads box = Some reply)
  ∧ MethodCallClientProtocol.handle_response reply wc = (wc, inr (inr reply))
  ∧ RemoteObject.call_method method args kwargs wr = (wr1, inr d)
  ∧ RemoteObject.deferreds wr1 !! d = Some None
  ∧ RemoteObject.deferreds (RemoteObject.step wr1 (RemoteObject.Answer tag reply)) !! d
    = Some (Some (Callback v)).
Proof.
  intros Henc Hdec Hm Hg Hf Hres Hc Hp Hl reply d tag wr1.
  pose proof (receive_method_call_sync ws method args kwargs method_func o' out v
                Hm Hg Hf Hres Hc) as E.
  pose proof (RemoteProofs.call_method_connected wr p method args kwargs Hp Hl) as E2.
  split_and!.
  - by rewrite E.
  - unfold exec. by rewrite E.
  - destruct (Henc v Hc) as [b Hb]. exists (Wire.mkAnswerBox bytes b None).
    unfold Wire.serialize, Wire.parse. cbn. rewrite Hb. cbn.
    by rewrite (Hdec v b Hb).
  - by apply ClientProofs.handle_response_plain; left.
  - subst wr1. unfold exec. by rewrite E2.
  - subst wr1. unfold exec. rewrite E2. cbn.
    by rewrite lookup_app_r, Nat.sub_diag.
  - subst wr1. unfold exec. rewrite E2. cbn [fst RemoteObject.step].
    unfold RemoteObject.complete. cbn [RemoteObject.outstanding].
    rewrite lookup_app_r by done. rewrite Nat.sub_diag. cbn [lookup list_lookup].
    rewrite RemoteProofs.on_answer_live;
      [|cbn; by rewrite lookup_app_r, Nat.sub_diag|done].
    rewrite RemoteProofs.handle_response_eq. cbn.
    rewrite RemoteProofs.try_fire_eq.
    + apply list_lookup_insert_eq. rewrite length_app. cbn. lia.
    + by rewrite lookup_app_r, Nat.sub_diag.
Qed.
End RoundTrip.

Section DeferredRoundTrip.
Import MethodCallServerProtocol.
Context (dumps_table : list pytype) (uuid4 : nat → string) (O : Type)
  (getattr : string → option (list value → list (string * value) → O → O * returned))
  (bytes : Type) (dumps : value → option bytes) (loads : bytes → option value).






End DeferredRoundTrip.

Section FactoryProofs.
Import RemoteObject MethodCallClientFactory.
Context {N : Type} `{EqDecision N}.

Lemma list_remove_Some (x : N) (l l' : list N) :
  list_remove x l = Some l' →
  ∃ l1 l2, l = l1 ++ x :: l2 ∧ l' = l1 ++ l2 ∧ x ∉ l1.
Proof.
  revert l'. induction l as [|y l IH]; intros l'; [done|]. cbn.
  destruct (decide (y = x)) as [->|Hne].
  - intros [= <-]. exists [], l. split_and!; [done|done|apply not_elem_of_nil].
  - destruct (list_remove x l) as [l0|]; [|done]. cbn. intros [= <-].
    destruct (IH l0 eq_refl) as (l1 & l2 & -> & -> & Hnin).
    exists (y :: l1), l2. split_and!; [done|done|].
    apply not_elem_of_cons. done.
Qed.

Lemma list_remove_None (x : N) (l : list N) : list_remove x l = None ↔ x ∉ l.
Proof.
  induction l as [|y l IH]; cbn.
  - split; [intros _; apply not_elem_of_nil|done].
  - destruct (decide (y = x)) as [->|Hne].
    + split; [done|]. intros Hnin. exfalso. apply Hnin. by left.
    + rewrite not_elem_of_cons. destruct (list_remove x l); cbn.
      * split; [done|]. intros [_ Hnin]. by apply IH in Hnin.
      * split; [|done]. intros _. split; [done|]. by apply IH.
Qed.

Lemma list_remove_app_fresh (x : N) (l : list N) :
  x ∉ l → list_remove x (l ++ [x]) = Some l.
Proof.
  induction l as [|y l IH]; cbn; intros Hnin.
  - by rewrite decide_True.
  - apply not_elem_of_cons in Hnin as [Hne Hnin].
    rewrite decide_False by done. by rewrite IH.
Qed.

Lemma list_remove_app_any (x : N) (l : list N) :
  ∃ l', list_remove x (l ++ [x]) = Some l' ∧ l' ≡ₚ l.
Proof.
  induction l as [|y l IH]; cbn.
  - exists []. by rewrite decide_True.
  - destruct (decide (y = x)) as [->|Hne].
    + exists (l ++ [x]). split; [done|].
      by rewrite <- Permutation_cons_append.
    + destruct IH as (l' & -> & Hp). exists (y :: l'). split; [done|].
      by rewrite Hp.
Qed.

(** X15.  [add_notifier] appends the notifier; [remove_notifier] of a
    notifier just added succeeds and leaves the same notifiers as before,
    as a multiset, and the same state when the notifier was not registered
    before; [remove_notifier] of a notifier that is not registered raises
    [ValueError] and changes nothing. *)
Theorem notifier_registration_round_trip (w : state N) (notifier : N) :
  let w1 := exec (add_notifier notifier) w in
  let w2 := exec (remove_notifier notifier) w1 in
  _notifiers w1 = _notifiers w ++ [notifier]
  ∧ snd (remove_notifier notifier w1) = inr tt
  ∧ _notifiers w2 ≡ₚ _notifiers w
  ∧ (notifier ∉ _notifiers w → w2 = w)
  ∧ (notifier ∉ _notifiers w →
       remove_notifier notifier w
       = (w, inl (Exn (OtherError "ValueError") "list.remove(x): x not in list"))).
Proof.
  intros w1 w2. destruct w as [l r m n t b].
  subst w2 w1. unfold exec, add_notifier, remove_notifier, bind, gets, modify.
  cbn [fst snd _notifiers set_notifiers].
  destruct (list_remove_app_any notifier l) as (l' & Hl' & Hp).
  rewrite Hl'. cbn. split_and!; try done.
  - intros Hnin. rewrite list_remove_app_fresh in Hl' by done.
    by injection Hl' as <-.
  - intros Hnin. apply list_remove_None in Hnin. by rewrite Hnin.
Qed.

(** The loop of [fire_notifiers] in closed form. *)
Lemma call_each_later_eq (l : list N) (arg : notification) (w : state N) :
  call_each_later l arg w
  = (set_reactor
       (mkClock (rightNow (reactor w))
          (delayed (reactor w)
           ++ ((λ n, mkDelayedCall (rightNow (reactor w)) (n, arg) false false)
                 <$> l))) w,
     inr tt).
Proof.
  revert w. induction l as [|n l IH]; intros w.
  - cbn. rewrite app_nil_r. by destruct w as [? [? ?] ? ? ? ?].
  - cbn [call_each_later]. unfold bind at 1, lift_alloc at 1, callLater at 1.
    rewrite IH. destruct w as [? [now ds] ? ? ? ?]. cbn.
    rewrite Nat.add_0_r, <- app_assoc. done.
Qed.

(** X16.  [fire_notifiers] calls no notifier itself: it schedules one
    delayed call per registered notifier, in order, with a delay of 0 and
    the given argument, all of them due at once, and leaves the list of
    notifiers and the clock as they are. *)
Theorem fire_notifiers_schedules (w : state N) (arg : notification) :
  let w' := exec (fire_notifiers arg) w in
  fire_notifiers arg w = (w', inr tt)
  ∧ _notifiers w' = _notifiers w
  ∧ rightNow (reactor w') = rightNow (reactor w)
  ∧ delayed (reactor w')
    = delayed (reactor w)
      ++ ((λ n, mkDelayedCall (rightNow (reactor w)) (n, arg) false false)
            <$> _notifiers w)
  ∧ (∀ i n, _notifiers w !! i = Some n →
       length (delayed (reactor w)) + i ∈ due (reactor w')).
Proof.
  intros w'. subst w'. unfold exec, fire_notifiers, bind, gets.
  rewrite call_each_later_eq. cbn [fst snd]. split_and!; try done.
  intros i n Hi. apply elem_of_due. cbn [reactor set_reactor delayed rightNow].
  eexists. split.
  - rewrite lookup_app_r by lia.
    replace (length (delayed (reactor w)) + i - length (delayed (reactor w)))
      with i by lia.
    rewrite list_lookup_fmap, Hi. done.
  - done.
Qed.
End FactoryProofs.

Section ClockFacts.
Context {A : Type}.

Lemma mark_called_func c c' (r : Clock A) dc' :
  delayed (mark_called c r) !! c' = Some dc' →
  ∃ dc, delayed r !! c' = Some dc ∧ dc_func dc' = dc_func dc.
Proof.
  destruct (decide (c' = c)) as [->|Hne].
  - unfold mark_called. destruct (delayed r !! c) as [dc|] eqn:Hc; [|rewrite Hc; eauto].
    cbn [delayed]. rewrite list_lookup_insert_eq by (by apply lookup_lt_Some in Hc).
    intros [= <-]. eauto.
  - rewrite mark_called_ne by done. eauto.
Qed.
End ClockFacts.

Module CreatorProofs.
Import RemoteObject MethodCallClientFactory RemoteObjectCreator.

Ltac creator_red :=
  cbv beta iota zeta delta
    [bind ret raise gets modify swallow exec lift_either lift_alloc fst snd
     handler step run_call_m notify _done new_remote fire_connected on_factory
     buildProtocol resetDelay clientConnectionFailed retry fire_notifiers
     add_notifier remove_notifier
     set_factory set_connected set_remote set_remotes set_notified
     _args _factory _connected _remote remotes notified
     set_notifiers MethodCallClientFactory.set_reactor set_maxRetries
     set_retries set_continueTrying set_built
     _notifiers MethodCallClientFactory.reactor maxRetries retries
     continueTrying built].

Lemma build_eq (w : state) :
  handler Built w
  = (set_factory
       (mkFactory (_notifiers (_factory w))
          (mkClock (rightNow (MethodCallClientFactory.reactor (_factory w)))
             (delayed (MethodCallClientFactory.reactor (_factory w))
              ++ ((λ n, mkDelayedCall
                          (rightNow (MethodCallClientFactory.reactor (_factory w)))
                          (n, Protocol (built (_factory w))) false false)
                    <$> _notifiers (_factory w))))
          (maxRetries (_factory w)) 0 true (S (built (_factory w)))) w,
     inr tt).
Proof.
  destruct w as [args [l r m n t b] conn rem rems ntf].
  cbv beta iota zeta delta
    [handler on_factory buildProtocol resetDelay bind modify gets ret
     fire_notifiers _factory set_factory].
  cbn [set_continueTrying set_retries set_built _notifiers built
       MethodCallClientFactory.reactor maxRetries retries continueTrying].
  rewrite call_each_later_eq. reflexivity.
Qed.

Lemma failed_eq (w : state) (reason : exn) :
  handler (Failed reason) w
  = let f := _factory w in
    let count := if continueTrying f then S (retries f) else retries f in
    let gives_up := match maxRetries f with
                    | Some m => bool_decide (m < count)
                    | None => false
                    end in
    (set_factory
       (mkFactory (_notifiers f)
          (mkClock (rightNow (MethodCallClientFactory.reactor f))
             (delayed (MethodCallClientFactory.reactor f)
              ++ if gives_up
                 then (λ n, mkDelayedCall
                              (rightNow (MethodCallClientFactory.reactor f))
                              (n, GaveUp reason) false false)
                        <$> _notifiers f
                 else []))
          (maxRetries f) count (continueTrying f) (built f)) w,
     inr tt).
Proof.
  destruct w as [args [l [now ds] m n t b] conn rem rems ntf].
  cbv beta iota zeta delta
    [handler on_factory clientConnectionFailed retry bind modify gets ret
     fire_notifiers _factory set_factory].
  cbn [set_retries _notifiers built MethodCallClientFactory.reactor maxRetries
       retries continueTrying].
  destruct t; cbn [set_retries _notifiers built MethodCallClientFactory.reactor
                   maxRetries retries continueTrying];
    (destruct m as [m|]; [destruct (bool_decide _)|]);
    rewrite ?call_each_later_eq; cbn; rewrite ?app_nil_r; reflexivity.
Qed.

Lemma run_eq (c : nat) (w : state) :
  handler (Run c) w
  = match delayed (MethodCallClientFactory.reactor (_factory w)) !! c with
    | Some dc =>
        if dc_active dc
        then notify (dc_func dc)
               (set_factory
                  (MethodCallClientFactory.set_reactor
                     (mark_called c (MethodCallClientFactory.reactor (_factory w)))
                     (_factory w)) w)
        else (w, inr tt)
    | None => (w, inr tt)
    end.
Proof.
  cbv beta iota zeta delta [handler run_call_m bind gets].
  destruct (delayed (MethodCallClientFactory.reactor (_factory w)) !! c) as [dc|];
    [|done].
  destruct (dc_active dc); [|done].
  destruct w as [args f conn rem rems ntf]. reflexivity.
Qed.

Lemma done_eq (result : notification) (w : state) :
  _done result w
  = match list_remove Done (_notifiers (_factory w)) with
    | None => (w, inl value_error)
    | Some l' =>
        match result with
        | GaveUp reason =>
            let w1 := set_factory (set_notifiers l' (_factory w)) w in
            match _connected w with
            | Some _ => (w1, inl (Exn AlreadyCalledError ""))
            | None => (set_connected (Some (inl reason)) w1, inr tt)
            end
        | Protocol protocol =>
            let r := length (remotes w) in
            let w1 :=
              mkCreator (_args w)
                (set_notifiers (l' ++ [HandleReconnect r]) (_factory w))
                (_connected w) (Some r)
                (remotes w ++ [mkRemoteObject protocol (_args w).1 (_args w).2])
                (notified w) in
            match _connected w with
            | Some _ => (w1, inl (Exn AlreadyCalledError ""))
            | None => (set_connected (Some (inr r)) w1, inr tt)
            end
        end
    end.
Proof.
  destruct w as [args [l r m n t b] conn rem rems ntf].
  cbv beta iota zeta delta
    [_done on_factory remove_notifier bind gets _factory _notifiers].
  destruct (list_remove Done l) as [l'|]; [|reflexivity].
  destruct result as [p|reason], conn as [x|]; reflexivity.
Qed.

(** *** The shapes of a creator *)








(** X18.  The first connection of a creator that is still connecting:
    [buildProtocol] fires nothing by itself; when the reactor runs the
    delayed call it made, [_done] removes itself from the notifiers, builds
    the [RemoteObject] on the new protocol with the arguments given to the
    creator, registers its [_handle_reconnect] and fires the [Deferred] of
    [connect()] with it; nothing is raised, and the retry count of the
    factory is 0. *)
Theorem connection_made_fires_connected (w : state) :
  has_shape Connecting w →
  let protocol := built (_factory w) in
  let c := length (delayed (MethodCallClientFactory.reactor (_factory w))) in
  let w1 := step w Built in
  let w2 := step w1 (Run c) in
  _connected w1 = None
  ∧ has_shape (Connected protocol) w2
  ∧ remote_state <$> remotes w2
    = [RemoteObject.init protocol (_args w).1 (_args w).2]
  ∧ errors [Built; Run c] w = []
  ∧ retries (_factory w2) = 0.
Proof.
  intros (Hcn & Hrm & Hrs & Hn & Hntf) protocol c w1 w2.
  assert (handler Built w = (w1, inr tt)) as E1.
  { subst w1. unfold step, exec. by rewrite build_eq. }
  assert (handler (Run c) w1
          = (mkCreator (_args w)
               (mkFactory [HandleReconnect 0]
                  (mark_called c
                     (mkClock (rightNow (MethodCallClientFactory.reactor (_factory w)))
                        (delayed (MethodCallClientFactory.reactor (_factory w))
                         ++ [mkDelayedCall
                               (rightNow (MethodCallClientFactory.reactor (_factory w)))
                               (Done, Protocol protocol) false false])))
                  (maxRetries (_factory w)) 0 true (S protocol))
               (Some (inr 0)) (Some 0)
               [mkRemoteObject protocol (_args w).1 (_args w).2] (notified w),
             inr tt)) as E2.
  { subst w1. unfold step, exec. rewrite build_eq. cbn [fst].
    rewrite run_eq. cbn [_factory set_factory MethodCallClientFactory.reactor delayed].
    rewrite Hn. cbn [fmap list_fmap].
    rewrite lookup_app_r by done. subst c. rewrite Nat.sub_diag.
    cbn [lookup list_lookup dc_active dc_called dc_cancelled negb andb dc_func].
    unfold notify. cbn [fst snd]. rewrite done_eq.
    destruct w as [args f conn rem rems ntf]. cbn in *. subst.
    rewrite decide_True by done. reflexivity. }
  split_and!.
  - subst w1. unfold step, exec. by rewrite build_eq.
  - subst w2. unfold step at 1, exec. rewrite E2. cbn. done.
  - subst w2. unfold step at 1, exec. rewrite E2. cbn. done.
  - cbn [errors]. rewrite E1. fold w1. rewrite E2. done.
  - subst w2. unfold step at 1, exec. rewrite E2. done.
Qed.

(** X19.  A later connection of a connected creator reaches the proxy:
    the delayed call made by [buildProtocol] calls the proxy's
    [_handle_reconnect] with the new protocol, once; the creator, its proxy
    and the fired [Deferred] are as before, and nothing is raised. *)
Theorem reconnection_reaches_proxy (w : state) (first : nat) :
  has_shape (Connected first) w →
  let protocol := built (_factory w) in
  let c := length (delayed (MethodCallClientFactory.reactor (_factory w))) in
  let w2 := run [Built; Run c] w in
  has_shape (Connected first) w2
  ∧ notified w2 = notified w ++ [(0, Protocol protocol)]
  ∧ _connected w2 = _connected w
  ∧ errors [Built; Run c] w = [].
Proof.
  intros (Hcn & Hrm & Hrs & Hn) protocol c w2.
  assert (handler Built w = (step w Built, inr tt)) as E1.
  { unfold step, exec. by rewrite build_eq. }
  assert (handler (Run c) (step w Built)
          = (mkCreator (_args w)
               (mkFactory [HandleReconnect 0]
                  (mark_called c
                     (mkClock (rightNow (MethodCallClientFactory.reactor (_factory w)))
                        (delayed (MethodCallClientFactory.reactor (_factory w))
                         ++ [mkDelayedCall
                               (rightNow (MethodCallClientFactory.reactor (_factory w)))
                               (HandleReconnect 0, Protocol protocol) false false])))
                  (maxRetries (_factory w)) 0 true (S protocol))
               (_connected w) (_remote w) (remotes w)
               (notified w ++ [(0, Protocol protocol)]),
             inr tt)) as E2.
  { rewrite run_eq. unfold step, exec. rewrite build_eq. cbn [fst].
    cbn [_factory set_factory MethodCallClientFactory.reactor delayed].
    rewrite Hn. cbn [fmap list_fmap].
    rewrite lookup_app_r by done. subst c. rewrite Nat.sub_diag.
    cbn [lookup list_lookup dc_active dc_called dc_cancelled negb andb dc_func].
    destruct w as [args f conn rem rems ntf]. cbn in *. subst. reflexivity. }
  assert (w2 = (handler (Run c) (step w Built)).1) as -> by done.
  split_and!.
  - rewrite E2. cbn. done.
  - by rewrite E2.
  - by rewrite E2.
  - cbn [errors]. rewrite E1, E2. done.
Qed.

Lemma run_snoc evs ev w : run (evs ++ [ev]) w = step (run evs w) ev.
Proof. unfold run. by rewrite foldl_app. Qed.

(** Failed attempts up to the limit only count. *)
Lemma failures_counted retry timeout m reason k :
  k ≤ m →
  run (replicate k (Failed reason)) (connect retry timeout (Some m))
  = mkCreator (retry, timeout)
      (mkFactory [Done] (mkClock 0 []) (Some m) k true 0) None None [] [].
Proof.
  induction k as [|k IH]; intros Hk; [done|].
  rewrite replicate_S_end, run_snoc, IH by lia.
  unfold step, exec. rewrite failed_eq. cbn.
  rewrite bool_decide_eq_false_2 by lia. done.
Qed.

(** X20.  With [max_retries = m], the first [m] failed attempts leave the
    creator connecting and schedule nothing; the next one schedules
    [_done] with the failure, and when the reactor runs it the [Deferred]
    of [connect()] fails with that failure, no proxy is built and no
    notifier is left; nothing is raised. *)
Theorem gives_up_after_max_retries (retry : bool) (timeout : option nat)
    (m k : nat) (reason : exn) :
  let w0 := connect retry timeout (Some m) in
  (k ≤ m →
     has_shape Connecting (run (replicate k (Failed reason)) w0)
     ∧ delayed (MethodCallClientFactory.reactor
                  (_factory (run (replicate k (Failed reason)) w0))) = [])
  ∧ has_shape (GivenUp reason)
      (run (replicate (S m) (Failed reason) ++ [Run 0]) w0)
  ∧ errors (replicate (S m) (Failed reason) ++ [Run 0]) w0 = [].
Proof.
  intros w0. split.
  { intros Hk. subst w0. rewrite failures_counted by done. by cbn. }
  assert (run (replicate (S m) (Failed reason)) w0
          = mkCreator (retry, timeout)
              (mkFactory [Done]
                 (mkClock 0 [mkDelayedCall 0 (Done, GaveUp reason) false false])
                 (Some m) (S m) true 0) None None [] []) as E.
  { subst w0. rewrite replicate_S_end, run_snoc, failures_counted by lia.
    unfold step, exec. rewrite failed_eq. cbn.
    rewrite bool_decide_eq_true_2 by lia. done. }
  split.
  - rewrite run_snoc, E. by cbn.
  - assert (∀ evs w, errors (evs ++ [Run 0]) w
                     = errors evs w
                       ++ match snd (handler (Run 0) (run evs w)) with
                          | inl e => [e]
                          | inr _ => []
                          end) as Happ.
    { induction evs as [|ev evs IH]; intros w.
      - cbn. by rewrite app_nil_r.
      - cbn [app errors]. rewrite IH. unfold run. cbn [foldl].
        by rewrite app_assoc. }
    rewrite Happ, E.
    assert (errors (replicate (S m) (Failed reason)) w0 = []) as ->.
    { generalize (S m). intros n. generalize w0. clear.
      induction n as [|n IH]; intros w; [done|]. cbn [replicate errors].
      rewrite failed_eq. cbn zeta. cbn [snd]. by rewrite IH. }
    by cbn.
Qed.

(** Nothing tells the notifiers of a failure while no limit is set. *)
Lemma unlimited_step (w : state) (ev : event) :
  maxRetries (_factory w) = None →
  (∀ c dc reason,
     delayed (MethodCallClientFactory.reactor (_factory w)) !! c = Some dc →
     (dc_func dc).2 ≠ GaveUp reason) →
  (∀ reason, _connected w ≠ Some (inl reason)) →
  maxRetries (_factory (step w ev)) = None
  ∧ (∀ c dc reason,
       delayed (MethodCallClientFactory.reactor (_factory (step w ev))) !! c
       = Some dc →
       (dc_func dc).2 ≠ GaveUp reason)
  ∧ (∀ reason, _connected (step w ev) ≠ Some (inl reason)).
Proof.
  intros Hm Hq Hcn. unfold step, exec. destruct ev as [|reason0|c].
  - rewrite build_eq. cbn [fst]. split_and!; [done| |done].
    intros c dc reason. cbn. intros [Hl|[_ Hl]]%lookup_app_Some.
    + by apply (Hq c).
    + apply list_lookup_fmap_Some in Hl as (x & -> & Hx). done.
  - rewrite failed_eq. cbn zeta. rewrite Hm. cbn [fst]. split_and!; [done| |done].
    intros c dc reason. cbn. rewrite app_nil_r. apply Hq.
  - rewrite run_eq.
    destruct (delayed (MethodCallClientFactory.reactor (_factory w)) !! c)
      as [dc|] eqn:Hl; [|done].
    destruct (dc_active dc); [|done].
    set (w1 := set_factory _ w).
    assert (maxRetries (_factory w1) = None) as Hm1 by done.
    assert (∀ c' dc' reason,
              delayed (MethodCallClientFactory.reactor (_factory w1)) !! c'
              = Some dc' → (dc_func dc').2 ≠ GaveUp reason) as Hq1.
    { intros c' dc' reason Hl'. cbn in Hl'.
      apply mark_called_func in Hl' as (dc0 & Hl0 & ->). by apply (Hq c'). }
    assert (∀ reason, _connected w1 ≠ Some (inl reason)) as Hcn1 by done.
    clearbody w1.
    destruct (dc_func dc) as [[|r] arg] eqn:Hf; unfold notify; cbn [fst snd].
    + rewrite done_eq.
      destruct (list_remove Done (_notifiers (_factory w1))) as [l'|]; [|done].
      destruct arg as [p|reason0].
      * cbn zeta. destruct (_connected w1) as [x|] eqn:Hx; cbn [fst].
        -- split_and!; [done|done|]. cbn. intros reason0 Heq.
           specialize (Hcn1 reason0). congruence.
        -- split_and!; [done|done|]. cbn. done.
      * exfalso. by apply (Hq c dc reason0 Hl); rewrite Hf.
    + cbv beta iota zeta delta [modify]. cbn [fst]. done.
Qed.

(** X21.  With [max_retries = None] the [Deferred] returned by
    [connect()] never fails: in every reachable state it has not fired, or
    it has fired with a proxy. *)
Theorem no_limit_never_fails (retry : bool) (timeout : option nat)
    (evs : list event) :
  let w := run evs (connect retry timeout None) in
  _connected w = None ∨ ∃ r, _connected w = Some (inr r).
Proof.
  assert (∀ w,
            maxRetries (_factory w) = None →
            (∀ c dc reason,
               delayed (MethodCallClientFactory.reactor (_factory w)) !! c = Some dc →
               (dc_func dc).2 ≠ GaveUp reason) →
            (∀ reason, _connected w ≠ Some (inl reason)) →
            ∀ reason, _connected (run evs w) ≠ Some (inl reason)) as H.
  { induction evs as [|ev evs IH]; intros w Hm Hq Hcn; [done|].
    unfold run in *. cbn [foldl].
    destruct (unlimited_step w ev Hm Hq Hcn) as (Hm' & Hq' & Hcn').
    by apply IH. }
  intros w.
  assert (∀ reason, _connected w ≠ Some (inl reason)) as Hno.
  { apply H; [done| |done].
    intros c dc reason0. unfold connect. cbn. by rewrite lookup_nil. }
  destruct (_connected w) as [[reason|r]|]; [|right; eauto|by left].
  by destruct (Hno reason).
Qed.
End CreatorProofs.

(** ** The model at work on the small deployment *)

Lemma tally_inj : Inj (=) (=) Demo.tally.
Proof.
  intros n. induction n as [|n IH]; intros [|m] H; try done.
  injection H as H. f_equal. by apply IH.
Qed.

Lemma demo_uuid4_inj : Inj (=) (=) Demo.uuid4.
Proof.
  intros n m H. unfold Demo.uuid4 in H. cbn in H.
  injection H as H. by apply tally_inj.
Qed.

Lemma forbidden_method_rejected_witness :
  Demo.receive_method_call "secret" [] [] Demo.server
  = (Demo.server,
     inl (Exn MethodCallError "Forbidden method 'secret'")).
Proof.
  refine (proj1 (forbidden_method_rejected Demo.dumps_table Demo.uuid4 nat
                   Demo.getattr Demo.server "secret" [] [] _)).
  apply (bool_decide_unpack _). vm_compute. exact I.
Defined.

Lemma non_serializable_deferred_result_unreported_witness :
  let w1 := exec (Demo.receive_method_call "slow" [] []) Demo.server in
  let w2 := exec (Demo.fire 0 (Callback Demo.thing)) w1 in
  MethodCallServerProtocol.transport w2 = []
  ∧ MethodCallServerProtocol.lookup_deferred 0 w2
    = mkSDeferred
        (Some (Errback (Exn MethodCallError "Non-serializable result"))) [].
Proof.
  refine (proj2 (non_serializable_deferred_result_unreported Demo.dumps_table nat
                   (exec (Demo.receive_method_call "slow" [] []) Demo.server)
                   0 (Demo.uuid4 0) Demo.thing _ _)).
  - vm_compute. reflexivity.
  - vm_compute. reflexivity.
Defined.



(** Being an instance of a strict subclass of a supported type does not
    make [check] answer false: [bool] is a strict subclass of the supported
    [int], and [check(True)] is true because [bool] has its own entry in
    the table. *)
Lemma bool_is_a_serializable_subclass :
  ¬ (∀ (dumps_table : list pytype) (v : value) (t : pytype),
       t ∈ dumps_table → strict_subclass (type_of v) t →
       MethodCallServerProtocol.check dumps_table v = false).
Proof.
  intros H. specialize (H Demo.dumps_table (VBool true) TInt).
  assert (MethodCallServerProtocol.check Demo.dumps_table (VBool true) = true)
    as Ht by reflexivity.
  rewrite H in Ht; [discriminate| |].
  - apply (bool_decide_unpack _). vm_compute. exact I.
  - apply (bool_decide_unpack _). vm_compute. exact I.
Qed.

(** An instance of a subclass of [int] that bpickle does not register. *)
Lemma check_is_exact_type_membership_witness :
  MethodCallServerProtocol.check Demo.dumps_table
    (VInstance "Counter" TInt (VInt 1)) = false.
Proof.
  refine (proj2 (check_is_exact_type_membership Demo.dumps_table
                   (VInstance "Counter" TInt (VInt 1))) TInt _ _ _).
  - apply (bool_decide_unpack _). vm_compute. exact I.
  - apply (bool_decide_unpack _). vm_compute. exact I.
  - apply (bool_decide_unpack _). vm_compute. exact I.
Defined.

Lemma deferred_response_timeout_witness :
  let w1 := exec (MethodCallClientProtocol.handle_response
                    (mkResponse VNone (Some (Demo.uuid4 0))))
              (MethodCallClientProtocol.init 60) in
  let w2 := MethodCallClientProtocol.run [MethodCallClientProtocol.Advance 60] w1 in
  MethodCallClientProtocol.deferreds w2 !! 0
  = Some (Some (Errback (Exn MethodCallError "timeout")))
  ∧ MethodCallClientProtocol._pending_responses w2 !! Demo.uuid4 0 = None.
Proof.
  destruct (ClientProofs.deferred_response_timeout 60 []
              [MethodCallClientProtocol.Advance 60] [] (Demo.uuid4 0) VNone)
    as (_ & _ & _ & H4 & H5 & _).
  - discriminate.
  - repeat constructor.
  - vm_compute. lia.
  - apply Exists_cons_hd. by exists 60.
  - split; [exact H4|exact H5].
Defined.

(** The timeout of the stored request fires. *)
Lemma handle_failure_spec_witness :
  let w' := exec (RemoteObject._handle_failure RemoteObject.timeout_failure
                    "ping" [] [] 0 None) Demo.waiting_proxy in
  RemoteObject._pending_requests Demo.waiting_proxy !! 0
  = Some (RemoteObject.mkRequest "ping" [] [] (Some 0))
  ∧ RemoteObject._pending_requests w' !! 0 = None
  ∧ RemoteObject.deferreds w' !! 0
    = Some (Some (Errback (Exn MethodCallError "timeout"))).
Proof.
  destruct (RemoteProofs.handle_failure_spec Demo.waiting_proxy
              RemoteObject.timeout_failure "ping" [] [] 0 None) as [Hgive _].
  destruct (Hgive (or_introl eq_refl)) as (Hp & _ & _ & Hd).
  split_and!.
  - reflexivity.
  - cbn zeta. rewrite Hp. apply lookup_delete_eq.
  - apply Hd; [by left|reflexivity].
Defined.

(** A new connection is announced to that proxy. *)
Lemma handle_reconnect_spec_witness :
  let w' := exec (RemoteObject._handle_reconnect (RemoteObject.Protocol 1))
              Demo.waiting_proxy in
  RemoteObject._pending_requests w' = ∅
  ∧ RemoteObject.outstanding w'
    = [Some (RemoteObject.mkHandlers "ping" [] [] 0 (Some 0))]
  ∧ RemoteObject.reactor w' = RemoteObject.reactor Demo.waiting_proxy.
Proof.
  destruct (RemoteProofs.handle_reconnect_spec Demo.waiting_proxy 1)
    as (_ & _ & Hretry & _).
  destruct (Hretry eq_refl eq_refl) as (Hp & Ho & _ & Hr & _).
  split_and!; [exact Hp| |exact Hr].
  cbn zeta. rewrite Ho. reflexivity.
Defined.



Lemma synchronous_round_trip_witness :
  let wr := RemoteObject.init 0 false None in
  (Demo.receive_method_call "echo" [VStr "hi"] [] Demo.server).2
  = inr (mkResponse (VStr "hi") None)
  ∧ RemoteObject.deferreds
      (RemoteObject.step
         (exec (RemoteObject.call_method "echo" [VStr "hi"] []) wr)
         (RemoteObject.Answer 0 (mkResponse (VStr "hi") None))) !! 0
    = Some (Some (Callback (VStr "hi"))).
Proof.
  edestruct (synchronous_round_trip Demo.dumps_table Demo.uuid4 nat Demo.getattr
               value Demo.dumps Demo.loads Demo.server
               (MethodCallClientProtocol.init 60)
               (RemoteObject.init 0 false None) 0 "echo" [VStr "hi"] [])
    as (H1 & _ & _ & _ & _ & _ & H7).
  - intros x _. by exists x.
  - intros x b [= <-]. reflexivity.
  - apply (bool_decide_unpack _). vm_compute. exact I.
  - reflexivity.
  - reflexivity.
  - left. reflexivity.
  - reflexivity.
  - reflexivity.
  - reflexivity.
  - split; [exact H1|exact H7].
Defined.

(** [bad] returns an object that bpickle cannot dump. *)
Lemma unserializable_result_rejected_witness :
  Demo.receive_method_call "bad" [] [] Demo.server
  = (MethodCallServerProtocol.mkServer ["echo"; "slow"; "bad"] 1 ∅ 0 []
       [("bad", [], [])],
     inl (Exn MethodCallError "Non-serializable result")).
Proof.
  refine (unserializable_result_rejected Demo.dumps_table Demo.uuid4 nat
            Demo.getattr Demo.server "bad" [] []
            (λ _ _ n, (S n, Returns Demo.thing)) 1 (Returns Demo.thing)
            Demo.thing _ _ _ _ _).
  - apply (bool_decide_unpack _). vm_compute. exact I.
  - reflexivity.
  - reflexivity.
  - left. reflexivity.
  - reflexivity.
Defined.

(** [echo] called without its argument raises. *)
Lemma method_failure_reported_witness :
  (Demo.receive_method_call "echo" [] [] Demo.server).2
  = inl (Exn MethodCallError "echo() takes exactly 1 argument")
  ∧ MethodCallServerProtocol.invoked
      (exec (Demo.receive_method_call "echo" [] []) Demo.server)
    = [("echo", [], [])].
Proof.
  destruct (method_failure_reported Demo.dumps_table Demo.uuid4 nat Demo.getattr
              Demo.server "echo" [] []
              (λ args _ n,
                 (S n, match args with
                       | [x] => Returns x
                       | _ => Raises (Exn (OtherError "TypeError")
                                        "echo() takes exactly 1 argument")
                       end)) 1
              (Raises (Exn (OtherError "TypeError") "echo() takes exactly 1 argument"))
              (Exn (OtherError "TypeError") "echo() takes exactly 1 argument"))
    as (H1 & _ & _ & H4 & _).
  - apply (bool_decide_unpack _). vm_compute. exact I.
  - reflexivity.
  - reflexivity.
  - left. reflexivity.
  - split; [exact H1|exact H4].
Defined.

(** Two deferred calls, both answered. *)
Lemma one_deferred_response_per_uuid_witness :
  let evs := [ServerConnection.Command "slow" [] [];
              ServerConnection.Command "slow" [] [];
              ServerConnection.Fires 1 (Callback (VInt 2));
              ServerConnection.Fires 0 (Errback (Exn (OtherError "IOError") "disk"))] in
  NoDup (dr_uuid <$>
           MethodCallServerProtocol.transport
             (ServerConnection.run Demo.dumps_table Demo.uuid4 Demo.getattr evs
                (ServerConnection.init ["echo"; "slow"; "bad"] 0)))
  ∧ MethodCallServerProtocol.transport
      (ServerConnection.run Demo.dumps_table Demo.uuid4 Demo.getattr evs
         (ServerConnection.init ["echo"; "slow"; "bad"] 0))
    = [mkDeferredResponse (Demo.uuid4 1) (Some (VInt 2)) None;
       mkDeferredResponse (Demo.uuid4 0) None (Some "disk")].
Proof.
  destruct (one_deferred_response_per_uuid Demo.dumps_table Demo.uuid4 nat
              Demo.getattr ["echo"; "slow"; "bad"] 0
              [ServerConnection.Command "slow" [] [];
               ServerConnection.Command "slow" [] [];
               ServerConnection.Fires 1 (Callback (VInt 2));
               ServerConnection.Fires 0 (Errback (Exn (OtherError "IOError") "disk"))]
              demo_uuid4_inj) as (_ & H2 & _).
  split; [exact H2|reflexivity].
Defined.

Lemma pending_responses_are_live_witness :
  let w := MethodCallClientProtocol.run
             [MethodCallClientProtocol.Answer (mkResponse VNone (Some "a"));
              MethodCallClientProtocol.Advance 10]
             (MethodCallClientProtocol.init 60) in
  MethodCallClientProtocol.deferreds w !! 0 = Some None
  ∧ active 0 (MethodCallClientProtocol.reactor w) = true.
Proof.
  destruct (ClientTraceProofs.pending_responses_are_live 60
              [MethodCallClientProtocol.Answer (mkResponse VNone (Some "a"));
               MethodCallClientProtocol.Advance 10] "a" 0 0)
    as (H1 & H2 & _).
  - reflexivity.
  - split; [exact H1|exact H2].
Defined.

Lemma deferred_response_before_timeout_witness :
  let w1 := exec (MethodCallClientProtocol.handle_response
                    (mkResponse VNone (Some "a")))
              (MethodCallClientProtocol.init 60) in
  let w2 := MethodCallClientProtocol.run [MethodCallClientProtocol.Advance 59] w1 in
  let w3 := MethodCallClientProtocol.step w2
              (MethodCallClientProtocol.Box
                 (mkDeferredResponse "a" (Some (VInt 7)) None)) in
  MethodCallClientProtocol.deferreds w3 !! 0
  = Some (Some (Callback (VDict [(VStr "result", VInt 7)])))
  ∧ MethodCallClientProtocol.deferreds
      (MethodCallClientProtocol.run [MethodCallClientProtocol.Advance 100] w3) !! 0
    = Some (Some (Callback (VDict [(VStr "result", VInt 7)]))).
Proof.
  destruct (ClientTraceProofs.deferred_response_before_timeout 60 []
              [MethodCallClientProtocol.Advance 59]
              [MethodCallClientProtocol.Advance 100] "a" VNone
              (mkDeferredResponse "a" (Some (VInt 7)) None))
    as (_ & _ & _ & _ & H5 & _ & _ & H8).
  - discriminate.
  - constructor.
  - repeat constructor.
  - vm_compute. lia.
  - reflexivity.
  - split; [exact H5|exact H8].
Defined.

Lemma stored_request_times_out_witness :
  let w' := RemoteObject.step Demo.waiting_proxy (RemoteObject.Advance 5) in
  RemoteObject.deferreds Demo.waiting_proxy !! 0 = Some None
  ∧ RemoteObject.deferreds w' !! 0
    = Some (Some (Errback (Exn MethodCallError "timeout")))
  ∧ RemoteObject._pending_requests w' !! 0 = None.
Proof.
  destruct (RemoteTraceProofs.stored_request_times_out Demo.waiting_proxy 0 0 5 5
              "ping" [] []) as (H1 & H2 & _).
  - reflexivity.
  - vm_compute. lia.
  - reflexivity.
  - split_and!; [reflexivity|exact H1|exact H2].
Defined.

Lemma timeout_not_before_deadline_witness :
  let w' := RemoteObject.step Demo.waiting_proxy (RemoteObject.Advance 4) in
  RemoteObject.deferreds w' !! 0 = Some None
  ∧ RemoteObject._pending_requests w' !! 0
    = Some (RemoteObject.mkRequest "ping" [] [] (Some 0)).
Proof.
  destruct (RemoteTraceProofs.timeout_not_before_deadline Demo.waiting_proxy 0 4)
    as [H1 H2].
  - intros c dc method args kwargs Hl _ _.
    destruct c as [|c]; [|destruct c; discriminate Hl].
    injection Hl as <-. vm_compute. lia.
  - split; [exact H1|exact H2].
Defined.

Lemma retried_request_delivers_witness :
  let w1 := RemoteObject.step Demo.waiting_proxy
              (RemoteObject.Notify (RemoteObject.Protocol 1)) in
  let w2 := RemoteObject.step w1 (RemoteObject.Answer 0 (mkResponse (VStr "pong") None)) in
  RemoteObject.deferreds w2 !! 0 = Some (Some (Callback (VStr "pong")))
  ∧ active 0 (RemoteObject.reactor w2) = false.
Proof.
  destruct (RemoteTraceProofs.retried_request_delivers Demo.waiting_proxy 1 0
              (RemoteObject.mkRequest "ping" [] [] (Some 0)))
    as (tag & Htag & Hout & _ & _ & Hans).
  - reflexivity.
  - reflexivity.
  - reflexivity.
  - reflexivity.
  - intros c [= <-]. reflexivity.
  - assert (tag = 0) as ->.
    { destruct tag as [|tag]; [done|]. destruct tag; discriminate Hout. }
    destruct (Hans (mkResponse (VStr "pong") None)) as (H1 & _ & _ & H4).
    split; [exact H1|]. apply (H4 0). reflexivity.
Defined.

Lemma call_on_lost_transport_witness :
  let w := RemoteObject.step (RemoteObject.init 0 false None)
             (RemoteObject.TransportGone 0 RemoteObject.Done) in
  let w' := exec (RemoteObject.call_method "ping" [] []) w in
  RemoteObject.sent w' = []
  ∧ RemoteObject.deferreds w'
    = [Some (Errback (Exn ConnectionDone "Connection was closed cleanly."))].
Proof.
  destruct (RemoteTraceProofs.call_on_lost_transport
              (RemoteObject.step (RemoteObject.init 0 false None)
                 (RemoteObject.TransportGone 0 RemoteObject.Done))
              0 RemoteObject.Done "ping" [] [])
    as (_ & H2 & _ & H4 & _).
  - reflexivity.
  - reflexivity.
  - destruct (H4 eq_refl) as (H5 & _). split; [exact H2|exact H5].
Defined.



Lemma connection_made_fires_connected_witness :
  let w := RemoteObjectCreator.run
             [RemoteObjectCreator.Failed (Exn (OtherError "ConnectError") "refused");
              RemoteObjectCreator.Built; RemoteObjectCreator.Run 0]
             (RemoteObjectCreator.connect true (Some 5) None) in
  RemoteObjectCreator._connected w = Some (inr 0)
  ∧ RemoteObjectCreator.remote_state <$> RemoteObjectCreator.remotes w
    = [RemoteObject.init 0 true (Some 5)].
Proof.
  destruct (CreatorProofs.connection_made_fires_connected
              (RemoteObjectCreator.run
                 [RemoteObjectCreator.Failed (Exn (OtherError "ConnectError") "refused")]
                 (RemoteObjectCreator.connect true (Some 5) None)))
    as (_ & H2 & H3 & _).
  - vm_compute. done.
  - split; [exact (proj1 H2)|exact H3].
Defined.

Lemma reconnection_reaches_proxy_witness :
  let w := RemoteObjectCreator.run
             [RemoteObjectCreator.Built; RemoteObjectCreator.Run 0;
              RemoteObjectCreator.Built; RemoteObjectCreator.Run 1]
             (RemoteObjectCreator.connect false None (Some 3)) in
  RemoteObjectCreator.notified w = [(0, RemoteObject.Protocol 1)]
  ∧ RemoteObjectCreator._connected w = Some (inr 0).
Proof.
  destruct (CreatorProofs.reconnection_reaches_proxy
              (RemoteObjectCreator.run
                 [RemoteObjectCreator.Built; RemoteObjectCreator.Run 0]
                 (RemoteObjectCreator.connect false None (Some 3))) 0)
    as (_ & H2 & H3 & _).
  - vm_compute. repeat split.
  - vm_compute in H2, H3. vm_compute. split; [exact H2|exact H3].
Defined.
